(** * UV-sphere mesh generation (procgenmemtest)

    A shallow embedding of
      - [procgenmemtest/points2d.py]            (circle and arc samplers),
      - [procgenmemtest/modelgen/uvspheregeom.py] (indexed vertex/triangle form),
      - [procgenmemtest/modelgen/uvsphereegg.py]  (vertex-pool/polygon form),
    and the properties of the generated mesh.

    Python [int] values are [Z].  The code is written once over the
    operations on numbers that it uses, the class [Arithmetic]: Python's
    [float] operations, [int / int], [math.cos], [math.sin], and the
    conversion to single precision that a row of the vertex table applies.
    Two instances are given.  [binary64] is the arithmetic the code runs on:
    IEEE 754 double precision as specified by the Standard Library's
    [SpecFloat], rows of the vertex table rounded to single precision, and the
    platform's [cos] and [sin] taken as parameters.  [exact] computes with
    real numbers and rounds nothing.  What is proved for every lawful
    arithmetic holds of both; what is proved for [exact] alone is a statement
    about exact arithmetic and is marked as such.  Code that can raise is
    modelled in a state-and-exception monad whose outcome keeps the store
    reached when the exception was raised. *)

From Stdlib Require Import Reals ZArith List Bool Lia Lra Permutation FinFun.
From Stdlib Require Floats.
Import ListNotations.
Import SpecFloat.

Open Scope Z_scope.

(** ** Exceptions and the state-and-exception monad *)

Inductive exn : Type :=
| ValueError
| ZeroDivisionError
| IndexError
| OverflowError.

Inductive result (A : Type) : Type :=
| Ok (a : A)
| Raise (e : exn).

Arguments Ok {A} a.
Arguments Raise {A} e.

Definition M (S A : Type) : Type := S -> result A * S.

Definition ret {S A} (a : A) : M S A := fun s => (Ok a, s).

Definition raise {S A} (e : exn) : M S A := fun s => (Raise e, s).

Definition bind {S A B} (m : M S A) (k : A -> M S B) : M S B :=
  fun s =>
    match m s with
    | (Ok a, s') => k a s'
    | (Raise e, s') => (Raise e, s')
    end.

Definition modify {S} (f : S -> S) : M S unit := fun s => (Ok tt, f s).

Definition gets {S A} (f : S -> A) : M S A := fun s => (Ok (f s), s).

Declare Scope monad_scope.
Delimit Scope monad_scope with monad.
Notation "x <- m ;; k" := (bind m (fun x => k))
  (at level 61, m at next level, right associativity) : monad_scope.
Notation "m ;;; k" := (bind m (fun _ => k))
  (at level 61, right associativity) : monad_scope.

Open Scope monad_scope.

(** An expression that may raise, followed by what is done with its value. *)
Definition and_then {A B} (r : result A) (k : A -> result B) : result B :=
  match r with
  | Ok a => k a
  | Raise e => Raise e
  end.

(** [for _ in range(n): body] *)
Fixpoint for_range {S} (n : nat) (body : M S unit) : M S unit :=
  match n with
  | O => ret tt
  | S n' => body ;;; for_range n' body
  end.

(** [for x in xs: body(x)] over an already materialised sequence. *)
Fixpoint for_each {S A} (xs : list A) (body : A -> M S unit) : M S unit :=
  match xs with
  | [] => ret tt
  | x :: xs' => body x ;;; for_each xs' body
  end.

(** A generator whose [next] may raise is the list of the outcomes of its
    successive [next] calls; a consumer stops at the first [Raise].
    [for x in g: body(x)]. *)
Fixpoint for_in {S A} (g : list (result A)) (body : A -> M S unit)
  : M S unit :=
  match g with
  | [] => ret tt
  | Ok x :: g' => body x ;;; for_in g' body
  | Raise e :: _ => raise e
  end.

(** [for i, x in enumerate(g): body(i, x)], counting from [i]. *)
Fixpoint for_enumerate {S A} (g : list (result A)) (i : Z)
         (body : Z -> A -> M S unit) : M S unit :=
  match g with
  | [] => ret tt
  | Ok x :: g' => body i x ;;; for_enumerate g' (i + 1) body
  | Raise e :: _ => raise e
  end.

(** [range(lo, hi)]: empty when [hi <= lo]. *)
Definition range (lo hi : Z) : list Z :=
  map (fun k => lo + Z.of_nat k) (seq 0 (Z.to_nat (hi - lo))).

(** [itertools.islice(g, start, stop)] for [0 <= start]: the first [next]
    consumes the [start] items to skip before [stop] is looked at, so an
    exception raised by a skipped item is the outcome of that [next], also
    when [stop <= start]; after that come the items at positions
    [start .. stop-1]. *)
Fixpoint islice_skip {A} (g : list (result A)) (k : nat) {struct k}
  : result (list (result A)) :=
  match k, g with
  | O, _ => Ok g
  | S _, [] => Ok []
  | S k', Ok _ :: g' => islice_skip g' k'
  | S _, Raise e :: _ => Raise e
  end.

Definition islice {A} (g : list (result A)) (start stop : Z) : list (result A) :=
  match islice_skip g (Z.to_nat start) with
  | Raise e => [Raise e]
  | Ok rest => firstn (Z.to_nat (stop - start)) rest
  end.

(** ** [collections.deque] with [maxlen] *)

Record deque (A : Type) : Type := mkDeque {
  dq_items : list A;
  dq_maxlen : nat
}.

Arguments mkDeque {A} _ _.
Arguments dq_items {A} _.
Arguments dq_maxlen {A} _.

(** [deque((), maxlen=n)]; a negative [maxlen], which Python rejects, does
    not occur: both generators build their deques after the argument check,
    with [maxlen = no_of_segments >= 3]. *)
Definition deque_new {A} (maxlen : Z) : deque A := mkDeque [] (Z.to_nat maxlen).

(** [d.append(x)]: a full deque discards its leftmost item first. *)
Definition deque_append {A} (d : deque A) (x : A) : deque A :=
  match dq_maxlen d with
  | O => d
  | S _ =>
      if (length (dq_items d) <? dq_maxlen d)%nat
      then mkDeque (dq_items d ++ [x]) (dq_maxlen d)
      else mkDeque (tl (dq_items d) ++ [x]) (dq_maxlen d)
  end.

(** [d.extend(xs)] *)
Definition deque_extend {A} (d : deque A) (xs : list A) : deque A :=
  fold_left deque_append xs d.

(** One step of rotation to the left, [d.rotate(-1)]. *)
Definition rotate_left {A} (l : list A) : list A :=
  match l with
  | [] => []
  | x :: l' => l' ++ [x]
  end.

Definition deque_rotate_m1 {A} (d : deque A) : deque A :=
  mkDeque (rotate_left (dq_items d)) (dq_maxlen d).

(** [d[0]] and [d[-1]]: [IndexError] on an empty deque. *)
Definition deque_first {A} (d : deque A) : result A :=
  match dq_items d with
  | [] => Raise IndexError
  | x :: _ => Ok x
  end.

Definition deque_last {A} (d : deque A) : result A :=
  match rev (dq_items d) with
  | [] => Raise IndexError
  | x :: _ => Ok x
  end.

(** [d.clear()] *)
Definition deque_clear {A} (d : deque A) : deque A := mkDeque [] (dq_maxlen d).

(** ** The numbers of the program

    The operations the code applies to numbers that are not [int]s.  The
    arguments that the code passes as [int] where a float is computed with
    (the [0] of a center, the [2] of [radius * 2], [270], [360]) enter through
    [of_int]; a [radius], a [start_degrees] or a [circle_proportion] is a
    float. *)
Class Arithmetic : Type := {
  num : Type;
  (** the float an [int] operand is converted to *)
  of_int : Z -> num;
  (** the literal [.5] *)
  half : num;
  (** [math.tau] *)
  tau : num;
  (** [x * y], [x + y], [x - y] *)
  mul : num -> num -> num;
  add : num -> num -> num;
  sub : num -> num -> num;
  (** [x / y] and [x % y] for a divisor other than zero *)
  div : num -> num -> num;
  py_mod : num -> num -> num;
  (** [i / d] of two [int]s, for a divisor other than zero *)
  int_quotient : Z -> Z -> result num;
  (** [x > y] and [x <= y] *)
  gtb : num -> num -> bool;
  leb : num -> num -> bool;
  (** [math.cos(x)] and [math.sin(x)] *)
  math_cos : num -> result num;
  math_sin : num -> result num;
  (** what a row of a [GeomVertexFormat.getV3()] table keeps of a number *)
  float32 : num -> num
}.

Abbreviation Triangle := (Z * Z * Z)%type.

Section Program.
Context {A : Arithmetic}.

(** ** points2d.py *)

Definition Point2D : Type := (num * num)%type.

(** [i / d] of two [int]s. *)
Definition py_truediv (i d : Z) : result num :=
  if d =? 0 then Raise ZeroDivisionError else int_quotient i d.

(** Lines 26-29 and 74-77: the point at [angle_radians]. *)
Definition point_at (radius : num) (center : Point2D) (angle_radians : num)
  : result Point2D :=
  let '(xc, yc) := center in
  and_then (math_cos angle_radians) (fun c =>
  let x := mul radius c in
  and_then (math_sin angle_radians) (fun s =>
  let y := mul radius s in
  Ok (add x xc, add y yc))).

Definition yield_2d_circle_points (quantity : Z) (radius : num)
           (center : Point2D) : list (result Point2D) :=
  map (fun point_index =>
         and_then (py_truediv point_index quantity) (fun fraction =>
         let angle_radians := mul fraction tau in
         point_at radius center angle_radians))
      (range 0 quantity).

(** The angle computed for sample [point_index] by
    [yield_2d_circle_points_plus] (lines 46-72): [start_angle], the divisor,
    the division (which raises on a zero divisor) and the conditional
    subtraction of [tau]. *)
Definition arc_divisor (quantity : Z) (include_last : bool) : Z :=
  if include_last then quantity - 1 else quantity.

Definition arc_start_angle (start_degrees : num) : num :=
  let tau_percentage :=
    div (py_mod start_degrees (of_int 360)) (of_int 360) in
  mul tau_percentage tau.

Definition arc_raw_angle (quantity : Z) (start_degrees : num)
           (include_last : bool) (circle_proportion : num)
           (point_index : Z) : result num :=
  let start_angle := arc_start_angle start_degrees in
  let tau_proportion := mul circle_proportion tau in
  let divisor := arc_divisor quantity include_last in
  and_then (py_truediv point_index divisor) (fun fraction =>
  Ok (add (mul fraction tau_proportion) start_angle)).

Definition arc_wrap (angle_radians : num) : num :=
  if gtb angle_radians tau then sub angle_radians tau else angle_radians.

Definition arc_angle (quantity : Z) (start_degrees : num)
           (include_last : bool) (circle_proportion : num)
           (point_index : Z) : result num :=
  and_then (arc_raw_angle quantity start_degrees include_last
                          circle_proportion point_index)
           (fun angle_radians => Ok (arc_wrap angle_radians)).

Definition yield_2d_circle_points_plus (quantity : Z) (radius : num)
           (start_degrees : num) (include_last : bool)
           (circle_proportion : num) (center : Point2D)
  : list (result Point2D) :=
  map (fun point_index =>
         and_then (arc_angle quantity start_degrees include_last
                             circle_proportion point_index)
                  (point_at radius center))
      (range 0 quantity).

(** ** The meridian shared by both generators

    [islice(yield_2d_circle_points_plus(quantity=no_of_rings + 2, radius,
    start_degrees=270, include_last=True, circle_proportion=.5,
    center=(0, radius)), 1, quantity_of_points - 1)]. *)
Definition segment_points_xz (radius : num) (no_of_rings : Z)
  : list (result Point2D) :=
  let quantity_of_points := no_of_rings + 2 in
  islice
    (yield_2d_circle_points_plus quantity_of_points radius (of_int 270) true
                                 half (of_int 0, radius))
    1 (quantity_of_points - 1).

Record Point3D : Type := mkPoint3D { px : num; py : num; pz : num }.

(** The argument check common to both generators (lines 47-56 and 50-59). *)
Definition check_error_conditions {S} (radius : num)
           (no_of_segments no_of_rings : Z) : M S unit :=
  if leb radius (of_int 0) then raise ValueError
  else if no_of_segments <? 3 then raise ValueError
  else if no_of_rings <? 3 then raise ValueError
  else ret tt.

(** ** modelgen/uvspheregeom.py

    The store of one call: the vertex table with its writer, the triangle
    primitive and the two index windows.  An unwritten row of the table is
    [None] ([uncleanSetNumRows] leaves rows uninitialised).  The table is
    made with [GeomVertexFormat.getV3()], whose rows are three single
    precision numbers: a row holds what [float32] keeps of each coordinate
    written to it. *)

Record GeomBuild : Type := mkGeomBuild {
  vdata : list (option Point3D);
  writer_row : nat;
  triangle_primitives_holder : list Triangle;
  current_ring_indices : deque Z;
  previous_ring_indices : deque Z
}.

(** The store before the call has created anything. *)
Definition geom_nothing : GeomBuild :=
  mkGeomBuild [] O [] (mkDeque [] O) (mkDeque [] O).

(** Writing row [i]: an existing row is overwritten, a write past the end
    adds a row. *)
Fixpoint write_row {T} (l : list T) (i : nat) (x : T) : list T :=
  match l, i with
  | [], _ => [x]
  | _ :: l', O => x :: l'
  | y :: l', S i' => y :: write_row l' i' x
  end.

(** [vdata.uncleanSetNumRows(n)] *)
Definition unclean_set_num_rows (n : Z) : M GeomBuild unit :=
  modify (fun st =>
    mkGeomBuild
      (firstn (Z.to_nat n) (vdata st)
       ++ repeat None (Z.to_nat n - length (vdata st)))
      (writer_row st) (triangle_primitives_holder st)
      (current_ring_indices st) (previous_ring_indices st)).

(** The row that holds the point [p]. *)
Definition stored (p : Point3D) : Point3D :=
  mkPoint3D (float32 (px p)) (float32 (py p)) (float32 (pz p)).

(** [GeomVertexWriter(vdata, 'vertex').addData3] *)
Definition add_point (p : Point3D) : M GeomBuild unit :=
  modify (fun st =>
    mkGeomBuild (write_row (vdata st) (writer_row st) (Some (stored p)))
                (S (writer_row st)) (triangle_primitives_holder st)
                (current_ring_indices st) (previous_ring_indices st)).

(** [triangle_primitives_holder.addVertices] *)
Definition add_tri_points_indices (a b c : Z) : M GeomBuild unit :=
  modify (fun st =>
    mkGeomBuild (vdata st) (writer_row st)
                (triangle_primitives_holder st ++ [(a, b, c)])
                (current_ring_indices st) (previous_ring_indices st)).

Definition set_current_ring_indices (f : GeomBuild -> deque Z)
  : M GeomBuild unit :=
  modify (fun st =>
    mkGeomBuild (vdata st) (writer_row st) (triangle_primitives_holder st)
                (f st) (previous_ring_indices st)).

Definition set_previous_ring_indices (f : GeomBuild -> deque Z)
  : M GeomBuild unit :=
  modify (fun st =>
    mkGeomBuild (vdata st) (writer_row st) (triangle_primitives_holder st)
                (current_ring_indices st) (f st)).

Definition current_first : M GeomBuild Z :=
  fun st => (deque_first (current_ring_indices st), st).
Definition current_last : M GeomBuild Z :=
  fun st => (deque_last (current_ring_indices st), st).
Definition previous_first : M GeomBuild Z :=
  fun st => (deque_first (previous_ring_indices st), st).
Definition previous_last : M GeomBuild Z :=
  fun st => (deque_last (previous_ring_indices st), st).

Definition current_extend (xs : list Z) : M GeomBuild unit :=
  set_current_ring_indices
    (fun st => deque_extend (current_ring_indices st) xs).
Definition current_rotate : M GeomBuild unit :=
  set_current_ring_indices
    (fun st => deque_rotate_m1 (current_ring_indices st)).
Definition previous_rotate : M GeomBuild unit :=
  set_previous_ring_indices
    (fun st => deque_rotate_m1 (previous_ring_indices st)).
(** [previous_ring_indices.extend(current_ring_indices)] *)
Definition previous_extend_current : M GeomBuild unit :=
  set_previous_ring_indices
    (fun st => deque_extend (previous_ring_indices st)
                            (dq_items (current_ring_indices st))).

(** Lines 150-154 and 201-205: the points of one ring. *)
Definition add_ring_points (no_of_segments : Z) (segment_x segment_z : num)
  : M GeomBuild unit :=
  for_in (yield_2d_circle_points no_of_segments segment_x
                                 (of_int 0, of_int 0))
         (fun '(ring_x, ring_y) =>
            add_point (mkPoint3D ring_x ring_y segment_z)).

(** Lines 161-186: the fan around the first point. *)
Definition first_ring_tris (no_of_segments : Z) : M GeomBuild unit :=
  for_range (Z.to_nat no_of_segments)
    (i1 <- current_first ;;
     i2 <- current_last ;;
     add_tri_points_indices 0 i1 i2 ;;;
     current_rotate).

(** Lines 230-248: the pair of triangles per step between two rings. *)
Definition ring_pair_tris (no_of_segments : Z) : M GeomBuild unit :=
  for_range (Z.to_nat no_of_segments)
    (index_a0 <- previous_last ;;
     index_a1 <- previous_first ;;
     index_b0 <- current_last ;;
     index_b1 <- current_first ;;
     add_tri_points_indices index_a0 index_b1 index_b0 ;;;
     add_tri_points_indices index_b1 index_a0 index_a1 ;;;
     previous_rotate ;;;
     current_rotate).

(** Lines 264-277: the fan around the last point. *)
Definition last_ring_tris (no_of_segments index_of_last_point : Z)
  : M GeomBuild unit :=
  for_range (Z.to_nat no_of_segments)
    (i1 <- previous_last ;;
     i2 <- previous_first ;;
     add_tri_points_indices index_of_last_point i1 i2 ;;;
     previous_rotate).

(** The body of the loop over the meridian points (lines 134-277). *)
Definition geom_ring_body (radius : num)
           (no_of_segments last_ring_index index_of_last_point : Z)
           (ring_index : Z) (segment_point : Point2D) : M GeomBuild unit :=
  let '(segment_x, segment_z) := segment_point in
  let first_ring_index := 0 in
  if ring_index =? first_ring_index then
    add_point (mkPoint3D (of_int 0) (of_int 0) (of_int 0)) ;;;
    add_ring_points no_of_segments segment_x segment_z ;;;
    current_extend (range 1 (no_of_segments + 1)) ;;;
    first_ring_tris no_of_segments ;;;
    previous_extend_current
  else
    add_ring_points no_of_segments segment_x segment_z ;;;
    (let first_index_on_ring := ring_index * no_of_segments + 1 in
     current_extend
       (range first_index_on_ring (first_index_on_ring + no_of_segments))) ;;;
    ring_pair_tris no_of_segments ;;;
    previous_extend_current ;;;
    if ring_index =? last_ring_index then
      add_point (mkPoint3D (of_int 0) (of_int 0) (mul radius (of_int 2))) ;;;
      last_ring_tris no_of_segments index_of_last_point
    else ret tt.

(** The returned [Geom]: the vertex table and the triangle primitive. *)
Record Geom : Type := mkGeom {
  geom_vertices : list (option Point3D);
  geom_triangles : list Triangle
}.

(** [get_uv_sphere_geom(radius, no_of_segments, no_of_rings, vdata_name)];
    [vdata_name] only labels the table and is left out. *)
Definition get_uv_sphere_geom (radius : num) (no_of_segments no_of_rings : Z)
  : M GeomBuild Geom :=
  check_error_conditions radius no_of_segments no_of_rings ;;;
  (let no_of_points := 2 + no_of_segments * no_of_rings in
   unclean_set_num_rows no_of_points ;;;
   (let last_ring_index := no_of_rings - 1 in
    let index_of_last_point := no_of_points - 1 in
    set_current_ring_indices (fun _ => deque_new no_of_segments) ;;;
    set_previous_ring_indices (fun _ => deque_new no_of_segments) ;;;
    for_enumerate (segment_points_xz radius no_of_rings) 0
      (geom_ring_body radius no_of_segments last_ring_index
                      index_of_last_point) ;;;
    set_previous_ring_indices
      (fun st => deque_clear (previous_ring_indices st)) ;;;
    set_current_ring_indices
      (fun st => deque_clear (current_ring_indices st)) ;;;
    st <- gets (fun st => st) ;;
    ret (mkGeom (vdata st) (triangle_primitives_holder st)))).

(** ** modelgen/uvsphereegg.py

    A vertex handle is the vertex object the pool returned: its number in the
    pool (the pool numbers its vertices in the order of creation, from 0) and
    its position, a [Point3D] of double precision numbers, kept as given.
    Polygons are objects of the store, referred to by their number, since
    each one is attached to the egg data before its vertices are added. *)

Record EggVertex : Type := mkEggVertex {
  ev_index : Z;
  ev_pos : Point3D
}.

Inductive CoordinateSystem : Type := CSZupRight.

Inductive EggChild : Type :=
| ChildCoordinateSystem (cs : CoordinateSystem)
| ChildVertexPool
| ChildPolygon (poly : nat).

Record EggBuild : Type := mkEggBuild {
  data_children : list EggChild;
  vpool : list EggVertex;
  polygons : list (list EggVertex);
  current_ring_vertices : deque EggVertex;
  previous_ring_vertices : deque EggVertex
}.

Definition egg_nothing : EggBuild :=
  mkEggBuild [] [] [] (mkDeque [] O) (mkDeque [] O).

(** [data.addChild] *)
Definition add_to_egg_data (c : EggChild) : M EggBuild unit :=
  modify (fun st =>
    mkEggBuild (data_children st ++ [c]) (vpool st) (polygons st)
               (current_ring_vertices st) (previous_ring_vertices st)).

(** [vpool.makeNewVertex(Point3D(x, y, z))] *)
Definition makeNewVertex (p : Point3D) : M EggBuild EggVertex :=
  fun st =>
    let v := mkEggVertex (Z.of_nat (length (vpool st))) p in
    (Ok v,
     mkEggBuild (data_children st) (vpool st ++ [v]) (polygons st)
                (current_ring_vertices st) (previous_ring_vertices st)).

(** [EggPolygon()] *)
Definition new_EggPolygon : M EggBuild nat :=
  fun st =>
    (Ok (length (polygons st)),
     mkEggBuild (data_children st) (vpool st) (polygons st ++ [[]])
                (current_ring_vertices st) (previous_ring_vertices st)).

Fixpoint update_nth {T} (l : list T) (i : nat) (f : T -> T) : list T :=
  match l, i with
  | [], _ => []
  | x :: l', O => f x :: l'
  | x :: l', S i' => x :: update_nth l' i' f
  end.

(** [poly.addVertex(vertex)] *)
Definition poly_addVertex (poly : nat) (v : EggVertex) : M EggBuild unit :=
  modify (fun st =>
    mkEggBuild (data_children st) (vpool st)
               (update_nth (polygons st) poly (fun vs => vs ++ [v]))
               (current_ring_vertices st) (previous_ring_vertices st)).

Definition set_current_ring_vertices (f : EggBuild -> deque EggVertex)
  : M EggBuild unit :=
  modify (fun st =>
    mkEggBuild (data_children st) (vpool st) (polygons st)
               (f st) (previous_ring_vertices st)).

Definition set_previous_ring_vertices (f : EggBuild -> deque EggVertex)
  : M EggBuild unit :=
  modify (fun st =>
    mkEggBuild (data_children st) (vpool st) (polygons st)
               (current_ring_vertices st) (f st)).

Definition egg_current_first : M EggBuild EggVertex :=
  fun st => (deque_first (current_ring_vertices st), st).
Definition egg_current_last : M EggBuild EggVertex :=
  fun st => (deque_last (current_ring_vertices st), st).
Definition egg_previous_first : M EggBuild EggVertex :=
  fun st => (deque_first (previous_ring_vertices st), st).
Definition egg_previous_last : M EggBuild EggVertex :=
  fun st => (deque_last (previous_ring_vertices st), st).

Definition egg_current_rotate : M EggBuild unit :=
  set_current_ring_vertices
    (fun st => deque_rotate_m1 (current_ring_vertices st)).
Definition egg_previous_rotate : M EggBuild unit :=
  set_previous_ring_vertices
    (fun st => deque_rotate_m1 (previous_ring_vertices st)).
Definition egg_previous_extend_current : M EggBuild unit :=
  set_previous_ring_vertices
    (fun st => deque_extend (previous_ring_vertices st)
                            (dq_items (current_ring_vertices st))).

(** Lines 160-169 and 221-230: [current_ring_vertices.extend(makeNewVertex(...)
    for ring_x, ring_y in yield_2d_circle_points(...))]; the generator
    expression is consumed item by item. *)
Definition egg_add_ring_vertices (no_of_segments : Z)
           (segment_x segment_z : num) : M EggBuild unit :=
  for_in (yield_2d_circle_points no_of_segments segment_x
                                 (of_int 0, of_int 0))
         (fun '(ring_x, ring_y) =>
            v <- makeNewVertex (mkPoint3D ring_x ring_y segment_z) ;;
            set_current_ring_vertices
              (fun st => deque_append (current_ring_vertices st) v)).

(** Lines 175-205. *)
Definition egg_first_ring_tris (no_of_segments : Z) (first_vertex : EggVertex)
  : M EggBuild unit :=
  for_range (Z.to_nat no_of_segments)
    (poly <- new_EggPolygon ;;
     add_to_egg_data (ChildPolygon poly) ;;;
     v1 <- egg_current_first ;;
     v2 <- egg_current_last ;;
     poly_addVertex poly first_vertex ;;;
     poly_addVertex poly v1 ;;;
     poly_addVertex poly v2 ;;;
     egg_current_rotate).

(** Lines 236-265. *)
Definition egg_ring_pair_tris (no_of_segments : Z) : M EggBuild unit :=
  for_range (Z.to_nat no_of_segments)
    (vertex_a0 <- egg_previous_last ;;
     vertex_a1 <- egg_previous_first ;;
     vertex_b0 <- egg_current_last ;;
     vertex_b1 <- egg_current_first ;;
     poly_a <- new_EggPolygon ;;
     add_to_egg_data (ChildPolygon poly_a) ;;;
     poly_b <- new_EggPolygon ;;
     add_to_egg_data (ChildPolygon poly_b) ;;;
     poly_addVertex poly_a vertex_a0 ;;;
     poly_addVertex poly_a vertex_b1 ;;;
     poly_addVertex poly_a vertex_b0 ;;;
     poly_addVertex poly_b vertex_b1 ;;;
     poly_addVertex poly_b vertex_a0 ;;;
     poly_addVertex poly_b vertex_a1 ;;;
     egg_previous_rotate ;;;
     egg_current_rotate).

(** Lines 282-301. *)
Definition egg_last_ring_tris (no_of_segments : Z) (last_vertex : EggVertex)
  : M EggBuild unit :=
  for_range (Z.to_nat no_of_segments)
    (poly <- new_EggPolygon ;;
     add_to_egg_data (ChildPolygon poly) ;;;
     v1 <- egg_previous_last ;;
     v2 <- egg_previous_first ;;
     poly_addVertex poly last_vertex ;;;
     poly_addVertex poly v1 ;;;
     poly_addVertex poly v2 ;;;
     egg_previous_rotate).

(** The body of the loop over the meridian points (lines 143-301). *)
Definition egg_ring_body (radius : num) (no_of_segments last_ring_index : Z)
           (ring_index : Z) (segment_point : Point2D) : M EggBuild unit :=
  let '(segment_x, segment_z) := segment_point in
  let first_ring_index := 0 in
  if ring_index =? first_ring_index then
    first_vertex <-
      makeNewVertex (mkPoint3D (of_int 0) (of_int 0) (of_int 0)) ;;
    egg_add_ring_vertices no_of_segments segment_x segment_z ;;;
    egg_first_ring_tris no_of_segments first_vertex ;;;
    egg_previous_extend_current
  else
    egg_add_ring_vertices no_of_segments segment_x segment_z ;;;
    egg_ring_pair_tris no_of_segments ;;;
    egg_previous_extend_current ;;;
    if ring_index =? last_ring_index then
      last_vertex <-
        makeNewVertex
          (mkPoint3D (of_int 0) (of_int 0) (mul radius (of_int 2))) ;;
      egg_last_ring_tris no_of_segments last_vertex
    else ret tt.

(** The returned [EggData]: its children, with the pool and the polygons
    they refer to. *)
Record EggData : Type := mkEggData {
  egg_children : list EggChild;
  egg_vertex_pool : list EggVertex;
  egg_polygons : list (list EggVertex)
}.

(** [get_uv_sphere_egg_data(radius, no_of_segments, no_of_rings, vpool_name)];
    [vpool_name] only labels the pool and is left out, and
    [index_of_last_point] is computed but not used by this function. *)
Definition get_uv_sphere_egg_data (radius : num)
           (no_of_segments no_of_rings : Z) : M EggBuild EggData :=
  check_error_conditions radius no_of_segments no_of_rings ;;;
  add_to_egg_data (ChildCoordinateSystem CSZupRight) ;;;
  add_to_egg_data ChildVertexPool ;;;
  (let last_ring_index := no_of_rings - 1 in
   set_current_ring_vertices (fun _ => deque_new no_of_segments) ;;;
   set_previous_ring_vertices (fun _ => deque_new no_of_segments) ;;;
   for_enumerate (segment_points_xz radius no_of_rings) 0
     (egg_ring_body radius no_of_segments last_ring_index) ;;;
   set_previous_ring_vertices
     (fun st => deque_clear (previous_ring_vertices st)) ;;;
   set_current_ring_vertices
     (fun st => deque_clear (current_ring_vertices st)) ;;;
   st <- gets (fun st => st) ;;
   ret (mkEggData (data_children st) (vpool st) (polygons st))).
End Program.

(** ** The traversal as the specification words it

    Two circular windows of vertex identities, [previous] and [current];
    [front] is the first identity of a window, [back] its last one, and one
    rotation step moves the front to the back. *)

Section Traversal.
Context {A : Type} (dflt : A).

Definition front (w : list A) : A := hd dflt w.
Definition back (w : list A) : A := last w dflt.
Definition rotate_step (w : list A) : list A := tl w ++ firstn 1 w.

(** Fan triangles [(pole, current.front, current.back)], the window rotated
    by one step after each. *)
Fixpoint south_fan (pole : A) (current : list A) (steps : nat)
  : list (A * A * A) :=
  match steps with
  | O => []
  | S k => (pole, front current, back current)
           :: south_fan pole (rotate_step current) k
  end.

(** [(previous.back, current.front, current.back)] and
    [(current.front, previous.back, previous.front)] per step, both windows
    rotated in lockstep. *)
Fixpoint ring_bridge (previous current : list A) (steps : nat)
  : list (A * A * A) :=
  match steps with
  | O => []
  | S k => (back previous, front current, back current)
           :: (front current, back previous, front previous)
           :: ring_bridge (rotate_step previous) (rotate_step current) k
  end.

(** Fan triangles [(northPole, previous.back, previous.front)]. *)
Fixpoint north_fan (pole : A) (previous : list A) (steps : nat)
  : list (A * A * A) :=
  match steps with
  | O => []
  | S k => (pole, back previous, front previous)
           :: north_fan pole (rotate_step previous) k
  end.
End Traversal.

(** Index formula of the flat form: ring [r], position [s]. *)
Definition ring_vertex_index (segments r s : Z) : Z := 1 + r * segments + s.
Definition south_pole_index : Z := 0.
Definition north_pole_index (segments rings : Z) : Z := 1 + rings * segments.

Definition ring_window (segments r : Z) : list Z :=
  map (ring_vertex_index segments r) (range 0 segments).

(** The triangle sequence of the specification's traversal. *)
Definition spec_triangles (segments rings : Z) : list Triangle :=
  let n := Z.to_nat segments in
  south_fan 0 south_pole_index (ring_window segments 0) n
  ++ flat_map (fun r => ring_bridge 0 (ring_window segments (r - 1))
                                    (ring_window segments r) n)
              (range 1 rings)
  ++ north_fan 0 (north_pole_index segments rings)
               (ring_window segments (rings - 1)) n.

(** ** Positions *)

Section Positions.
Context {A : Arithmetic}.

(** The value of an expression where it does not raise. *)
Definition value_of (r : result num) : num :=
  match r with
  | Ok x => x
  | Raise _ => of_int 0
  end.

Definition fraction (i d : Z) : num := value_of (int_quotient i d).
Definition cos_of (angle : num) : num := value_of (math_cos angle).
Definition sin_of (angle : num) : num := value_of (math_sin angle).

(** The angle of position [s] on a ring of [segments] positions. *)
Definition longitude (segments s : Z) : num := mul (fraction s segments) tau.

(** The meridian sample with number [i] ([0 <= i <= rings + 1]) as the arc
    sampler computes it for the generators' call. *)
Definition meridian_angle (rings i : Z) : num :=
  arc_wrap (add (mul (fraction i (rings + 1)) (mul half tau))
                (arc_start_angle (of_int 270))).

Definition meridian_point (radius : num) (rings i : Z) : Point2D :=
  (add (mul radius (cos_of (meridian_angle rings i))) (of_int 0),
   add (mul radius (sin_of (meridian_angle rings i))) radius).

(** The points of the circle of [segments] positions, as
    [yield_2d_circle_points] computes them around [(0, 0)]. *)
Definition circle_points (segments : Z) (radius : num) : list Point2D :=
  map (fun s => (add (mul radius (cos_of (longitude segments s))) (of_int 0),
                 add (mul radius (sin_of (longitude segments s))) (of_int 0)))
      (range 0 segments).

(** The 3D points of the ring built from meridian point [(segment_x,
    segment_z)]. *)
Definition ring_points (segments : Z) (segment_point : Point2D)
  : list Point3D :=
  map (fun '(ring_x, ring_y) => mkPoint3D ring_x ring_y (snd segment_point))
      (circle_points segments (fst segment_point)).

(** All positions in the order in which they are created. *)
Definition sphere_points (radius : num) (segments rings : Z) : list Point3D :=
  mkPoint3D (of_int 0) (of_int 0) (of_int 0)
  :: flat_map (fun r => ring_points segments (meridian_point radius rings (r + 1)))
              (range 0 rings)
  ++ [mkPoint3D (of_int 0) (of_int 0) (mul radius (of_int 2))].

(** The rows of the vertex table, in the order in which they are written. *)
Definition sphere_rows (radius : num) (segments rings : Z) : list Point3D :=
  stored (mkPoint3D (of_int 0) (of_int 0) (of_int 0))
  :: flat_map (fun r => map stored
                          (ring_points segments
                                       (meridian_point radius rings (r + 1))))
              (range 0 rings)
  ++ [stored (mkPoint3D (of_int 0) (of_int 0) (mul radius (of_int 2)))].

(** The arguments the generators accept, and those they reject. *)
Definition valid_arguments (radius : num) (segments rings : Z) : Prop :=
  leb radius (of_int 0) = false /\ 3 <= segments /\ 3 <= rings.

Definition invalid_arguments (radius : num) (segments rings : Z) : Prop :=
  leb radius (of_int 0) = true \/ segments < 3 \/ rings < 3.
End Positions.

(** ** What the generators need of the arithmetic

    The angles that the two samplers compute for the generators are numbers
    of which [math.cos] and [math.sin] return a value, and a zero is kept as
    it is by a row of the vertex table. *)
Class Lawful (A : Arithmetic) : Prop := {
  float32_zero : float32 (of_int 0) = of_int 0;
  circle_angle_ok : forall quantity i,
    0 <= i < quantity ->
    exists x c s,
      int_quotient i quantity = Ok x
      /\ math_cos (mul x tau) = Ok c
      /\ math_sin (mul x tau) = Ok s;
  meridian_angle_ok : forall rings i,
    0 <= i <= rings + 1 -> 0 < rings + 1 ->
    exists x c s,
      int_quotient i (rings + 1) = Ok x
      /\ math_cos (arc_wrap (add (mul x (mul half tau))
                                 (arc_start_angle (of_int 270)))) = Ok c
      /\ math_sin (arc_wrap (add (mul x (mul half tau))
                                 (arc_start_angle (of_int 270)))) = Ok s
}.

(** ** Exact arithmetic: real numbers, nothing rounded *)

(** [x % m] for a positive modulus [m]: [x - m * floor(x / m)]. *)
Definition real_mod (x m : R) : R := (x - m * IZR (Int_part (x / m)))%R.

Definition exact : Arithmetic := {|
  num := R;
  of_int := IZR;
  half := 0.5%R;
  tau := (2 * PI)%R;
  mul := Rmult;
  add := Rplus;
  sub := Rminus;
  div := Rdiv;
  py_mod := real_mod;
  int_quotient := fun i d => Ok (IZR i / IZR d)%R;
  gtb := fun x y => if Rgt_dec x y then true else false;
  leb := fun x y => if Rle_dec x y then true else false;
  math_cos := fun x => Ok (cos x);
  math_sin := fun x => Ok (sin x);
  float32 := fun x => x
|}.

(** ** The arithmetic of the code: IEEE 754 double precision

    A Python [float] is a [spec_float], the Standard Library's specification
    of IEEE 754 numbers, with its operations at precision 53 and exponent
    1024; by [FloatAxioms] these are the operations of the kernel's primitive
    floats. *)

Module Binary64Literals.
Import PrimFloat.
(** [math.tau], [0.1], [1e-300], [1e39], [1.0] and positive infinity. *)
Definition tau_64 : spec_float :=
  Eval vm_compute in FloatOps.Prim2SF 0x1.921fb54442d18p+2%float.
Definition one_tenth : spec_float :=
  Eval vm_compute in FloatOps.Prim2SF 0x1.999999999999ap-4%float.
(** The literal [.5]. *)
Definition half_64 : spec_float :=
  Eval vm_compute in FloatOps.Prim2SF 0x1p-1%float.
End Binary64Literals.

Abbreviation prec64 := 53 (only parsing).
Abbreviation emax64 := 1024 (only parsing).

Definition sf_is_nan (x : spec_float) : bool :=
  match x with S754_nan => true | _ => false end.

Definition sf_is_infinity (x : spec_float) : bool :=
  match x with S754_infinity _ => true | _ => false end.

Definition sf_is_finite (x : spec_float) : bool :=
  match x with S754_zero _ | S754_finite _ _ _ => true | _ => false end.


(** [float(z)] where an [int] meets a float: the nearest double. *)
Definition b64_of_int (z : Z) : spec_float :=
  binary_normalize prec64 emax64 z 0 false.

(** [i / d] of two [int]s with [d <> 0]: the nearest double to the
    quotient, [OverflowError] when that is out of range. *)
Definition b64_int_quotient (i d : Z) : result spec_float :=
  match i with
  | 0 => Ok (S754_zero (d <? 0))
  | _ =>
      let '(q, e, l) :=
        SFdiv_core_binary prec64 emax64 (Z.abs i) 0 (Z.abs d) 0 in
      match binary_round_aux prec64 emax64 (xorb (i <? 0) (d <? 0)) q e l with
      | S754_infinity _ => Raise OverflowError
      | r => Ok r
      end
  end.

(** C's [fmod]: the remainder of the division truncated toward zero,
    computed without rounding. *)
Definition b64_fmod (x y : spec_float) : spec_float :=
  match x, y with
  | S754_nan, _ | _, S754_nan => S754_nan
  | S754_infinity _, _ => S754_nan
  | _, S754_zero _ => S754_nan
  | S754_zero _, _ => x
  | S754_finite _ _ _, S754_infinity _ => x
  | S754_finite sx mx ex, S754_finite _ my ey =>
      let e := Z.min ex ey in
      let X := Zpos mx * 2 ^ (ex - e) in
      let Y := Zpos my * 2 ^ (ey - e) in
      binary_normalize prec64 emax64 (cond_Zopp sx (X mod Y)) e sx
  end.

Definition sf_is_negative (x : spec_float) : bool :=
  SFltb x (S754_zero false).

(** [x % y] of two floats with [y <> 0]: [fmod], moved by [y] when its sign
    differs from that of [y]. *)
Definition b64_py_mod (x y : spec_float) : spec_float :=
  let m := b64_fmod x y in
  match m with
  | S754_zero _ => S754_zero (sf_is_negative y)
  | _ =>
      if xorb (sf_is_negative y) (sf_is_negative m)
      then SFadd prec64 emax64 m y
      else m
  end.

(** The nearest single precision number, as a double. *)
Definition b64_float32 (x : spec_float) : spec_float :=
  match x with
  | S754_finite s m e => binary_normalize 24 128 (cond_Zopp s (Zpos m)) e s
  | _ => x
  end.

(** The functions [math.cos] and [math.sin] call: the platform's [cos] and
    [sin], of which only this is used: at a finite number the result is a
    finite number below 2 in magnitude. *)
Definition magnitude_below (k : Z) (x : spec_float) : Prop :=
  match x with
  | S754_zero _ => True
  | S754_finite _ m e => Zpos (digits2_pos m) + e <= k
  | _ => False
  end.

Record Libm : Type := {
  libm_cos : spec_float -> spec_float;
  libm_sin : spec_float -> spec_float;
  libm_cos_bounded : forall x,
    sf_is_finite x = true -> magnitude_below 1 (libm_cos x);
  libm_sin_bounded : forall x,
    sf_is_finite x = true -> magnitude_below 1 (libm_sin x)
}.

(** A function of one argument of the [math] module that cannot overflow:
    [ValueError] when the result is not a number though the argument is one,
    or is infinite though the argument is finite. *)
Definition math_1 (func : spec_float -> spec_float) (x : spec_float)
  : result spec_float :=
  let r := func x in
  if sf_is_nan r && negb (sf_is_nan x) then Raise ValueError
  else if sf_is_infinity r && sf_is_finite x then Raise ValueError
  else Ok r.

Definition binary64 (libm : Libm) : Arithmetic := {|
  num := spec_float;
  of_int := b64_of_int;
  half := Binary64Literals.half_64;
  tau := Binary64Literals.tau_64;
  mul := SFmul prec64 emax64;
  add := SFadd prec64 emax64;
  sub := SFsub prec64 emax64;
  div := SFdiv prec64 emax64;
  py_mod := b64_py_mod;
  int_quotient := b64_int_quotient;
  gtb := fun x y => SFltb y x;
  leb := SFleb;
  math_cos := math_1 (libm_cos libm);
  math_sin := math_1 (libm_sin libm);
  float32 := b64_float32
|}.

(** ** Definitions used by the statements and their proofs *)

Abbreviation EggTriangle := (EggVertex * EggVertex * EggVertex)%type.

Section StatementDefinitions.
Context {A : Arithmetic}.

(** The vertex table with [N] rows of which the first [length W] are
    written. *)
Definition table (N : nat) (W : list Point3D) : list (option Point3D) :=
  map Some W ++ repeat None (N - length W).

(** The store between two rings. *)
Definition geom_between (N : nat) (n : Z) (W : list Point3D)
           (T : list Triangle) (w : list Z) : GeomBuild :=
  mkGeomBuild (table N W) (length W) T
              (mkDeque w (Z.to_nat n)) (mkDeque w (Z.to_nat n)).

(** The store left behind by a successful [get_uv_sphere_geom]. *)
Definition geom_final (radius : num) (n m : Z) : GeomBuild :=
  mkGeomBuild (map Some (sphere_rows radius n m))
              (length (sphere_rows radius n m))
              (spec_triangles n m)
              (mkDeque [] (Z.to_nat n)) (mkDeque [] (Z.to_nat n)).

(** The position of the vertex of ring [r] at position [s]. *)
Definition ring_vertex_position (radius : num) (segments rings r s : Z)
  : Point3D :=
  let '(segment_x, segment_z) := meridian_point radius rings (r + 1) in
  mkPoint3D (add (mul segment_x (cos_of (longitude segments s))) (of_int 0))
            (add (mul segment_x (sin_of (longitude segments s))) (of_int 0))
            segment_z.

(** Row [i] of a vertex table. *)
Definition vertex_at (vertices : list (option Point3D)) (i : Z)
  : option Point3D :=
  if i <? 0 then None else nth (Z.to_nat i) vertices None.

(** The vertex list of a polygon holding the triangle [t]. *)
Definition tri_list (t : EggTriangle) : list EggVertex :=
  let '(a, b, c) := t in [a; b; c].

(** The vertices a pool holding [k] vertices creates for the positions [W]. *)
Fixpoint pool_from (k : nat) (W : list Point3D) : list EggVertex :=
  match W with
  | [] => []
  | p :: W' => mkEggVertex (Z.of_nat k) p :: pool_from (S k) W'
  end.

(** The value [front] and [back] give on an empty window; never reached. *)
Definition egg_dflt : EggVertex :=
  mkEggVertex 0 (mkPoint3D (of_int 0) (of_int 0) (of_int 0)).

(** The store between two rings: the children are the coordinate system, the
    pool and one polygon per triangle emitted so far. *)
Definition egg_between (n : Z) (W : list Point3D) (T : list EggTriangle)
           (w : list EggVertex) : EggBuild :=
  mkEggBuild
    ([ChildCoordinateSystem CSZupRight; ChildVertexPool]
     ++ map ChildPolygon (seq 0 (length T)))
    (pool_from 0 W) (map tri_list T)
    (mkDeque w (Z.to_nat n)) (mkDeque w (Z.to_nat n)).

(** The vertices of ring [r], as the pool creates them. *)
Definition egg_window (mp : Z -> Point2D) (n r : Z) : list EggVertex :=
  pool_from (Z.to_nat (1 + r * n)) (ring_points n (mp (r + 1))).

(** The triangles of the polygon form, as vertex handles. *)
Definition egg_triangles (radius : num) (n m : Z) : list EggTriangle :=
  let mp := meridian_point radius m in
  south_fan egg_dflt
            (mkEggVertex 0 (mkPoint3D (of_int 0) (of_int 0) (of_int 0)))
            (egg_window mp n 0) (Z.to_nat n)
  ++ flat_map (fun r => ring_bridge egg_dflt (egg_window mp n (r - 1))
                                    (egg_window mp n r) (Z.to_nat n))
              (range 1 m)
  ++ north_fan egg_dflt
       (mkEggVertex (1 + m * n)
          (mkPoint3D (of_int 0) (of_int 0) (mul radius (of_int 2))))
       (egg_window mp n (m - 1)) (Z.to_nat n).

(** What a successful [get_uv_sphere_egg_data] returns. *)
Definition egg_result (radius : num) (n m : Z) : EggData :=
  mkEggData
    ([ChildCoordinateSystem CSZupRight; ChildVertexPool]
     ++ map ChildPolygon (seq 0 (length (egg_triangles radius n m))))
    (pool_from 0 (sphere_points radius n m))
    (map tri_list (egg_triangles radius n m)).

(** The store left behind by a successful [get_uv_sphere_egg_data]. *)
Definition egg_final (radius : num) (n m : Z) : EggBuild :=
  mkEggBuild (egg_children (egg_result radius n m))
             (egg_vertex_pool (egg_result radius n m))
             (egg_polygons (egg_result radius n m))
             (mkDeque [] (Z.to_nat n)) (mkDeque [] (Z.to_nat n)).

(** The position of vertex number [i] of a pool. *)
Definition pool_position (pool : list EggVertex) (i : Z) : option Point3D :=
  if i <? 0 then None else option_map ev_pos (nth_error pool (Z.to_nat i)).


End StatementDefinitions.

(** The position before [j] on a ring of [len] positions, on [nat]. *)
Definition pred_mod (len j : nat) : nat :=
  match j with
  | O => (len - 1)%nat
  | S j' => j'
  end.

(** The mesh as a combinatorial object: vertices by their role, triangles
    by their place in the traversal.  The flat indices are the image of this
    description under [encode]. *)
Inductive MeshVertex : Type :=
| SouthPole
| NorthPole
| RingVertex (r s : Z).

(** The flat index of a vertex. *)
Definition encode (segments rings : Z) (v : MeshVertex) : Z :=
  match v with
  | SouthPole => south_pole_index
  | NorthPole => north_pole_index segments rings
  | RingVertex r s => ring_vertex_index segments r s
  end.

(** The position before [k] on a ring of [segments] positions. *)
Definition wrap_pred (segments k : Z) : Z :=
  if k =? 0 then segments - 1 else k - 1.

(** The position after [k]. *)
Definition wrap_succ (segments k : Z) : Z :=
  if k =? segments - 1 then 0 else k + 1.

(** The place of a triangle in the traversal: step [k] of the south fan,
    the first ([TUp]) or second ([TDown]) triangle of step [k] between rings
    [r - 1] and [r], or step [k] of the north fan. *)
Inductive TriTag : Type :=
| TSouth (k : Z)
| TUp (r k : Z)
| TDown (r k : Z)
| TNorth (k : Z).

Abbreviation MeshTriangle := (MeshVertex * MeshVertex * MeshVertex)%type.

(** The vertices of the triangle at a place, in emitted order. *)
Definition tri_of_tag (segments rings : Z) (t : TriTag) : MeshTriangle :=
  match t with
  | TSouth k =>
      (SouthPole, RingVertex 0 k, RingVertex 0 (wrap_pred segments k))
  | TUp r k =>
      (RingVertex (r - 1) (wrap_pred segments k), RingVertex r k,
       RingVertex r (wrap_pred segments k))
  | TDown r k =>
      (RingVertex r k, RingVertex (r - 1) (wrap_pred segments k),
       RingVertex (r - 1) k)
  | TNorth k =>
      (NorthPole, RingVertex (rings - 1) (wrap_pred segments k),
       RingVertex (rings - 1) k)
  end.

(** [f] applied to the three vertices of a triangle. *)
Definition map3 {A B} (f : A -> B) (t : A * A * A) : B * B * B :=
  let '(a, b, c) := t in (f a, f b, f c).

(** The places in the order of the traversal. *)
Definition mesh_tags (segments rings : Z) : list TriTag :=
  map TSouth (range 0 segments)
  ++ flat_map (fun r => flat_map (fun k => [TUp r k; TDown r k])
                                 (range 0 segments))
              (range 1 rings)
  ++ map TNorth (range 0 segments).

Definition mesh_triangles (segments rings : Z) : list MeshTriangle :=
  map (tri_of_tag segments rings) (mesh_tags segments rings).

Section Edges.
Context {A : Type} (eqb : A -> A -> bool).

(** [{a, b}] and [{x, y}] are the same unordered pair. *)
Definition same_edge (a b x y : A) : bool :=
  (eqb a x && eqb b y) || (eqb a y && eqb b x).

(** The three edges of a triangle join its consecutive vertices. *)
Definition triangle_edges (t : A * A * A) : list (A * A) :=
  let '(x, y, z) := t in [(x, y); (y, z); (z, x)].

Definition has_edge (a b : A) (t : A * A * A) : bool :=
  let '(x, y, z) := t in
  same_edge a b x y || same_edge a b y z || same_edge a b z x.

(** The number of triangles of [ts] that have the edge [{a, b}]. *)
Definition edge_count (a b : A) (ts : list (A * A * A)) : nat :=
  length (filter (has_edge a b) ts).
End Edges.

(** Decidable equality of vertices. *)
Definition vertex_eqb (a b : MeshVertex) : bool :=
  match a, b with
  | SouthPole, SouthPole => true
  | NorthPole, NorthPole => true
  | RingVertex r s, RingVertex r' s' => (r =? r') && (s =? s')
  | _, _ => false
  end.

(** The places that occur for [segments] and [rings]. *)
Definition wf_tag (segments rings : Z) (t : TriTag) : Prop :=
  match t with
  | TSouth k => 0 <= k < segments
  | TUp r k => 1 <= r < rings /\ 0 <= k < segments
  | TDown r k => 1 <= r < rings /\ 0 <= k < segments
  | TNorth k => 0 <= k < segments
  end.

(** The number of triangles of the mesh around the edge [{a, b}]. *)
Definition mesh_edge_count (n m : Z) (a b : MeshVertex) : nat :=
  length (filter (fun t => has_edge vertex_eqb a b (tri_of_tag n m t))
                 (mesh_tags n m)).

(** The vertices that occur for [n] segments and [m] rings. *)
Definition wf_vertex (n m : Z) (v : MeshVertex) : Prop :=
  match v with
  | RingVertex r s => 0 <= r < m /\ 0 <= s < n
  | _ => True
  end.

Definition wf_triangle (n m : Z) (t : MeshTriangle) : Prop :=
  let '(x, y, z) := t in
  wf_vertex n m x /\ wf_vertex n m y /\ wf_vertex n m z.

(** The vertices of a triangle. *)
Definition triangle_vertices {A} (t : A * A * A) : list A :=
  let '(a, b, c) := t in [a; b; c].

(** The triangle [t] runs from [a] to [b] along one of its sides, in the
    order in which its vertices were emitted. *)
Definition has_directed_edge {A} (eqb : A -> A -> bool) (a b : A)
           (t : A * A * A) : bool :=
  let '(x, y, z) := t in
  (eqb a x && eqb b y) || (eqb a y && eqb b z) || (eqb a z && eqb b x).

(** The number of triangles of [ts] that run from [a] to [b]. *)
Definition directed_edge_count {A} (eqb : A -> A -> bool) (a b : A)
           (ts : list (A * A * A)) : nat :=
  length (filter (has_directed_edge eqb a b) ts).

(** [a] is a corner of the triangle [t]. *)
Definition has_vertex {A} (eqb : A -> A -> bool) (a : A) (t : A * A * A)
  : bool :=
  let '(x, y, z) := t in eqb a x || eqb a y || eqb a z.

(** The number of triangles of [ts] that have the corner [a]. *)
Definition triangles_at {A} (eqb : A -> A -> bool) (a : A)
           (ts : list (A * A * A)) : nat :=
  length (filter (has_vertex eqb a) ts).

Section GeometryDefinitions.
Context {A : Arithmetic}.

(** Where the vertex with a given role is created. *)
Definition mesh_position (radius : num) (n m : Z) (v : MeshVertex) : Point3D :=
  match v with
  | SouthPole => mkPoint3D (of_int 0) (of_int 0) (of_int 0)
  | NorthPole => mkPoint3D (of_int 0) (of_int 0) (mul radius (of_int 2))
  | RingVertex r s => ring_vertex_position radius n m r s
  end.









End GeometryDefinitions.

(** *** In exact arithmetic *)




(** ** Basic facts: ranges, rotation, deques *)

Lemma range_length lo hi : length (range lo hi) = Z.to_nat (hi - lo).
Proof. unfold range. now rewrite length_map, length_seq. Qed.

Lemma In_range lo hi x : In x (range lo hi) <-> lo <= x < hi.
Proof.
  unfold range. rewrite in_map_iff. split.
  - intros (k & <- & Hk). apply in_seq in Hk. lia.
  - intros H. exists (Z.to_nat (x - lo)). split; [lia|].
    apply in_seq. lia.
Qed.

Lemma range_NoDup lo hi : NoDup (range lo hi).
Proof.
  unfold range. apply Injective_map_NoDup.
  - intros a b H. lia.
  - apply seq_NoDup.
Qed.

Lemma range_nil lo hi : hi <= lo -> range lo hi = [].
Proof. intros H. unfold range. replace (Z.to_nat (hi - lo)) with O by lia. reflexivity. Qed.

Lemma range_cons lo hi : lo < hi -> range lo hi = lo :: range (lo + 1) hi.
Proof.
  intros H. unfold range.
  replace (Z.to_nat (hi - lo)) with (S (Z.to_nat (hi - (lo + 1)))) by lia.
  rewrite <- cons_seq, <- seq_shift, map_cons, map_map. f_equal.
  - simpl. lia.
  - apply map_ext. intros k. lia.
Qed.

Lemma range_snoc lo hi : lo <= hi -> range lo (hi + 1) = range lo hi ++ [hi].
Proof.
  intros H. unfold range.
  replace (Z.to_nat (hi + 1 - lo)) with (Z.to_nat (hi - lo) + 1)%nat by lia.
  rewrite seq_app, map_app. simpl. do 2 f_equal. lia.
Qed.

Lemma nth_range lo hi k d :
  (k < Z.to_nat (hi - lo))%nat -> nth k (range lo hi) d = lo + Z.of_nat k.
Proof.
  intros H. unfold range.
  rewrite nth_indep with (d' := lo + Z.of_nat O)
    by now rewrite length_map, length_seq.
  rewrite (map_nth (fun k => lo + Z.of_nat k) _ O k).
  rewrite seq_nth by assumption. reflexivity.
Qed.

Lemma rotate_step_eq {A} (w : list A) : rotate_step w = rotate_left w.
Proof. destruct w; reflexivity. Qed.

Lemma rotate_left_length {A} (l : list A) : length (rotate_left l) = length l.
Proof. destruct l; simpl; [reflexivity|]. rewrite length_app. simpl. lia. Qed.

Lemma rotate_left_map {A B} (f : A -> B) (l : list A) :
  rotate_left (map f l) = map f (rotate_left l).
Proof. destruct l; simpl; [reflexivity|]. now rewrite map_app. Qed.

Lemma iter_rotate_length {A} k (l : list A) :
  length (Nat.iter k rotate_left l) = length l.
Proof. induction k; simpl; [reflexivity|]. now rewrite rotate_left_length. Qed.

Lemma skipn_cons_next {A} k (l : list A) x t :
  skipn k l = x :: t ->
  skipn (S k) l = t /\ firstn (S k) l = firstn k l ++ [x].
Proof.
  revert l. induction k as [|k IH]; intros l E.
  - simpl in E. subst l. split; reflexivity.
  - destruct l as [|y l']; [discriminate|].
    change (skipn (S k) (y :: l')) with (skipn k l') in E.
    destruct (IH _ E) as [E1 E2]. split.
    + exact E1.
    + change (firstn (S (S k)) (y :: l')) with (y :: firstn (S k) l').
      rewrite E2. reflexivity.
Qed.

Lemma iter_rotate_split {A} k (l : list A) :
  (k <= length l)%nat -> Nat.iter k rotate_left l = skipn k l ++ firstn k l.
Proof.
  induction k as [|k IH]; intros Hk.
  - simpl. now rewrite app_nil_r.
  - change (Nat.iter (S k) rotate_left l)
      with (rotate_left (Nat.iter k rotate_left l)).
    rewrite IH by lia.
    destruct (skipn k l) as [|x t] eqn:E.
    + exfalso. apply (f_equal (@length A)) in E.
      rewrite length_skipn in E. simpl in E. lia.
    + destruct (skipn_cons_next _ _ _ _ E) as [E1 E2].
      rewrite E1, E2. simpl. now rewrite <- app_assoc.
Qed.

Lemma iter_rotate_full {A} (l : list A) :
  Nat.iter (length l) rotate_left l = l.
Proof.
  rewrite iter_rotate_split by lia.
  now rewrite skipn_all, firstn_all.
Qed.

Lemma deque_first_ok {A} (dflt : A) (l : list A) m :
  l <> [] -> deque_first (mkDeque l m) = Ok (front dflt l).
Proof. destruct l; [congruence|reflexivity]. Qed.

Lemma deque_last_ok {A} (dflt : A) (l : list A) m :
  l <> [] -> deque_last (mkDeque l m) = Ok (back dflt l).
Proof.
  intros H. unfold deque_last, back. simpl.
  destruct (exists_last H) as (l' & x & ->).
  rewrite rev_app_distr, last_last. reflexivity.
Qed.

Lemma deque_extend_items {A} (xs : list A) : forall d,
  (length (dq_items d) <= dq_maxlen d)%nat -> (0 < dq_maxlen d)%nat ->
  deque_extend d xs =
  mkDeque (skipn (length (dq_items d) + length xs - dq_maxlen d)
                 (dq_items d ++ xs))
          (dq_maxlen d).
Proof.
  induction xs as [|x xs IH]; intros [items m] Hle Hm; simpl in *.
  - replace (length items + 0 - m)%nat with O by lia.
    now rewrite app_nil_r.
  - unfold deque_append at 1. simpl.
    destruct m as [|m']; [lia|].
    destruct (Nat.ltb_spec (length items) (S m')).
    + rewrite IH; simpl; [|rewrite length_app; simpl; lia|lia].
      rewrite length_app, <- app_assoc. simpl.
      do 2 f_equal. lia.
    + destruct items as [|y t]; [simpl in *; lia|]. simpl in *.
      assert (Ht : length t = m') by lia.
      rewrite IH; simpl; [|rewrite length_app; simpl; lia|lia].
      rewrite length_app, <- app_assoc. simpl. f_equal.
      replace (length t + 1 + length xs - S m')%nat with (length xs) by lia.
      replace (length t + S (length xs) - m')%nat with (S (length xs)) by lia.
      reflexivity.
Qed.

Lemma deque_extend_full {A} (xs : list A) d :
  (length (dq_items d) <= dq_maxlen d)%nat -> (0 < dq_maxlen d)%nat ->
  length xs = dq_maxlen d ->
  deque_extend d xs = mkDeque xs (dq_maxlen d).
Proof.
  intros Hle Hm Hx. rewrite deque_extend_items by assumption.
  f_equal. replace (length (dq_items d) + length xs - dq_maxlen d)%nat
    with (length (dq_items d)) by lia.
  rewrite skipn_app, skipn_all, Nat.sub_diag. reflexivity.
Qed.


(** ** The loops of [get_uv_sphere_geom] in closed form *)

Lemma rotate_left_nonnil {A} (l : list A) : l <> [] -> rotate_left l <> [].
Proof.
  intros H E. apply (f_equal (@length A)) in E.
  rewrite rotate_left_length in E. destruct l; [congruence|discriminate].
Qed.

Lemma for_each_ext {S A} (f g : A -> M S unit) (l : list A) :
  (forall x, f x = g x) -> for_each l f = for_each l g.
Proof.
  intros H. induction l as [|x l IH]; simpl; [reflexivity|].
  now rewrite H, IH.
Qed.

Lemma for_in_map_Ok {S A} (l : list A) (body : A -> M S unit) :
  for_in (map Ok l) body = for_each l body.
Proof.
  induction l as [|x l IH]; simpl; [reflexivity|]. now rewrite IH.
Qed.

Lemma range_shift lo n :
  range lo (lo + n) = map (fun s => lo + s) (range 0 n).
Proof.
  unfold range. rewrite map_map.
  replace (lo + n - lo) with n by lia. replace (n - 0) with n by lia.
  apply map_ext. intros k. lia.
Qed.

Lemma ring_window_range n r :
  ring_window n r = range (r * n + 1) (r * n + 1 + n).
Proof.
  unfold ring_window. rewrite range_shift. apply map_ext.
  intros s. unfold ring_vertex_index. lia.
Qed.

Lemma ring_window_length n r : length (ring_window n r) = Z.to_nat n.
Proof. unfold ring_window. rewrite length_map, range_length. f_equal. lia. Qed.

Lemma ring_window_nonnil n r : 0 < n -> ring_window n r <> [].
Proof.
  intros H E. apply (f_equal (@length Z)) in E.
  rewrite ring_window_length in E. simpl in E. lia.
Qed.

Lemma iter_rotate_window n r :
  Nat.iter (Z.to_nat n) rotate_left (ring_window n r) = ring_window n r.
Proof.
  pose proof (iter_rotate_full (ring_window n r)) as H.
  now rewrite ring_window_length in H.
Qed.

Section GeomLoops.
Context {A : Arithmetic} {L : Lawful A}.

Lemma first_ring_step_run V row T c m p :
  c <> [] ->
  (i1 <- current_first ;;
   i2 <- current_last ;;
   add_tri_points_indices 0 i1 i2 ;;;
   current_rotate)
    (mkGeomBuild V row T (mkDeque c m) p)
  = (Ok tt,
     mkGeomBuild V row (T ++ [(0, front 0 c, back 0 c)])
                 (mkDeque (rotate_left c) m) p).
Proof.
  intros Hc. unfold bind, current_first, current_last. cbn [current_ring_indices].
  rewrite (deque_first_ok 0), (deque_last_ok 0) by assumption. reflexivity.
Qed.

Lemma first_ring_tris_run k : forall V row T c m p,
  c <> [] ->
  for_range k
    (i1 <- current_first ;;
     i2 <- current_last ;;
     add_tri_points_indices 0 i1 i2 ;;;
     current_rotate)
    (mkGeomBuild V row T (mkDeque c m) p)
  = (Ok tt,
     mkGeomBuild V row (T ++ south_fan 0 0 c k)
                 (mkDeque (Nat.iter k rotate_left c) m) p).
Proof.
  induction k as [|k IH]; intros V row T c m p Hc.
  - simpl. unfold ret. now rewrite app_nil_r.
  - cbn [for_range]. unfold bind at 1.
    rewrite first_ring_step_run by assumption.
    rewrite IH by now apply rotate_left_nonnil.
    rewrite Nat.iter_succ_r, <- app_assoc. cbn [south_fan app].
    now rewrite rotate_step_eq.
Qed.

Lemma ring_pair_step_run V row T c p m m' :
  c <> [] -> p <> [] ->
  (index_a0 <- previous_last ;;
   index_a1 <- previous_first ;;
   index_b0 <- current_last ;;
   index_b1 <- current_first ;;
   add_tri_points_indices index_a0 index_b1 index_b0 ;;;
   add_tri_points_indices index_b1 index_a0 index_a1 ;;;
   previous_rotate ;;;
   current_rotate)
    (mkGeomBuild V row T (mkDeque c m) (mkDeque p m'))
  = (Ok tt,
     mkGeomBuild V row
       (T ++ [(back 0 p, front 0 c, back 0 c); (front 0 c, back 0 p, front 0 p)])
       (mkDeque (rotate_left c) m) (mkDeque (rotate_left p) m')).
Proof.
  intros Hc Hp.
  unfold bind, current_first, current_last, previous_first, previous_last.
  cbn [current_ring_indices previous_ring_indices].
  rewrite !(deque_first_ok 0), !(deque_last_ok 0) by assumption.
  cbn. now rewrite <- app_assoc.
Qed.

Lemma ring_pair_tris_run k : forall V row T c p m m',
  c <> [] -> p <> [] ->
  for_range k
    (index_a0 <- previous_last ;;
     index_a1 <- previous_first ;;
     index_b0 <- current_last ;;
     index_b1 <- current_first ;;
     add_tri_points_indices index_a0 index_b1 index_b0 ;;;
     add_tri_points_indices index_b1 index_a0 index_a1 ;;;
     previous_rotate ;;;
     current_rotate)
    (mkGeomBuild V row T (mkDeque c m) (mkDeque p m'))
  = (Ok tt,
     mkGeomBuild V row (T ++ ring_bridge 0 p c k)
                 (mkDeque (Nat.iter k rotate_left c) m)
                 (mkDeque (Nat.iter k rotate_left p) m')).
Proof.
  induction k as [|k IH]; intros V row T c p m m' Hc Hp.
  - simpl. unfold ret. now rewrite app_nil_r.
  - cbn [for_range]. unfold bind at 1.
    rewrite ring_pair_step_run by assumption.
    rewrite IH by now apply rotate_left_nonnil.
    rewrite !Nat.iter_succ_r, <- app_assoc. cbn [ring_bridge app].
    now rewrite !rotate_step_eq.
Qed.

Lemma last_ring_step_run V row T c p m' last :
  p <> [] ->
  (i1 <- previous_last ;;
   i2 <- previous_first ;;
   add_tri_points_indices last i1 i2 ;;;
   previous_rotate)
    (mkGeomBuild V row T c (mkDeque p m'))
  = (Ok tt,
     mkGeomBuild V row (T ++ [(last, back 0 p, front 0 p)]) c
                 (mkDeque (rotate_left p) m')).
Proof.
  intros Hp. unfold bind, previous_first, previous_last.
  cbn [previous_ring_indices].
  rewrite (deque_first_ok 0), (deque_last_ok 0) by assumption. reflexivity.
Qed.

Lemma last_ring_tris_run k : forall V row T c p m' last,
  p <> [] ->
  for_range k
    (i1 <- previous_last ;;
     i2 <- previous_first ;;
     add_tri_points_indices last i1 i2 ;;;
     previous_rotate)
    (mkGeomBuild V row T c (mkDeque p m'))
  = (Ok tt,
     mkGeomBuild V row (T ++ north_fan 0 last p k) c
                 (mkDeque (Nat.iter k rotate_left p) m')).
Proof.
  induction k as [|k IH]; intros V row T c p m' last Hp.
  - simpl. unfold ret. now rewrite app_nil_r.
  - cbn [for_range]. unfold bind at 1.
    rewrite last_ring_step_run by assumption.
    rewrite IH by now apply rotate_left_nonnil.
    rewrite Nat.iter_succ_r, <- app_assoc. cbn [north_fan app].
    now rewrite rotate_step_eq.
Qed.

Lemma write_row_table N W p :
  write_row (table N W) (length W) (Some p) = table N (W ++ [p]).
Proof.
  unfold table. rewrite length_app. simpl length.
  replace (N - (length W + 1))%nat with (N - length W - 1)%nat by lia.
  generalize (N - length W)%nat as k. intros k.
  induction W as [|w W IH]; simpl.
  - destruct k; simpl; [reflexivity|]. now rewrite Nat.sub_0_r.
  - now rewrite IH.
Qed.

Lemma table_full N W : length W = N -> table N W = map Some W.
Proof.
  intros H. unfold table. rewrite H, Nat.sub_diag. simpl. apply app_nil_r.
Qed.

Lemma add_point_run N W T c q p :
  add_point p (mkGeomBuild (table N W) (length W) T c q)
  = (Ok tt,
     mkGeomBuild (table N (W ++ [stored p])) (length (W ++ [stored p])) T c q).
Proof.
  unfold add_point, modify. cbn [vdata writer_row triangle_primitives_holder
    current_ring_indices previous_ring_indices].
  rewrite write_row_table, length_app. simpl length.
  now rewrite Nat.add_1_r.
Qed.

Lemma add_points_run N T c q (f : Point2D -> Point3D) pts : forall W,
  for_each pts (fun xy => add_point (f xy))
           (mkGeomBuild (table N W) (length W) T c q)
  = (Ok tt,
     mkGeomBuild (table N (W ++ map (fun xy => stored (f xy)) pts))
                 (length (W ++ map (fun xy => stored (f xy)) pts)) T c q).
Proof.
  induction pts as [|xy pts IH]; intros W.
  - simpl. unfold ret. now rewrite app_nil_r.
  - cbn [for_each]. unfold bind at 1. rewrite add_point_run, IH.
    cbn [map]. now rewrite <- app_assoc.
Qed.

(** On the circle of a ring neither the division nor [math.cos] and
    [math.sin] raise: the generator yields the points [circle_points]. *)
Lemma circle_samples_ok n x :
  yield_2d_circle_points n x (of_int 0, of_int 0) = map Ok (circle_points n x).
Proof.
  unfold yield_2d_circle_points, circle_points. rewrite map_map.
  apply map_ext_in. intros i Hi. apply In_range in Hi.
  unfold py_truediv. destruct (Z.eqb_spec n 0) as [|_]; [lia|].
  destruct (circle_angle_ok n i Hi) as (q & c & s & Hq & Hc & Hs).
  unfold point_at, longitude, fraction, cos_of, sin_of.
  rewrite Hq. cbn [and_then value_of]. rewrite Hc, Hs. reflexivity.
Qed.

Lemma add_ring_points_run N T c q n x z W :
  add_ring_points n x z (mkGeomBuild (table N W) (length W) T c q)
  = (Ok tt,
     mkGeomBuild (table N (W ++ map stored (ring_points n (x, z))))
                 (length (W ++ map stored (ring_points n (x, z)))) T c q).
Proof.
  unfold add_ring_points, ring_points. cbn [fst snd].
  rewrite circle_samples_ok, for_in_map_Ok, map_map.
  rewrite (for_each_ext _ (fun xy : Point2D =>
             add_point (let '(ring_x, ring_y) := xy in
                        mkPoint3D ring_x ring_y z)))
    by (intros [ring_x ring_y]; reflexivity).
  rewrite (add_points_run N T c q
             (fun xy : Point2D => let '(ring_x, ring_y) := xy in
                                  mkPoint3D ring_x ring_y z)).
  reflexivity.
Qed.

Lemma geom_first_ring_run N radius n last lastpt x z :
  0 < n ->
  geom_ring_body radius n last lastpt 0 (x, z)
    (mkGeomBuild (table N []) O [] (deque_new n) (deque_new n))
  = (Ok tt,
     geom_between N n
       (stored (mkPoint3D (of_int 0) (of_int 0) (of_int 0)) :: map stored (ring_points n (x, z)))
       (south_fan 0 0 (ring_window n 0) (Z.to_nat n))
       (ring_window n 0)).
Proof.
  intros Hn. unfold geom_ring_body. cbn [Z.eqb].
  unfold bind at 1.
  rewrite (add_point_run N [] [] _ _ (mkPoint3D (of_int 0) (of_int 0) (of_int 0))).
  unfold bind at 1. rewrite add_ring_points_run.
  unfold bind at 1. unfold current_extend, set_current_ring_indices, modify.
  cbn [vdata writer_row triangle_primitives_holder
       current_ring_indices previous_ring_indices].
  replace (range 1 (n + 1)) with (ring_window n 0)
    by (rewrite ring_window_range; f_equal; lia).
  unfold deque_new at 1.
  rewrite deque_extend_full;
    [|simpl; lia|simpl; lia|simpl; apply ring_window_length].
  cbn [dq_maxlen].
  unfold bind at 1. unfold first_ring_tris.
  rewrite first_ring_tris_run by now apply ring_window_nonnil.
  unfold previous_extend_current, set_previous_ring_indices, modify.
  cbn [vdata writer_row triangle_primitives_holder
       current_ring_indices previous_ring_indices dq_items].
  rewrite iter_rotate_window.
  unfold deque_new.
  rewrite deque_extend_full;
    [|simpl; lia|simpl; lia|simpl; apply ring_window_length].
  reflexivity.
Qed.

Lemma geom_later_ring_run N radius n last lastpt i x z W T :
  0 < n -> i <> 0 ->
  geom_ring_body radius n last lastpt i (x, z)
    (geom_between N n W T (ring_window n (i - 1)))
  = (Ok tt,
     if i =? last then
       geom_between N n
         (W ++ map stored (ring_points n (x, z))
            ++ [stored (mkPoint3D (of_int 0) (of_int 0) (mul radius (of_int 2)))])
         (T ++ ring_bridge 0 (ring_window n (i - 1)) (ring_window n i)
                           (Z.to_nat n)
            ++ north_fan 0 lastpt (ring_window n i) (Z.to_nat n))
         (ring_window n i)
     else
       geom_between N n (W ++ map stored (ring_points n (x, z)))
         (T ++ ring_bridge 0 (ring_window n (i - 1)) (ring_window n i)
                           (Z.to_nat n))
         (ring_window n i)).
Proof.
  intros Hn Hi. unfold geom_ring_body, geom_between.
  destruct (Z.eqb_spec i 0) as [|_]; [contradiction|].
  unfold bind at 1. rewrite add_ring_points_run.
  unfold bind at 1. unfold current_extend, set_current_ring_indices, modify.
  cbn [vdata writer_row triangle_primitives_holder
       current_ring_indices previous_ring_indices].
  rewrite <- ring_window_range.
  rewrite deque_extend_full;
    [|simpl; rewrite ring_window_length; lia|simpl; lia
     |simpl; apply ring_window_length].
  cbn [dq_maxlen].
  unfold bind at 1. unfold ring_pair_tris.
  rewrite ring_pair_tris_run by now apply ring_window_nonnil.
  rewrite !iter_rotate_window.
  unfold bind at 1.
  unfold previous_extend_current, set_previous_ring_indices, modify.
  cbn [vdata writer_row triangle_primitives_holder
       current_ring_indices previous_ring_indices dq_items].
  rewrite deque_extend_full;
    [|simpl; rewrite ring_window_length; lia|simpl; lia
     |simpl; apply ring_window_length].
  cbn [dq_maxlen].
  destruct (i =? last).
  - unfold bind at 1. rewrite add_point_run.
    unfold last_ring_tris.
    rewrite last_ring_tris_run by now apply ring_window_nonnil.
    rewrite iter_rotate_window, <- !app_assoc. reflexivity.
  - reflexivity.
Qed.

(** The rings [i .. rings-1] of a run, [1 <= i], from the store reached after
    ring [i-1]. *)
Lemma geom_later_rings_run N radius n m (mp : Z -> Point2D) k :
  forall i W T,
  0 < n -> 1 <= i -> i + Z.of_nat (S k) = m ->
  for_enumerate (map (fun j => Ok (mp j)) (range (i + 1) (m + 1))) i
    (geom_ring_body radius n (m - 1) (2 + n * m - 1))
    (geom_between N n W T (ring_window n (i - 1)))
  = (Ok tt,
     geom_between N n
       (W ++ flat_map (fun r => map stored (ring_points n (mp (r + 1))))
                      (range i m)
          ++ [stored (mkPoint3D (of_int 0) (of_int 0) (mul radius (of_int 2)))])
       (T ++ flat_map (fun r => ring_bridge 0 (ring_window n (r - 1))
                                            (ring_window n r) (Z.to_nat n))
                      (range i m)
          ++ north_fan 0 (2 + n * m - 1) (ring_window n (m - 1)) (Z.to_nat n))
       (ring_window n (m - 1))).
Proof.
  induction k as [|k IH]; intros i W T Hn Hi Hm.
  - assert (i = m - 1) by lia. subst i.
    replace (m - 1 + 1) with m by lia.
    rewrite (range_cons m) by lia. rewrite (range_nil (m + 1)) by lia.
    rewrite (range_cons (m - 1)) by lia.
    replace (m - 1 + 1) with m by lia. rewrite (range_nil m) by lia.
    cbn [map for_enumerate flat_map]. unfold bind at 1.
    replace (m - 1 + 1) with m by lia.
    destruct (mp m) as [x z] eqn:E.
    rewrite geom_later_ring_run by lia.
    rewrite Z.eqb_refl. unfold ret. rewrite !app_nil_r. reflexivity.
  - rewrite (range_cons (i + 1)) by lia.
    rewrite (range_cons i m) by lia.
    cbn [map for_enumerate flat_map]. unfold bind at 1.
    destruct (mp (i + 1)) as [x z] eqn:E.
    rewrite geom_later_ring_run by lia.
    destruct (Z.eqb_spec i (m - 1)) as [|_]; [lia|].
    replace (ring_window n i) with (ring_window n (i + 1 - 1))
      by (f_equal; lia).
    rewrite IH by lia.
    rewrite <- !app_assoc. replace (i + 1 - 1) with i by lia. reflexivity.
Qed.

End GeomLoops.

(** ** The meridian in closed form *)

Lemma flat_map_length_const {A B} (f : A -> list B) (c : nat) (l : list A) :
  (forall x, length (f x) = c) -> length (flat_map f l) = (length l * c)%nat.
Proof.
  intros H. induction l as [|x l IH]; simpl; [reflexivity|].
  rewrite length_app, H, IH. reflexivity.
Qed.

Section Meridian.
Context {A : Arithmetic} {L : Lawful A}.

(** Along the meridian neither the division nor [math.cos] and [math.sin]
    raise. *)
Lemma arc_samples_ok radius m :
  0 <= m ->
  yield_2d_circle_points_plus (m + 2) radius (of_int 270) true half
                              (of_int 0, radius)
  = map (fun j => Ok (meridian_point radius m j)) (range 0 (m + 2)).
Proof.
  intros Hm. unfold yield_2d_circle_points_plus. apply map_ext_in.
  intros j Hj. apply In_range in Hj.
  unfold arc_angle, arc_raw_angle, arc_divisor, py_truediv.
  destruct (Z.eqb_spec (m + 2 - 1) 0) as [|_]; [lia|].
  replace (m + 2 - 1) with (m + 1) by lia.
  destruct (meridian_angle_ok m j) as (q & c & s & Hq & Hc & Hs); [lia|lia|].
  unfold meridian_point, meridian_angle, fraction, cos_of, sin_of, point_at.
  rewrite Hq. cbn [and_then value_of]. rewrite Hc, Hs. reflexivity.
Qed.

Lemma segment_points_xz_ok radius m :
  0 <= m ->
  segment_points_xz radius m
  = map (fun j => Ok (meridian_point radius m j)) (range 1 (m + 1)).
Proof.
  intros Hm. unfold segment_points_xz, islice.
  rewrite arc_samples_ok by assumption.
  rewrite (range_cons 0) by lia.
  replace (Z.to_nat 1) with 1%nat by reflexivity.
  cbn [map islice_skip]. replace (0 + 1) with 1 by lia.
  replace (m + 2) with (m + 1 + 1) by lia.
  rewrite range_snoc by lia. rewrite map_app.
  replace (Z.to_nat (m + 1 + 1 - 1 - 1))
    with (length (map (fun j => Ok (meridian_point radius m j))
                      (range 1 (m + 1)))).
  - rewrite firstn_app, Nat.sub_diag, firstn_all. cbn [firstn].
    apply app_nil_r.
  - rewrite length_map, range_length. lia.
Qed.

Lemma ring_points_length n p : length (ring_points n p) = Z.to_nat n.
Proof.
  unfold ring_points, circle_points.
  rewrite !length_map, range_length. f_equal. lia.
Qed.

Lemma sphere_points_length radius n m :
  0 <= n -> 0 <= m ->
  length (sphere_points radius n m) = Z.to_nat (2 + n * m).
Proof.
  intros Hn Hm. unfold sphere_points. cbn [length].
  rewrite length_app.
  rewrite (flat_map_length_const _ (Z.to_nat n))
    by (intros; apply ring_points_length).
  rewrite range_length. simpl length. nia.
Qed.

Lemma sphere_rows_eq radius n m :
  sphere_rows radius n m = map stored (sphere_points radius n m).
Proof.
  unfold sphere_rows, sphere_points. cbn [map]. f_equal.
  rewrite map_app. cbn [map]. f_equal.
  induction (range 0 m) as [|r l IH]; [reflexivity|].
  cbn [flat_map]. now rewrite map_app, IH.
Qed.

Lemma sphere_rows_length radius n m :
  0 <= n -> 0 <= m ->
  length (sphere_rows radius n m) = Z.to_nat (2 + n * m).
Proof.
  intros Hn Hm. rewrite sphere_rows_eq, length_map.
  now apply sphere_points_length.
Qed.

Lemma check_error_conditions_valid {S} radius n m (s : S) :
  valid_arguments radius n m ->
  check_error_conditions radius n m s = (Ok tt, s).
Proof.
  intros (Hr & Hn & Hm). unfold check_error_conditions. rewrite Hr.
  destruct (Z.ltb_spec n 3); [lia|].
  destruct (Z.ltb_spec m 3); [lia|]. reflexivity.
Qed.

(** On valid arguments the generator returns, and what it returns is the
    written vertex table and the specification's triangle sequence. *)
Lemma get_uv_sphere_geom_run radius n m :
  valid_arguments radius n m ->
  get_uv_sphere_geom radius n m geom_nothing
  = (Ok (mkGeom (map Some (sphere_rows radius n m)) (spec_triangles n m)),
     geom_final radius n m).
Proof.
  intros Hv. pose proof Hv as (Hr & Hn & Hm).
  unfold get_uv_sphere_geom.
  unfold bind at 1. rewrite check_error_conditions_valid by assumption.
  unfold bind at 1. unfold unclean_set_num_rows, modify, geom_nothing.
  cbn [vdata writer_row triangle_primitives_holder
       current_ring_indices previous_ring_indices].
  unfold bind at 1. unfold set_current_ring_indices at 1. unfold modify.
  cbn [vdata writer_row triangle_primitives_holder
       current_ring_indices previous_ring_indices].
  unfold bind at 1. unfold set_previous_ring_indices at 1. unfold modify.
  cbn [vdata writer_row triangle_primitives_holder
       current_ring_indices previous_ring_indices].
  rewrite firstn_nil. cbn [app length].
  change (repeat None (Z.to_nat (2 + n * m) - 0))
    with (table (Z.to_nat (2 + n * m)) []).
  rewrite segment_points_xz_ok by lia.
  rewrite (range_cons 1) by lia. cbn [map for_enumerate].
  unfold bind at 1. unfold bind at 1.
  unfold meridian_point at 1.
  rewrite geom_first_ring_run by lia.
  replace (1 + 1) with (0 + 1 + 1) by lia.
  replace (ring_window n 0) with (ring_window n (0 + 1 - 1)) at 2
    by (f_equal; lia).
  rewrite (geom_later_rings_run _ radius n m (meridian_point radius m)
             (Z.to_nat (m - 2))) by lia.
  unfold geom_between.
  unfold bind at 1. unfold set_previous_ring_indices at 1. unfold modify.
  cbn [vdata writer_row triangle_primitives_holder
       current_ring_indices previous_ring_indices].
  unfold bind at 1. unfold set_current_ring_indices at 1. unfold modify.
  cbn [vdata writer_row triangle_primitives_holder
       current_ring_indices previous_ring_indices].
  unfold bind at 1. unfold gets, ret.
  cbn [vdata writer_row triangle_primitives_holder
       current_ring_indices previous_ring_indices].
  unfold deque_clear. cbn [dq_maxlen].
  assert (EW : (stored (mkPoint3D (of_int 0) (of_int 0) (of_int 0))
                :: map stored (ring_points n (meridian_point radius m 1)))
               ++ flat_map (fun r => map stored
                                       (ring_points n
                                          (meridian_point radius m (r + 1))))
                           (range (0 + 1) m)
               ++ [stored (mkPoint3D (of_int 0) (of_int 0) (mul radius (of_int 2)))]
               = sphere_rows radius n m).
  { unfold sphere_rows. rewrite (range_cons 0 m) by lia.
    cbn [flat_map]. rewrite <- !app_assoc. reflexivity. }
  assert (ET : south_fan 0 0 (ring_window n 0) (Z.to_nat n)
               ++ flat_map (fun r => ring_bridge 0 (ring_window n (r - 1))
                                       (ring_window n r) (Z.to_nat n))
                           (range (0 + 1) m)
               ++ north_fan 0 (2 + n * m - 1) (ring_window n (m - 1))
                            (Z.to_nat n)
               = spec_triangles n m).
  { unfold spec_triangles, north_pole_index, south_pole_index.
    replace (2 + n * m - 1) with (1 + m * n) by lia. reflexivity. }
  unfold meridian_point at 1 in EW.
  rewrite EW, ET.
  rewrite table_full by (apply sphere_rows_length; lia).
  reflexivity.
Qed.
End Meridian.

(** ** The traversal in closed form *)

Lemma skipn_nth {A} (d : A) j : forall w,
  (j < length w)%nat -> skipn j w = nth j w d :: skipn (S j) w.
Proof.
  induction j as [|j IH]; intros [|x w] H; simpl in H; try lia.
  - reflexivity.
  - change (skipn (S j) (x :: w)) with (skipn j w).
    change (nth (S j) (x :: w) d) with (nth j w d).
    change (skipn (S (S j)) (x :: w)) with (skipn (S j) w).
    apply IH. lia.
Qed.

Lemma last_as_nth {A} (d : A) (w : list A) :
  w <> [] -> last w d = nth (length w - 1) w d.
Proof.
  intros H. destruct (exists_last H) as (w' & x & ->).
  rewrite last_last, length_app. simpl length.
  replace (length w' + 1 - 1)%nat with (length w') by lia.
  now rewrite nth_middle.
Qed.

Lemma front_iter {A} (d : A) j w :
  (j < length w)%nat -> front d (Nat.iter j rotate_left w) = nth j w d.
Proof.
  intros H. rewrite iter_rotate_split by lia.
  rewrite (skipn_nth d) by assumption. reflexivity.
Qed.

Lemma back_iter {A} (d : A) j w :
  (j < length w)%nat ->
  back d (Nat.iter j rotate_left w) = nth (pred_mod (length w) j) w d.
Proof.
  intros H. rewrite iter_rotate_split by lia. unfold back.
  destruct j as [|j]; simpl pred_mod.
  - simpl. rewrite app_nil_r. apply last_as_nth.
    destruct w; [simpl in H; lia|discriminate].
  - destruct (skipn_cons_next j w (nth j w d) (skipn (S j) w)) as [_ E].
    { apply skipn_nth. lia. }
    rewrite E, app_assoc. apply last_last.
Qed.

Section ClosedFans.
Context {A : Type} (dflt : A).

Lemma south_fan_closed pole (w : list A) k : forall j,
  (j + k <= length w)%nat ->
  south_fan dflt pole (Nat.iter j rotate_left w) k
  = map (fun i => (pole, nth i w dflt, nth (pred_mod (length w) i) w dflt))
        (seq j k).
Proof.
  induction k as [|k IH]; intros j H; [reflexivity|].
  cbn [south_fan seq map].
  rewrite front_iter, back_iter by lia. f_equal.
  rewrite rotate_step_eq.
  change (rotate_left (Nat.iter j rotate_left w))
    with (Nat.iter (S j) rotate_left w).
  apply IH. lia.
Qed.

Lemma ring_bridge_closed (p c : list A) k : forall j,
  (j + k <= length p)%nat -> length c = length p ->
  ring_bridge dflt (Nat.iter j rotate_left p) (Nat.iter j rotate_left c) k
  = flat_map
      (fun i =>
         [(nth (pred_mod (length p) i) p dflt, nth i c dflt,
           nth (pred_mod (length p) i) c dflt);
          (nth i c dflt, nth (pred_mod (length p) i) p dflt,
           nth i p dflt)])
      (seq j k).
Proof.
  induction k as [|k IH]; intros j H Hc; [reflexivity|].
  cbn [ring_bridge seq flat_map app].
  rewrite !front_iter, !back_iter by lia. rewrite Hc. do 2 f_equal.
  rewrite !rotate_step_eq.
  change (rotate_left (Nat.iter j rotate_left p))
    with (Nat.iter (S j) rotate_left p).
  change (rotate_left (Nat.iter j rotate_left c))
    with (Nat.iter (S j) rotate_left c).
  apply IH; [lia|assumption].
Qed.

Lemma north_fan_closed pole (w : list A) k : forall j,
  (j + k <= length w)%nat ->
  north_fan dflt pole (Nat.iter j rotate_left w) k
  = map (fun i => (pole, nth (pred_mod (length w) i) w dflt, nth i w dflt))
        (seq j k).
Proof.
  induction k as [|k IH]; intros j H; [reflexivity|].
  cbn [north_fan seq map].
  rewrite front_iter, back_iter by lia. f_equal.
  rewrite rotate_step_eq.
  change (rotate_left (Nat.iter j rotate_left w))
    with (Nat.iter (S j) rotate_left w).
  apply IH. lia.
Qed.
End ClosedFans.

Lemma south_fan_length {A} (d : A) pole w k :
  length (south_fan d pole w k) = k.
Proof. revert w. induction k; intros w; simpl; [reflexivity|]. now rewrite IHk. Qed.

Lemma north_fan_length {A} (d : A) pole w k :
  length (north_fan d pole w k) = k.
Proof. revert w. induction k; intros w; simpl; [reflexivity|]. now rewrite IHk. Qed.

Lemma ring_bridge_length {A} (d : A) p c k :
  length (ring_bridge d p c k) = (2 * k)%nat.
Proof.
  revert p c. induction k; intros p c; simpl; [reflexivity|].
  rewrite IHk. lia.
Qed.

Lemma spec_triangles_length n m :
  0 <= n -> 1 <= m ->
  Z.of_nat (length (spec_triangles n m)) = 2 * n * m.
Proof.
  intros Hn Hm. unfold spec_triangles.
  rewrite !length_app, south_fan_length, north_fan_length.
  rewrite (flat_map_length_const _ (2 * Z.to_nat n))
    by (intros; apply ring_bridge_length).
  rewrite range_length. nia.
Qed.


(** ** Exact arithmetic is lawful *)

Lemma exact_lawful : Lawful exact.
Proof.
  split.
  - reflexivity.
  - intros quantity i _. do 3 eexists. repeat split; reflexivity.
  - intros rings i _ _. do 3 eexists. repeat split; reflexivity.
Qed.

#[export] Existing Instance exact_lawful.

(** In exact arithmetic the arguments are valid when the radius is positive
    and there are at least three segments and three rings. *)
Lemma exact_valid (radius : R) n m :
  (0 < radius)%R -> 3 <= n -> 3 <= m ->
  valid_arguments (A := exact) radius n m.
Proof.
  intros Hr Hn Hm. unfold valid_arguments. cbn.
  destruct (Rle_dec radius 0); [lra|]. repeat split; assumption.
Qed.


(** ** Vertex and triangle counts *)

Section Counts.
Context {A : Arithmetic} {L : Lawful A}.

(** C1.  For valid arguments [get_uv_sphere_geom] returns a [Geom] whose
    vertex table has exactly [segments * rings + 2] rows, every one of them
    written, and whose primitive holds exactly [2 * segments * rings]
    triangles; this holds in every lawful arithmetic, that of the code
    included. *)
Theorem geom_vertex_and_triangle_count (radius : num) segments rings :
  valid_arguments radius segments rings ->
  exists g st,
    get_uv_sphere_geom radius segments rings geom_nothing = (Ok g, st)
    /\ Z.of_nat (length (geom_vertices g)) = segments * rings + 2
    /\ Forall (fun row => row <> None) (geom_vertices g)
    /\ Z.of_nat (length (geom_triangles g)) = 2 * segments * rings.
Proof.
  intros Hv. pose proof Hv as (Hr & Hn & Hm).
  eexists. eexists. split; [apply get_uv_sphere_geom_run; assumption|].
  cbn [geom_vertices geom_triangles]. split; [|split].
  - rewrite length_map, sphere_rows_length by lia. lia.
  - apply Forall_forall. intros row Hin. apply in_map_iff in Hin.
    destruct Hin as (p & <- & _). discriminate.
  - apply spec_triangles_length; lia.
Qed.
End Counts.

(** The concrete scenario of C1: radius 5, 16 segments, 8 rings give 130
    vertices and 256 triangles. *)
Lemma geom_count_5_16_8 :
  exists g st,
    get_uv_sphere_geom (A := exact) 5%R 16 8 geom_nothing = (Ok g, st)
    /\ Z.of_nat (length (geom_vertices g)) = 130
    /\ Z.of_nat (length (geom_triangles g)) = 256.
Proof.
  destruct (geom_vertex_and_triangle_count (A := exact) 5%R 16 8)
    as (g & st & H & Hv & _ & Ht).
  - apply exact_valid; [lra|lia|lia].
  - exists g, st. split; [exact H|]. split; [exact Hv|exact Ht].
Defined.

(** ** Where each vertex lies in the table *)

Lemma nth_flat_map_const {A B} (f : A -> list B) (c : nat) (dA : A) (d : B) :
  (forall x, length (f x) = c) ->
  forall l i j, (i < length l)%nat -> (j < c)%nat ->
  nth (i * c + j) (flat_map f l) d = nth j (f (nth i l dA)) d.
Proof.
  intros Hc. induction l as [|x l IH]; intros i j Hi Hj; simpl in Hi; [lia|].
  cbn [flat_map]. destruct i as [|i].
  - simpl. rewrite app_nth1 by (rewrite Hc; lia). reflexivity.
  - rewrite app_nth2 by (rewrite Hc; simpl; lia).
    rewrite Hc. replace (S i * c + j - c)%nat with (i * c + j)%nat by (simpl; lia).
    cbn [nth]. apply IH; lia.
Qed.

Lemma to_nat_ring_index r n s :
  0 <= r -> 0 <= n -> 0 <= s ->
  Z.to_nat (1 + r * n + s) = S (Z.to_nat r * Z.to_nat n + Z.to_nat s).
Proof.
  intros Hr Hn Hs. apply Nat2Z.inj. rewrite Z2Nat.id by nia.
  rewrite Nat2Z.inj_succ, Nat2Z.inj_add, Nat2Z.inj_mul, !Z2Nat.id by lia.
  lia.
Qed.

Section VertexLocation.
Context {A : Arithmetic} {L : Lawful A}.

Lemma nth_ring_points n x z s d :
  0 <= s < n ->
  nth (Z.to_nat s) (ring_points n (x, z)) d
  = mkPoint3D (add (mul x (cos_of (longitude n s))) (of_int 0))
              (add (mul x (sin_of (longitude n s))) (of_int 0)) z.
Proof.
  intros Hs. unfold ring_points, circle_points. cbn [fst snd].
  rewrite map_map.
  rewrite nth_indep with (d' := (fun k : Z =>
     mkPoint3D (add (mul x (cos_of (longitude n k))) (of_int 0))
               (add (mul x (sin_of (longitude n k))) (of_int 0)) z) 0).
  - rewrite (map_nth (fun k : Z =>
     mkPoint3D (add (mul x (cos_of (longitude n k))) (of_int 0))
               (add (mul x (sin_of (longitude n k))) (of_int 0)) z)).
    rewrite nth_range by lia. rewrite Z.add_0_l, Z2Nat.id by lia.
    reflexivity.
  - rewrite length_map, range_length. lia.
Qed.

Lemma sphere_points_south radius n m d :
  nth O (sphere_points radius n m) d = mkPoint3D (of_int 0) (of_int 0) (of_int 0).
Proof. reflexivity. Qed.

Lemma sphere_points_ring radius n m r s d :
  0 <= r < m -> 0 <= s < n ->
  nth (Z.to_nat (ring_vertex_index n r s)) (sphere_points radius n m) d
  = ring_vertex_position radius n m r s.
Proof.
  intros Hr Hs. unfold sphere_points, ring_vertex_index.
  rewrite to_nat_ring_index by lia.
  cbn [nth].
  rewrite app_nth1.
  - rewrite (nth_flat_map_const _ (Z.to_nat n) 0 d).
    + rewrite nth_range by lia. rewrite Z.add_0_l, Z2Nat.id by lia.
      unfold ring_vertex_position.
      destruct (meridian_point radius m (r + 1)) as [x z].
      apply nth_ring_points. assumption.
    + intros. apply ring_points_length.
    + rewrite range_length. lia.
    + lia.
  - rewrite (flat_map_length_const _ (Z.to_nat n))
      by (intros; apply ring_points_length).
    rewrite range_length. nia.
Qed.

Lemma sphere_points_north radius n m d :
  0 <= n -> 0 <= m ->
  nth (Z.to_nat (north_pole_index n m)) (sphere_points radius n m) d
  = mkPoint3D (of_int 0) (of_int 0) (mul radius (of_int 2)).
Proof.
  intros Hn Hm. unfold sphere_points, north_pole_index.
  replace (1 + m * n) with (1 + m * n + 0) by lia.
  rewrite to_nat_ring_index by lia. rewrite Nat.add_0_r.
  cbn [nth]. rewrite app_nth2.
  - rewrite (flat_map_length_const _ (Z.to_nat n))
      by (intros; apply ring_points_length).
    rewrite range_length. replace (Z.to_nat (m - 0)) with (Z.to_nat m) by lia.
    now rewrite Nat.sub_diag.
  - rewrite (flat_map_length_const _ (Z.to_nat n))
      by (intros; apply ring_points_length).
    rewrite range_length. replace (Z.to_nat (m - 0)) with (Z.to_nat m) by lia.
    lia.
Qed.

Lemma vertex_at_written W i d :
  0 <= i < Z.of_nat (length W) ->
  vertex_at (map Some W) i = Some (nth (Z.to_nat i) W d).
Proof.
  intros H. unfold vertex_at. destruct (Z.ltb_spec i 0); [lia|].
  rewrite nth_indep with (d' := Some d) by (rewrite length_map; lia).
  apply map_nth.
Qed.

Lemma sphere_rows_nth radius n m i d :
  nth i (sphere_rows radius n m) (stored d)
  = stored (nth i (sphere_points radius n m) d).
Proof. rewrite sphere_rows_eq. apply map_nth. Qed.

(** ** The index formula and the emitted triangle sequence *)

(** C2.  For valid arguments the vertex of ring [r] at position [s] is row
    [1 + r * segments + s] of the table, the south pole is row [0], the north
    pole is row [1 + rings * segments], each row holding what the table keeps
    of the position, and the emitted triangle list is the sequence of the
    specification's traversal. *)
Theorem geom_index_formula_and_traversal (radius : num) segments rings :
  valid_arguments radius segments rings ->
  exists g st,
    get_uv_sphere_geom radius segments rings geom_nothing = (Ok g, st)
    /\ (forall r s, 0 <= r < rings -> 0 <= s < segments ->
          vertex_at (geom_vertices g) (ring_vertex_index segments r s)
          = Some (stored (ring_vertex_position radius segments rings r s)))
    /\ vertex_at (geom_vertices g) south_pole_index
       = Some (stored (mkPoint3D (of_int 0) (of_int 0) (of_int 0)))
    /\ vertex_at (geom_vertices g) (north_pole_index segments rings)
       = Some (stored (mkPoint3D (of_int 0) (of_int 0)
                                 (mul radius (of_int 2))))
    /\ geom_triangles g = spec_triangles segments rings.
Proof.
  intros Hv. pose proof Hv as (Hr & Hn & Hm).
  eexists. eexists. split; [apply get_uv_sphere_geom_run; assumption|].
  cbn [geom_vertices geom_triangles].
  assert (HL : Z.of_nat (length (sphere_rows radius segments rings))
               = 2 + segments * rings)
    by (rewrite sphere_rows_length; lia).
  split; [|split; [|split]].
  - intros r s Hrr Hs.
    rewrite (vertex_at_written _ _ (stored (mkPoint3D (of_int 0) (of_int 0) (of_int 0))))
      by (unfold ring_vertex_index; nia).
    f_equal. rewrite sphere_rows_nth. f_equal.
    apply sphere_points_ring; assumption.
  - reflexivity.
  - rewrite (vertex_at_written _ _ (stored (mkPoint3D (of_int 0) (of_int 0) (of_int 0))))
      by (unfold north_pole_index; nia).
    f_equal. rewrite sphere_rows_nth. f_equal.
    apply sphere_points_north; lia.
  - reflexivity.
Qed.
End VertexLocation.

Lemma geom_index_formula_and_traversal_1_3_3 :
  exists g st,
    get_uv_sphere_geom (A := exact) 1%R 3 3 geom_nothing = (Ok g, st)
    /\ geom_triangles g = spec_triangles 3 3.
Proof.
  destruct (geom_index_formula_and_traversal (A := exact) 1%R 3 3)
    as (g & st & H & _ & _ & _ & Ht).
  - apply exact_valid; [lra|lia|lia].
  - exists g, st. split; [exact H|exact Ht].
Defined.

(** The traversal of the smallest valid sphere, evaluated. *)
Example spec_triangles_3_3 :
  spec_triangles 3 3
  = [(0, 1, 3); (0, 2, 1); (0, 3, 2);
     (3, 4, 6); (4, 3, 1); (1, 5, 4); (5, 1, 2); (2, 6, 5); (6, 2, 3);
     (6, 7, 9); (7, 6, 4); (4, 8, 7); (8, 4, 5); (5, 9, 8); (9, 5, 6);
     (10, 9, 7); (10, 7, 8); (10, 8, 9)].
Proof. reflexivity. Qed.

(** ** The loops of [get_uv_sphere_egg_data] in closed form *)

Lemma update_nth_last {A} (l : list A) x f :
  update_nth (l ++ [x]) (length l) f = l ++ [f x].
Proof. induction l; simpl; [reflexivity|]. now rewrite IHl. Qed.

Lemma update_nth_at_end {A} (l : list A) x f i :
  i = length l -> update_nth (l ++ [x]) i f = l ++ [f x].
Proof. intros ->. apply update_nth_last. Qed.

Lemma update_nth_before_last {A} (l : list A) x y f :
  update_nth ((l ++ [x]) ++ [y]) (length l) f = (l ++ [f x]) ++ [y].
Proof. induction l; simpl; [reflexivity|]. now rewrite IHl. Qed.

Lemma run_bind {S A B} (m : M S A) (k : A -> M S B) s a s' :
  m s = (Ok a, s') -> bind m k s = k a s'.
Proof. intros H. unfold bind. now rewrite H. Qed.

Section EggLoops.
Context {A : Arithmetic} {L : Lawful A}.

Lemma pool_from_app k W W' :
  pool_from k (W ++ W') = pool_from k W ++ pool_from (k + length W) W'.
Proof.
  revert k. induction W as [|p W IH]; intros k; simpl.
  - now rewrite Nat.add_0_r.
  - rewrite IH. do 3 f_equal. lia.
Qed.

Lemma pool_from_length k W : length (pool_from k W) = length W.
Proof. revert k. induction W; intros k; simpl; [reflexivity|]. now rewrite IHW. Qed.

Lemma pool_from_index k W :
  map ev_index (pool_from k W) = map Z.of_nat (seq k (length W)).
Proof. revert k. induction W; intros k; simpl; [reflexivity|]. now rewrite IHW. Qed.

Lemma pool_from_pos k W : map ev_pos (pool_from k W) = W.
Proof. revert k. induction W; intros k; simpl; [reflexivity|]. now rewrite IHW. Qed.

Lemma egg_current_first_run C V P c m p :
  c <> [] ->
  egg_current_first (mkEggBuild C V P (mkDeque c m) p)
  = (Ok (front egg_dflt c), mkEggBuild C V P (mkDeque c m) p).
Proof.
  intros H. unfold egg_current_first. cbn [current_ring_vertices].
  now rewrite (deque_first_ok egg_dflt).
Qed.

Lemma egg_current_last_run C V P c m p :
  c <> [] ->
  egg_current_last (mkEggBuild C V P (mkDeque c m) p)
  = (Ok (back egg_dflt c), mkEggBuild C V P (mkDeque c m) p).
Proof.
  intros H. unfold egg_current_last. cbn [current_ring_vertices].
  now rewrite (deque_last_ok egg_dflt).
Qed.

Lemma egg_previous_first_run C V P c p m :
  p <> [] ->
  egg_previous_first (mkEggBuild C V P c (mkDeque p m))
  = (Ok (front egg_dflt p), mkEggBuild C V P c (mkDeque p m)).
Proof.
  intros H. unfold egg_previous_first. cbn [previous_ring_vertices].
  now rewrite (deque_first_ok egg_dflt).
Qed.

Lemma egg_previous_last_run C V P c p m :
  p <> [] ->
  egg_previous_last (mkEggBuild C V P c (mkDeque p m))
  = (Ok (back egg_dflt p), mkEggBuild C V P c (mkDeque p m)).
Proof.
  intros H. unfold egg_previous_last. cbn [previous_ring_vertices].
  now rewrite (deque_last_ok egg_dflt).
Qed.

(** One statement of a loop body: run it and simplify the store. *)
Ltac egg_run :=
  erewrite run_bind
    by first [ apply egg_current_first_run; assumption
             | apply egg_current_last_run; assumption
             | apply egg_previous_first_run; assumption
             | apply egg_previous_last_run; assumption
             | reflexivity ];
  cbn [data_children vpool polygons current_ring_vertices
       previous_ring_vertices].

Lemma egg_first_ring_step_run C V P c m p fv :
  c <> [] ->
  (poly <- new_EggPolygon ;;
   add_to_egg_data (ChildPolygon poly) ;;;
   v1 <- egg_current_first ;;
   v2 <- egg_current_last ;;
   poly_addVertex poly fv ;;;
   poly_addVertex poly v1 ;;;
   poly_addVertex poly v2 ;;;
   egg_current_rotate)
    (mkEggBuild C V P (mkDeque c m) p)
  = (Ok tt,
     mkEggBuild (C ++ [ChildPolygon (length P)]) V
                (P ++ [[fv; front egg_dflt c; back egg_dflt c]])
                (mkDeque (rotate_left c) m) p).
Proof.
  intros Hc. do 7 egg_run.
  unfold egg_current_rotate, set_current_ring_vertices, modify.
  cbn [data_children vpool polygons current_ring_vertices
       previous_ring_vertices].
  rewrite !update_nth_last. reflexivity.
Qed.

Lemma egg_first_ring_tris_run k : forall C V P c m p fv,
  c <> [] ->
  for_range k
    (poly <- new_EggPolygon ;;
     add_to_egg_data (ChildPolygon poly) ;;;
     v1 <- egg_current_first ;;
     v2 <- egg_current_last ;;
     poly_addVertex poly fv ;;;
     poly_addVertex poly v1 ;;;
     poly_addVertex poly v2 ;;;
     egg_current_rotate)
    (mkEggBuild C V P (mkDeque c m) p)
  = (Ok tt,
     mkEggBuild (C ++ map ChildPolygon (seq (length P) k)) V
                (P ++ map tri_list (south_fan egg_dflt fv c k))
                (mkDeque (Nat.iter k rotate_left c) m) p).
Proof.
  induction k as [|k IH]; intros C V P c m p fv Hc.
  - simpl. unfold ret. now rewrite !app_nil_r.
  - cbn [for_range]. unfold bind at 1.
    rewrite egg_first_ring_step_run by assumption.
    rewrite IH by now apply rotate_left_nonnil.
    rewrite Nat.iter_succ_r, <- !app_assoc, length_app.
    cbn [south_fan app map seq tri_list length].
    rewrite rotate_step_eq, Nat.add_1_r. reflexivity.
Qed.

Lemma egg_ring_pair_step_run C V P c p m m' :
  c <> [] -> p <> [] ->
  (vertex_a0 <- egg_previous_last ;;
   vertex_a1 <- egg_previous_first ;;
   vertex_b0 <- egg_current_last ;;
   vertex_b1 <- egg_current_first ;;
   poly_a <- new_EggPolygon ;;
   add_to_egg_data (ChildPolygon poly_a) ;;;
   poly_b <- new_EggPolygon ;;
   add_to_egg_data (ChildPolygon poly_b) ;;;
   poly_addVertex poly_a vertex_a0 ;;;
   poly_addVertex poly_a vertex_b1 ;;;
   poly_addVertex poly_a vertex_b0 ;;;
   poly_addVertex poly_b vertex_b1 ;;;
   poly_addVertex poly_b vertex_a0 ;;;
   poly_addVertex poly_b vertex_a1 ;;;
   egg_previous_rotate ;;;
   egg_current_rotate)
    (mkEggBuild C V P (mkDeque c m) (mkDeque p m'))
  = (Ok tt,
     mkEggBuild
       (C ++ [ChildPolygon (length P); ChildPolygon (S (length P))]) V
       (P ++ [[back egg_dflt p; front egg_dflt c; back egg_dflt c];
              [front egg_dflt c; back egg_dflt p; front egg_dflt p]])
       (mkDeque (rotate_left c) m) (mkDeque (rotate_left p) m')).
Proof.
  intros Hc Hp. do 15 egg_run.
  unfold egg_current_rotate, set_current_ring_vertices, modify.
  cbn [data_children vpool polygons current_ring_vertices
       previous_ring_vertices].
  rewrite !update_nth_before_last.
  rewrite !(update_nth_at_end _ _ _ (length (P ++ [[]])))
    by (rewrite !length_app; reflexivity).
  rewrite <- !app_assoc, length_app, Nat.add_1_r. reflexivity.
Qed.

Lemma egg_ring_pair_tris_run k : forall C V P c p m m',
  c <> [] -> p <> [] ->
  for_range k
    (vertex_a0 <- egg_previous_last ;;
     vertex_a1 <- egg_previous_first ;;
     vertex_b0 <- egg_current_last ;;
     vertex_b1 <- egg_current_first ;;
     poly_a <- new_EggPolygon ;;
     add_to_egg_data (ChildPolygon poly_a) ;;;
     poly_b <- new_EggPolygon ;;
     add_to_egg_data (ChildPolygon poly_b) ;;;
     poly_addVertex poly_a vertex_a0 ;;;
     poly_addVertex poly_a vertex_b1 ;;;
     poly_addVertex poly_a vertex_b0 ;;;
     poly_addVertex poly_b vertex_b1 ;;;
     poly_addVertex poly_b vertex_a0 ;;;
     poly_addVertex poly_b vertex_a1 ;;;
     egg_previous_rotate ;;;
     egg_current_rotate)
    (mkEggBuild C V P (mkDeque c m) (mkDeque p m'))
  = (Ok tt,
     mkEggBuild (C ++ map ChildPolygon (seq (length P) (2 * k))) V
                (P ++ map tri_list (ring_bridge egg_dflt p c k))
                (mkDeque (Nat.iter k rotate_left c) m)
                (mkDeque (Nat.iter k rotate_left p) m')).
Proof.
  induction k as [|k IH]; intros C V P c p m m' Hc Hp.
  - simpl. unfold ret. now rewrite !app_nil_r.
  - cbn [for_range]. unfold bind at 1.
    rewrite egg_ring_pair_step_run by assumption.
    rewrite IH by now apply rotate_left_nonnil.
    rewrite !Nat.iter_succ_r, <- !app_assoc, length_app.
    replace (2 * S k)%nat with (S (S (2 * k))) by lia.
    cbn [ring_bridge app map seq tri_list length].
    rewrite !rotate_step_eq.
    replace (length P + 2)%nat with (S (S (length P))) by lia.
    reflexivity.
Qed.

Lemma egg_last_ring_step_run C V P c p m' lv :
  p <> [] ->
  (poly <- new_EggPolygon ;;
   add_to_egg_data (ChildPolygon poly) ;;;
   v1 <- egg_previous_last ;;
   v2 <- egg_previous_first ;;
   poly_addVertex poly lv ;;;
   poly_addVertex poly v1 ;;;
   poly_addVertex poly v2 ;;;
   egg_previous_rotate)
    (mkEggBuild C V P c (mkDeque p m'))
  = (Ok tt,
     mkEggBuild (C ++ [ChildPolygon (length P)]) V
                (P ++ [[lv; back egg_dflt p; front egg_dflt p]])
                c (mkDeque (rotate_left p) m')).
Proof.
  intros Hp. do 7 egg_run.
  unfold egg_previous_rotate, set_previous_ring_vertices, modify.
  cbn [data_children vpool polygons current_ring_vertices
       previous_ring_vertices].
  rewrite !update_nth_last. reflexivity.
Qed.

Lemma egg_last_ring_tris_run k : forall C V P c p m' lv,
  p <> [] ->
  for_range k
    (poly <- new_EggPolygon ;;
     add_to_egg_data (ChildPolygon poly) ;;;
     v1 <- egg_previous_last ;;
     v2 <- egg_previous_first ;;
     poly_addVertex poly lv ;;;
     poly_addVertex poly v1 ;;;
     poly_addVertex poly v2 ;;;
     egg_previous_rotate)
    (mkEggBuild C V P c (mkDeque p m'))
  = (Ok tt,
     mkEggBuild (C ++ map ChildPolygon (seq (length P) k)) V
                (P ++ map tri_list (north_fan egg_dflt lv p k))
                c (mkDeque (Nat.iter k rotate_left p) m')).
Proof.
  induction k as [|k IH]; intros C V P c p m' lv Hp.
  - simpl. unfold ret. now rewrite !app_nil_r.
  - cbn [for_range]. unfold bind at 1.
    rewrite egg_last_ring_step_run by assumption.
    rewrite IH by now apply rotate_left_nonnil.
    rewrite Nat.iter_succ_r, <- !app_assoc, length_app.
    cbn [north_fan app map seq tri_list length].
    rewrite rotate_step_eq, Nat.add_1_r. reflexivity.
Qed.

Lemma egg_add_vertices_run C P prev (f : Point2D -> Point3D) pts :
  forall V cur,
  for_each pts
    (fun xy =>
       v <- makeNewVertex (f xy) ;;
       set_current_ring_vertices
         (fun st => deque_append (current_ring_vertices st) v))
    (mkEggBuild C V P cur prev)
  = (Ok tt,
     mkEggBuild C (V ++ pool_from (length V) (map f pts)) P
                (deque_extend cur (pool_from (length V) (map f pts))) prev).
Proof.
  induction pts as [|xy pts IH]; intros V cur.
  - simpl. unfold ret. now rewrite app_nil_r.
  - cbn [for_each]. unfold bind at 1. unfold bind at 1.
    unfold makeNewVertex at 1, set_current_ring_vertices at 1, modify.
    cbn [data_children vpool polygons current_ring_vertices
         previous_ring_vertices].
    rewrite IH. rewrite length_app, Nat.add_1_r, <- app_assoc.
    reflexivity.
Qed.

Lemma egg_add_ring_vertices_run C P prev n x z V cur :
  egg_add_ring_vertices n x z (mkEggBuild C V P cur prev)
  = (Ok tt,
     mkEggBuild C (V ++ pool_from (length V) (ring_points n (x, z))) P
                (deque_extend cur (pool_from (length V) (ring_points n (x, z))))
                prev).
Proof.
  unfold egg_add_ring_vertices, ring_points. cbn [fst snd].
  rewrite circle_samples_ok, for_in_map_Ok.
  rewrite <- (egg_add_vertices_run C P prev
               (fun xy : Point2D => let '(ring_x, ring_y) := xy in
                                    mkPoint3D ring_x ring_y z)).
  erewrite for_each_ext; [reflexivity|].
  intros [ring_x ring_y]. reflexivity.
Qed.

Lemma egg_children_extend (a b : EggChild) t k :
  ([a; b] ++ map ChildPolygon (seq 0 t)) ++ map ChildPolygon (seq t k)
  = [a; b] ++ map ChildPolygon (seq 0 (t + k)).
Proof. rewrite seq_app, map_app, <- app_assoc. reflexivity. Qed.

Lemma egg_window_length mp n r : length (egg_window mp n r) = Z.to_nat n.
Proof. unfold egg_window. now rewrite pool_from_length, ring_points_length. Qed.

Lemma egg_window_nonnil mp n r : 0 < n -> egg_window mp n r <> [].
Proof.
  intros H E. apply (f_equal (@length _)) in E.
  rewrite egg_window_length in E. simpl in E. lia.
Qed.

Lemma iter_rotate_egg_window mp n r :
  Nat.iter (Z.to_nat n) rotate_left (egg_window mp n r) = egg_window mp n r.
Proof.
  pose proof (iter_rotate_full (egg_window mp n r)) as H.
  now rewrite egg_window_length in H.
Qed.

Lemma egg_first_ring_run radius n last (mp : Z -> Point2D) :
  0 < n ->
  egg_ring_body radius n last 0 (mp 1)
    (mkEggBuild [ChildCoordinateSystem CSZupRight; ChildVertexPool] [] []
                (deque_new n) (deque_new n))
  = (Ok tt,
     egg_between n (mkPoint3D (of_int 0) (of_int 0) (of_int 0) :: ring_points n (mp 1))
       (south_fan egg_dflt (mkEggVertex 0 (mkPoint3D (of_int 0) (of_int 0) (of_int 0)))
                  (egg_window mp n 0) (Z.to_nat n))
       (egg_window mp n 0)).
Proof.
  intros Hn. unfold egg_ring_body, egg_between.
  destruct (mp 1) as [x z] eqn:E. cbn [Z.eqb].
  unfold bind at 1. unfold makeNewVertex at 1.
  cbn [data_children vpool polygons current_ring_vertices
       previous_ring_vertices length].
  unfold bind at 1. rewrite egg_add_ring_vertices_run.
  cbn [length app].
  assert (Ew : pool_from 1 (ring_points n (x, z)) = egg_window mp n 0).
  { unfold egg_window. replace (0 + 1) with 1 by lia. rewrite E.
    reflexivity. }
  rewrite Ew. unfold deque_new.
  rewrite deque_extend_full;
    [|simpl; lia|simpl; lia|simpl; apply egg_window_length].
  cbn [dq_maxlen].
  unfold bind at 1. unfold egg_first_ring_tris.
  rewrite egg_first_ring_tris_run by now apply egg_window_nonnil.
  rewrite iter_rotate_egg_window.
  unfold egg_previous_extend_current, set_previous_ring_vertices, modify.
  cbn [data_children vpool polygons current_ring_vertices
       previous_ring_vertices dq_items].
  rewrite deque_extend_full;
    [|simpl; lia|simpl; lia|simpl; apply egg_window_length].
  cbn [dq_maxlen app length pool_from Z.of_nat].
  rewrite south_fan_length, Ew. reflexivity.
Qed.

Lemma egg_later_ring_run radius n last i (mp : Z -> Point2D) W T :
  0 < n -> 1 <= i -> length W = Z.to_nat (1 + i * n) ->
  egg_ring_body radius n last i (mp (i + 1))
    (egg_between n W T (egg_window mp n (i - 1)))
  = (Ok tt,
     if i =? last then
       egg_between n
         (W ++ ring_points n (mp (i + 1)) ++ [mkPoint3D (of_int 0) (of_int 0) (mul radius (of_int 2))])
         (T ++ ring_bridge egg_dflt (egg_window mp n (i - 1))
                           (egg_window mp n i) (Z.to_nat n)
            ++ north_fan egg_dflt
                 (mkEggVertex (1 + (i + 1) * n) (mkPoint3D (of_int 0) (of_int 0) (mul radius (of_int 2))))
                 (egg_window mp n i) (Z.to_nat n))
         (egg_window mp n i)
     else
       egg_between n (W ++ ring_points n (mp (i + 1)))
         (T ++ ring_bridge egg_dflt (egg_window mp n (i - 1))
                           (egg_window mp n i) (Z.to_nat n))
         (egg_window mp n i)).
Proof.
  intros Hn Hi HW. unfold egg_ring_body, egg_between.
  assert (Ew : pool_from (length W) (ring_points n (mp (i + 1)))
               = egg_window mp n i).
  { unfold egg_window. now rewrite HW. }
  destruct (mp (i + 1)) as [x z] eqn:E.
  destruct (Z.eqb_spec i 0) as [|_]; [lia|].
  unfold bind at 1. rewrite egg_add_ring_vertices_run.
  rewrite pool_from_length, Ew.
  rewrite deque_extend_full;
    [|simpl; rewrite egg_window_length; lia|simpl; lia
     |simpl; apply egg_window_length].
  cbn [dq_maxlen].
  unfold bind at 1. unfold egg_ring_pair_tris.
  rewrite egg_ring_pair_tris_run by now apply egg_window_nonnil.
  rewrite !iter_rotate_egg_window.
  unfold bind at 1.
  unfold egg_previous_extend_current, set_previous_ring_vertices, modify.
  cbn [data_children vpool polygons current_ring_vertices
       previous_ring_vertices dq_items].
  rewrite deque_extend_full;
    [|simpl; rewrite egg_window_length; lia|simpl; lia
     |simpl; apply egg_window_length].
  cbn [dq_maxlen].
  rewrite length_map, egg_children_extend, <- map_app.
  rewrite <- Ew at 1. rewrite <- (pool_from_app 0 W).
  destruct (i =? last).
  - unfold bind at 1. unfold makeNewVertex at 1.
    cbn [data_children vpool polygons current_ring_vertices
         previous_ring_vertices].
    unfold egg_last_ring_tris.
    rewrite egg_last_ring_tris_run by now apply egg_window_nonnil.
    rewrite iter_rotate_egg_window.
    rewrite !length_map, !length_app, !ring_bridge_length, !north_fan_length.
    rewrite egg_children_extend, <- map_app.
    rewrite pool_from_length, length_app, ring_points_length, HW.
    replace (Z.of_nat (Z.to_nat (1 + i * n) + Z.to_nat n))
      with (1 + (i + 1) * n) by nia.
    assert (EV : pool_from 0 (W ++ ring_points n (x, z))
                 ++ [mkEggVertex (1 + (i + 1) * n)
                                 (mkPoint3D (of_int 0) (of_int 0) (mul radius (of_int 2)))]
                 = pool_from 0 (W ++ ring_points n (x, z)
                                  ++ [mkPoint3D (of_int 0) (of_int 0) (mul radius (of_int 2))])).
    { rewrite (app_assoc W), (pool_from_app 0 (W ++ ring_points n (x, z))).
      cbn [pool_from]. rewrite length_app, ring_points_length, HW.
      do 3 f_equal. nia. }
    rewrite EV, <- !app_assoc, Nat.add_assoc. reflexivity.
  - rewrite !length_app, ring_bridge_length. reflexivity.
Qed.

Lemma egg_later_rings_run radius n m (mp : Z -> Point2D) k :
  forall i W T,
  0 < n -> 1 <= i -> i + Z.of_nat (S k) = m ->
  length W = Z.to_nat (1 + i * n) ->
  for_enumerate (map (fun j => Ok (mp j)) (range (i + 1) (m + 1))) i
    (egg_ring_body radius n (m - 1))
    (egg_between n W T (egg_window mp n (i - 1)))
  = (Ok tt,
     egg_between n
       (W ++ flat_map (fun r => ring_points n (mp (r + 1))) (range i m)
          ++ [mkPoint3D (of_int 0) (of_int 0) (mul radius (of_int 2))])
       (T ++ flat_map (fun r => ring_bridge egg_dflt (egg_window mp n (r - 1))
                                            (egg_window mp n r) (Z.to_nat n))
                      (range i m)
          ++ north_fan egg_dflt
               (mkEggVertex (1 + m * n) (mkPoint3D (of_int 0) (of_int 0) (mul radius (of_int 2))))
               (egg_window mp n (m - 1)) (Z.to_nat n))
       (egg_window mp n (m - 1))).
Proof.
  induction k as [|k IH]; intros i W T Hn Hi Hm HW.
  - assert (i = m - 1) by lia. subst i.
    replace (m - 1 + 1) with m in * by lia.
    rewrite (range_cons m) by lia. rewrite (range_nil (m + 1)) by lia.
    rewrite (range_cons (m - 1)) by lia.
    replace (m - 1 + 1) with m by lia. rewrite (range_nil m) by lia.
    cbn [map for_enumerate flat_map]. unfold bind at 1.
    pose proof (egg_later_ring_run radius n (m - 1) (m - 1) mp W T Hn Hi HW)
      as Hrun.
    replace (m - 1 + 1) with m in Hrun |- * by lia.
    rewrite Hrun, Z.eqb_refl. unfold ret. rewrite !app_nil_r. reflexivity.
  - rewrite (range_cons (i + 1)) by lia.
    rewrite (range_cons i m) by lia.
    cbn [map for_enumerate flat_map]. unfold bind at 1.
    rewrite egg_later_ring_run by lia.
    destruct (Z.eqb_spec i (m - 1)) as [|_]; [lia|].
    replace (egg_window mp n i) with (egg_window mp n (i + 1 - 1)) at 2
      by (f_equal; lia).
    rewrite IH; [|lia|lia|lia|].
    + rewrite <- !app_assoc. replace (i + 1 - 1) with i by lia. reflexivity.
    + rewrite length_app, ring_points_length, HW. nia.
Qed.

(** On valid arguments the polygon-form generator returns, and what it
    returns is the pool of all positions in creation order and one polygon
    per triangle of the traversal. *)
Lemma get_uv_sphere_egg_data_run radius n m :
  valid_arguments radius n m ->
  get_uv_sphere_egg_data radius n m egg_nothing
  = (Ok (egg_result radius n m), egg_final radius n m).
Proof.
  intros Hv. pose proof Hv as (Hr & Hn & Hm).
  unfold get_uv_sphere_egg_data.
  unfold bind at 1. rewrite check_error_conditions_valid by assumption.
  unfold bind at 1. unfold add_to_egg_data at 1. unfold modify, egg_nothing.
  cbn [data_children vpool polygons current_ring_vertices
       previous_ring_vertices app].
  unfold bind at 1. unfold add_to_egg_data at 1. unfold modify.
  cbn [data_children vpool polygons current_ring_vertices
       previous_ring_vertices app].
  unfold bind at 1. unfold set_current_ring_vertices at 1. unfold modify.
  cbn [data_children vpool polygons current_ring_vertices
       previous_ring_vertices].
  unfold bind at 1. unfold set_previous_ring_vertices at 1. unfold modify.
  cbn [data_children vpool polygons current_ring_vertices
       previous_ring_vertices].
  rewrite segment_points_xz_ok by lia.
  rewrite (range_cons 1) by lia. cbn [map for_enumerate].
  unfold bind at 1. unfold bind at 1.
  rewrite (egg_first_ring_run radius n (m - 1) (meridian_point radius m)) by lia.
  replace (1 + 1) with (0 + 1 + 1) by lia.
  replace (egg_window (meridian_point radius m) n 0)
    with (egg_window (meridian_point radius m) n (0 + 1 - 1)) at 2
    by (f_equal; lia).
  rewrite (egg_later_rings_run radius n m (meridian_point radius m)
             (Z.to_nat (m - 2))); [|lia|lia|lia|].
  2:{ cbn [length]. rewrite ring_points_length. lia. }
  unfold egg_between.
  unfold bind at 1. unfold set_previous_ring_vertices at 1. unfold modify.
  cbn [data_children vpool polygons current_ring_vertices
       previous_ring_vertices].
  unfold bind at 1. unfold set_current_ring_vertices at 1. unfold modify.
  cbn [data_children vpool polygons current_ring_vertices
       previous_ring_vertices].
  unfold bind at 1. unfold gets, ret.
  cbn [data_children vpool polygons current_ring_vertices
       previous_ring_vertices].
  unfold deque_clear. cbn [dq_maxlen].
  assert (EW : (mkPoint3D (of_int 0) (of_int 0) (of_int 0)
                :: ring_points n (meridian_point radius m 1))
               ++ flat_map (fun r => ring_points n (meridian_point radius m (r + 1)))
                           (range (0 + 1) m)
               ++ [mkPoint3D (of_int 0) (of_int 0) (mul radius (of_int 2))]
               = sphere_points radius n m).
  { unfold sphere_points. rewrite (range_cons 0 m) by lia.
    cbn [flat_map]. rewrite <- !app_assoc. reflexivity. }
  rewrite EW.
  unfold egg_final, egg_result, egg_triangles.
  cbn [egg_children egg_vertex_pool egg_polygons].
  reflexivity.
Qed.

End EggLoops.

(** ** The traversal, triangle by triangle *)

Lemma nth_ring_window n r i :
  (i < Z.to_nat n)%nat ->
  nth i (ring_window n r) 0 = ring_vertex_index n r (Z.of_nat i).
Proof.
  intros H. unfold ring_window.
  rewrite nth_indep with (d' := ring_vertex_index n r 0)
    by (rewrite length_map, range_length; lia).
  rewrite map_nth, nth_range by lia. f_equal.
Qed.

Lemma nth_pred_ring_window n r i :
  (i < Z.to_nat n)%nat ->
  nth (pred_mod (Z.to_nat n) i) (ring_window n r) 0
  = ring_vertex_index n r (wrap_pred n (Z.of_nat i)).
Proof.
  intros H. unfold wrap_pred. destruct i as [|i]; simpl pred_mod.
  - rewrite nth_ring_window by lia. cbn [Z.of_nat Z.eqb]. f_equal. lia.
  - rewrite nth_ring_window by lia.
    destruct (Z.eqb_spec (Z.of_nat (S i)) 0); [lia|]. f_equal. lia.
Qed.

Lemma map_range {A} (f : Z -> A) n :
  map f (range 0 n) = map (fun i => f (Z.of_nat i)) (seq 0 (Z.to_nat n)).
Proof.
  unfold range. rewrite map_map. replace (n - 0) with n by lia.
  apply map_ext. intros i. f_equal.
Qed.

Lemma flat_map_range {A} (f : Z -> list A) n :
  flat_map f (range 0 n)
  = flat_map (fun i => f (Z.of_nat i)) (seq 0 (Z.to_nat n)).
Proof.
  unfold range. replace (n - 0) with n by lia.
  rewrite !flat_map_concat_map, map_map. reflexivity.
Qed.

Lemma flat_map_ext_in {A B} (f g : A -> list B) l :
  (forall x, In x l -> f x = g x) -> flat_map f l = flat_map g l.
Proof.
  intros H. induction l as [|x l IH]; simpl; [reflexivity|].
  rewrite H by (left; reflexivity). rewrite IH; [reflexivity|].
  intros y Hy. apply H. right. exact Hy.
Qed.

Lemma map_flat_map {A B C} (g : B -> C) (f : A -> list B) (l : list A) :
  map g (flat_map f l) = flat_map (fun x => map g (f x)) l.
Proof.
  induction l as [|x l IH]; simpl; [reflexivity|].
  now rewrite map_app, IH.
Qed.

(** The specification's traversal, triangle by triangle. *)
Lemma spec_triangles_closed n m :
  spec_triangles n m = map (map3 (encode n m)) (mesh_triangles n m).
Proof.
  unfold spec_triangles, mesh_triangles, mesh_tags.
  rewrite !map_app, !map_map. f_equal; [|f_equal].
  - pose proof (south_fan_closed 0 south_pole_index (ring_window n 0)
                                 (Z.to_nat n) O) as H.
    cbn [Nat.iter nat_rect] in H. rewrite H by (rewrite ring_window_length; lia).
    rewrite map_range, ring_window_length.
    apply map_ext_in. intros i Hi. apply in_seq in Hi.
    rewrite nth_pred_ring_window, nth_ring_window by lia. reflexivity.
  - rewrite map_flat_map. apply flat_map_ext_in. intros r _.
    rewrite map_flat_map.
    pose proof (ring_bridge_closed 0 (ring_window n (r - 1))
                                   (ring_window n r) (Z.to_nat n) O) as H.
    cbn [Nat.iter nat_rect] in H. rewrite H by (rewrite ?ring_window_length; lia).
    rewrite flat_map_range, ring_window_length.
    apply flat_map_ext_in. intros i Hi. apply in_seq in Hi.
    rewrite !nth_pred_ring_window, !nth_ring_window by lia. reflexivity.
  - pose proof (north_fan_closed 0 (north_pole_index n m)
                                 (ring_window n (m - 1)) (Z.to_nat n) O) as H.
    cbn [Nat.iter nat_rect] in H. rewrite H by (rewrite ring_window_length; lia).
    rewrite map_range, ring_window_length.
    apply map_ext_in. intros i Hi. apply in_seq in Hi.
    rewrite nth_pred_ring_window, nth_ring_window by lia. reflexivity.
Qed.

(** ** Edges and the triangles around them *)

Lemma vertex_eqb_eq a b : vertex_eqb a b = true <-> a = b.
Proof.
  destruct a, b; simpl; split; intros H; try congruence; try reflexivity.
  - apply andb_true_iff in H. destruct H as [H1 H2].
    apply Z.eqb_eq in H1, H2. congruence.
  - inversion H; subst. now rewrite !Z.eqb_refl.
Qed.

Lemma same_edge_vertex a b x y :
  same_edge vertex_eqb a b x y = true
  <-> (a = x /\ b = y) \/ (a = y /\ b = x).
Proof.
  unfold same_edge. rewrite orb_true_iff, !andb_true_iff, !vertex_eqb_eq.
  reflexivity.
Qed.

Lemma has_edge_vertex a b x y z :
  has_edge vertex_eqb a b (x, y, z) = true
  <-> ((a = x /\ b = y) \/ (a = y /\ b = x))
      \/ ((a = y /\ b = z) \/ (a = z /\ b = y))
      \/ ((a = z /\ b = x) \/ (a = x /\ b = z)).
Proof.
  unfold has_edge. rewrite !orb_true_iff, !same_edge_vertex. tauto.
Qed.

Lemma In_mesh_tags n m t : In t (mesh_tags n m) <-> wf_tag n m t.
Proof.
  unfold mesh_tags. rewrite !in_app_iff, !in_map_iff, in_flat_map. split.
  - intros [(k & <- & Hk)|[(r & Hr & Hin)|(k & <- & Hk)]].
    + apply In_range in Hk. exact Hk.
    + apply in_flat_map in Hin. destruct Hin as (k & Hk & Hin).
      apply In_range in Hr, Hk.
      destruct Hin as [<-|[<-|[]]]; simpl; lia.
    + apply In_range in Hk. exact Hk.
  - destruct t as [k|r k|r k|k]; simpl; intros H.
    + left. exists k. split; [reflexivity|]. now apply In_range.
    + right; left. exists r. split; [apply In_range; lia|].
      apply in_flat_map. exists k. split; [apply In_range; lia|].
      left; reflexivity.
    + right; left. exists r. split; [apply In_range; lia|].
      apply in_flat_map. exists k. split; [apply In_range; lia|].
      right; left; reflexivity.
    + right; right. exists k. split; [reflexivity|]. now apply In_range.
Qed.

Lemma NoDup_flat_map {A B} (f : A -> list B) (l : list A) :
  NoDup l ->
  (forall x, In x l -> NoDup (f x)) ->
  (forall x y z, In x l -> In y l -> In z (f x) -> In z (f y) -> x = y) ->
  NoDup (flat_map f l).
Proof.
  intros Hl. induction Hl as [|x l Hx Hl IH]; intros Hf Hd; simpl.
  - constructor.
  - apply NoDup_app.
    + apply Hf. now left.
    + apply IH.
      * intros y Hy. apply Hf. now right.
      * intros y1 y2 z H1 H2. apply Hd; now right.
    + intros z Hz Hz'. apply in_flat_map in Hz'.
      destruct Hz' as (y & Hy & Hzy).
      assert (x = y) by (apply (Hd x y z); [now left|now right|assumption..]).
      subst y. contradiction.
Qed.

Lemma mesh_tags_NoDup n m : NoDup (mesh_tags n m).
Proof.
  unfold mesh_tags. apply NoDup_app; [|apply NoDup_app|].
  - apply Injective_map_NoDup; [|apply range_NoDup].
    intros a b H. congruence.
  - apply NoDup_flat_map.
    + apply range_NoDup.
    + intros r _. apply NoDup_flat_map.
      * apply range_NoDup.
      * intros k _. constructor; [|constructor; [|constructor]].
        -- intros [H|[]]. discriminate.
        -- intros [].
      * intros k k' z _ _ [<-|[<-|[]]] [H|[H|[]]]; congruence.
    + intros r r' z _ _ H1 H2. apply in_flat_map in H1, H2.
      destruct H1 as (k & _ & [<-|[<-|[]]]);
        destruct H2 as (k' & _ & [H|[H|[]]]); congruence.
  - apply Injective_map_NoDup; [|apply range_NoDup].
    intros a b H. congruence.
  - intros t Ht Ht'. apply in_flat_map in Ht.
    destruct Ht as (r & _ & Ht). apply in_flat_map in Ht.
    destruct Ht as (k & _ & [<-|[<-|[]]]);
      apply in_map_iff in Ht'; destruct Ht' as (k' & H & _); discriminate.
  - intros t Ht Ht'. apply in_map_iff in Ht. destruct Ht as (k & <- & _).
    apply in_app_iff in Ht'. destruct Ht' as [Ht'|Ht'].
    + apply in_flat_map in Ht'. destruct Ht' as (r & _ & Ht').
      apply in_flat_map in Ht'.
      destruct Ht' as (k' & _ & [H|[H|[]]]); discriminate.
    + apply in_map_iff in Ht'. destruct Ht' as (k' & H & _). discriminate.
Qed.

(** A predicate that holds of exactly two members of a duplicate-free list
    selects two of its elements. *)
Lemma filter_exactly_two {A} (p : A -> bool) (l : list A) (t1 t2 : A) :
  NoDup l -> t1 <> t2 -> In t1 l -> In t2 l ->
  p t1 = true -> p t2 = true ->
  (forall t, In t l -> p t = true -> t = t1 \/ t = t2) ->
  length (filter p l) = 2%nat.
Proof.
  intros Hnd Hne H1 H2 Hp1 Hp2 Hall.
  assert (HP : Permutation (filter p l) [t1; t2]).
  { apply NoDup_Permutation.
    - now apply NoDup_filter.
    - constructor; [intros [H|[]]; congruence|].
      constructor; [intros []|constructor].
    - intros t. rewrite filter_In. split.
      + intros [Hin Hp]. destruct (Hall t Hin Hp) as [->| ->];
          [now left|right; now left].
      + intros [<-|[<-|[]]]; split; assumption. }
  apply Permutation_length in HP. exact HP.
Qed.

(** ** Every edge lies in exactly two triangles *)

Lemma ring_vertex_inj r s r' s' :
  RingVertex r s = RingVertex r' s' -> r = r' /\ s = s'.
Proof. intros H. injection H. auto. Qed.

(** Case analysis on the wrapped positions. *)
Ltac unwrap :=
  unfold wrap_pred, wrap_succ in *;
  repeat match goal with
         | |- context [?a =? ?b] => destruct (Z.eqb_spec a b)
         | H : context [?a =? ?b] |- _ => destruct (Z.eqb_spec a b)
         end.

Ltac vertex_eq := first [reflexivity | f_equal; lia].

(** The triangle of the goal has the given edge. *)
Ltac edge_holds :=
  apply has_edge_vertex; unwrap; try lia;
  first
    [ left; left; split; vertex_eq
    | left; right; split; vertex_eq
    | right; left; left; split; vertex_eq
    | right; left; right; split; vertex_eq
    | right; right; left; split; vertex_eq
    | right; right; right; split; vertex_eq ].

Ltac tag_eq :=
  first [ left; solve [f_equal; lia] | right; solve [f_equal; lia] ].

(** Any triangle with the given edge is one of the two named ones. *)
Ltac edge_unique :=
  let t := fresh "t" in
  let Hin := fresh "Hin" in
  let Hp := fresh "Hp" in
  intros t Hin Hp; apply In_mesh_tags in Hin;
  destruct t; cbn [tri_of_tag wf_tag] in Hin, Hp;
  apply has_edge_vertex in Hp;
  repeat match goal with
         | H : _ \/ _ |- _ => destruct H
         | H : _ /\ _ |- _ => destruct H
         end;
  try discriminate;
  repeat match goal with
         | H : RingVertex _ _ = RingVertex _ _ |- _ =>
             apply ring_vertex_inj in H; destruct H
         end;
  unwrap; try lia; tag_eq.

Ltac two_triangles t1 t2 :=
  apply (filter_exactly_two _ _ t1 t2);
  [ apply mesh_tags_NoDup
  | unwrap; first [discriminate | let H := fresh in intros H; injection H; lia]
  | apply In_mesh_tags; cbn [wf_tag]; unwrap; lia
  | apply In_mesh_tags; cbn [wf_tag]; unwrap; lia
  | cbn [tri_of_tag]; edge_holds
  | cbn [tri_of_tag]; edge_holds
  | edge_unique ].

Section Manifold.
Variables n m : Z.
Hypothesis Hn : 3 <= n.
Hypothesis Hm : 3 <= m.

Lemma south_fan_edges k :
  0 <= k < n ->
  mesh_edge_count n m SouthPole (RingVertex 0 k) = 2%nat
  /\ mesh_edge_count n m (RingVertex 0 k) (RingVertex 0 (wrap_pred n k)) = 2%nat
  /\ mesh_edge_count n m (RingVertex 0 (wrap_pred n k)) SouthPole = 2%nat.
Proof.
  intros Hk. unfold mesh_edge_count. split; [|split].
  - two_triangles (TSouth k) (TSouth (wrap_succ n k)).
  - two_triangles (TSouth k) (TDown 1 k).
  - two_triangles (TSouth k) (TSouth (wrap_pred n k)).
Qed.

Lemma up_triangle_edges r k :
  1 <= r < m -> 0 <= k < n ->
  mesh_edge_count n m (RingVertex (r - 1) (wrap_pred n k)) (RingVertex r k)
  = 2%nat
  /\ mesh_edge_count n m (RingVertex r k) (RingVertex r (wrap_pred n k))
     = 2%nat
  /\ mesh_edge_count n m (RingVertex r (wrap_pred n k))
                     (RingVertex (r - 1) (wrap_pred n k)) = 2%nat.
Proof.
  intros Hr Hk. unfold mesh_edge_count. split; [|split].
  - two_triangles (TUp r k) (TDown r k).
  - destruct (Z.eq_dec r (m - 1)).
    + two_triangles (TUp r k) (TNorth k).
    + two_triangles (TUp r k) (TDown (r + 1) k).
  - two_triangles (TUp r k) (TDown r (wrap_pred n k)).
Qed.

Lemma down_triangle_edges r k :
  1 <= r < m -> 0 <= k < n ->
  mesh_edge_count n m (RingVertex r k) (RingVertex (r - 1) (wrap_pred n k))
  = 2%nat
  /\ mesh_edge_count n m (RingVertex (r - 1) (wrap_pred n k))
                     (RingVertex (r - 1) k) = 2%nat
  /\ mesh_edge_count n m (RingVertex (r - 1) k) (RingVertex r k) = 2%nat.
Proof.
  intros Hr Hk. unfold mesh_edge_count. split; [|split].
  - two_triangles (TDown r k) (TUp r k).
  - destruct (Z.eq_dec r 1).
    + two_triangles (TDown r k) (TSouth k).
    + two_triangles (TDown r k) (TUp (r - 1) k).
  - two_triangles (TDown r k) (TUp r (wrap_succ n k)).
Qed.

Lemma north_fan_edges k :
  0 <= k < n ->
  mesh_edge_count n m NorthPole (RingVertex (m - 1) (wrap_pred n k)) = 2%nat
  /\ mesh_edge_count n m (RingVertex (m - 1) (wrap_pred n k))
                     (RingVertex (m - 1) k) = 2%nat
  /\ mesh_edge_count n m (RingVertex (m - 1) k) NorthPole = 2%nat.
Proof.
  intros Hk. unfold mesh_edge_count. split; [|split].
  - two_triangles (TNorth k) (TNorth (wrap_pred n k)).
  - two_triangles (TNorth k) (TUp (m - 1) k).
  - two_triangles (TNorth k) (TNorth (wrap_succ n k)).
Qed.

(** Each edge of each triangle joins two distinct vertices and lies in
    exactly two triangles. *)
Lemma mesh_edges_in_two_triangles tag a b :
  wf_tag n m tag ->
  In (a, b) (triangle_edges (tri_of_tag n m tag)) ->
  a <> b /\ mesh_edge_count n m a b = 2%nat.
Proof.
  intros Hwf Hin. destruct tag as [k|r k|r k|k]; cbn [wf_tag] in Hwf;
    cbn [tri_of_tag triangle_edges] in Hin.
  - destruct (south_fan_edges k Hwf) as (E1 & E2 & E3).
    destruct Hin as [H|[H|[H|[]]]]; injection H as <- <-;
      (split; [|assumption]); try discriminate.
    intros E. apply ring_vertex_inj in E. unwrap; lia.
  - destruct Hwf as [Hr Hk].
    destruct (up_triangle_edges r k Hr Hk) as (E1 & E2 & E3).
    destruct Hin as [H|[H|[H|[]]]]; injection H as <- <-;
      (split; [|assumption]);
      intros E; apply ring_vertex_inj in E; unwrap; lia.
  - destruct Hwf as [Hr Hk].
    destruct (down_triangle_edges r k Hr Hk) as (E1 & E2 & E3).
    destruct Hin as [H|[H|[H|[]]]]; injection H as <- <-;
      (split; [|assumption]);
      intros E; apply ring_vertex_inj in E; unwrap; lia.
  - destruct (north_fan_edges k Hwf) as (E1 & E2 & E3).
    destruct Hin as [H|[H|[H|[]]]]; injection H as <- <-;
      (split; [|assumption]); try discriminate.
    intros E. apply ring_vertex_inj in E. unwrap; lia.
Qed.
End Manifold.

(** *** From roles to flat indices *)

Lemma ring_vertex_index_inj n r s r' s' :
  0 <= s < n -> 0 <= s' < n ->
  ring_vertex_index n r s = ring_vertex_index n r' s' -> r = r' /\ s = s'.
Proof.
  unfold ring_vertex_index. intros Hs Hs' H.
  assert (r = r') by nia. subst r'. split; [reflexivity|lia].
Qed.

Lemma ring_vertex_index_range n m r s :
  0 < n -> 0 <= r < m -> 0 <= s < n ->
  south_pole_index < ring_vertex_index n r s < north_pole_index n m.
Proof.
  unfold south_pole_index, ring_vertex_index, north_pole_index.
  intros Hn Hr Hs.
  assert (0 <= r * n) by nia.
  assert ((r + 1) * n <= m * n) by nia. lia.
Qed.

Lemma encode_inj n m a b :
  0 < n -> 0 <= m -> wf_vertex n m a -> wf_vertex n m b ->
  encode n m a = encode n m b -> a = b.
Proof.
  intros Hn Hm Ha Hb H.
  destruct a as [| |r s], b as [| |r' s']; cbn [encode wf_vertex] in *.
  - reflexivity.
  - exfalso. unfold south_pole_index, north_pole_index in *. nia.
  - destruct Hb as [Hr' Hs'].
    pose proof (ring_vertex_index_range n m r' s' Hn Hr' Hs'). lia.
  - exfalso. unfold south_pole_index, north_pole_index in *. nia.
  - reflexivity.
  - destruct Hb as [Hr' Hs'].
    pose proof (ring_vertex_index_range n m r' s' Hn Hr' Hs'). lia.
  - destruct Ha as [Hr Hs].
    pose proof (ring_vertex_index_range n m r s Hn Hr Hs). lia.
  - destruct Ha as [Hr Hs].
    pose proof (ring_vertex_index_range n m r s Hn Hr Hs). lia.
  - destruct Ha as [Hr Hs], Hb as [Hr' Hs'].
    destruct (ring_vertex_index_inj n r s r' s') as [-> ->];
      [lia|lia|assumption|reflexivity].
Qed.

Lemma encode_eqb n m a b :
  0 < n -> 0 <= m -> wf_vertex n m a -> wf_vertex n m b ->
  (encode n m a =? encode n m b) = vertex_eqb a b.
Proof.
  intros Hn Hm Ha Hb.
  destruct (Z.eqb_spec (encode n m a) (encode n m b)) as [E|E].
  - apply encode_inj in E; try assumption. subst b.
    symmetry. now apply vertex_eqb_eq.
  - destruct (vertex_eqb a b) eqn:V; [|reflexivity].
    apply vertex_eqb_eq in V. congruence.
Qed.

Lemma tri_of_tag_wf n m tag :
  3 <= n -> 3 <= m -> wf_tag n m tag -> wf_triangle n m (tri_of_tag n m tag).
Proof.
  intros Hn Hm H. destruct tag; simpl in *; unwrap; lia.
Qed.

Lemma has_edge_encode n m a b t :
  0 < n -> 0 <= m ->
  wf_vertex n m a -> wf_vertex n m b -> wf_triangle n m t ->
  has_edge Z.eqb (encode n m a) (encode n m b) (map3 (encode n m) t)
  = has_edge vertex_eqb a b t.
Proof.
  intros Hn Hm Ha Hb Ht. destruct t as [[x y] z].
  destruct Ht as (Hx & Hy & Hz).
  unfold has_edge, map3, same_edge.
  rewrite !(encode_eqb n m) by assumption. reflexivity.
Qed.

Lemma filter_map_length {A B} (p : B -> bool) (f : A -> B) (l : list A) :
  length (filter p (map f l)) = length (filter (fun x => p (f x)) l).
Proof.
  induction l as [|x l IH]; simpl; [reflexivity|].
  destruct (p (f x)); simpl; now rewrite IH.
Qed.

Lemma triangle_edges_wf n m t a b :
  wf_triangle n m t -> In (a, b) (triangle_edges t) ->
  wf_vertex n m a /\ wf_vertex n m b.
Proof.
  destruct t as [[x y] z]. intros (Hx & Hy & Hz) Hin.
  destruct Hin as [H|[H|[H|[]]]]; injection H as <- <-; auto.
Qed.

Lemma triangle_edges_map3 {A B} (f : A -> B) (t : A * A * A) :
  triangle_edges (map3 f t)
  = map (fun e => (f (fst e), f (snd e))) (triangle_edges t).
Proof. destruct t as [[x y] z]. reflexivity. Qed.

(** The flat triangle list inherits the property. *)
Lemma spec_triangles_manifold n m t a b :
  3 <= n -> 3 <= m ->
  In t (spec_triangles n m) -> In (a, b) (triangle_edges t) ->
  a <> b /\ edge_count Z.eqb a b (spec_triangles n m) = 2%nat.
Proof.
  intros Hn Hm Ht Hab. rewrite spec_triangles_closed in Ht |- *.
  unfold mesh_triangles in Ht |- *. rewrite map_map in Ht |- *.
  apply in_map_iff in Ht. destruct Ht as (tag & <- & Htag).
  apply In_mesh_tags in Htag.
  pose proof (tri_of_tag_wf n m tag Hn Hm Htag) as Hwf.
  rewrite triangle_edges_map3 in Hab. apply in_map_iff in Hab.
  destruct Hab as ([a' b'] & E & Hab). cbn [fst snd] in E.
  injection E as <- <-.
  destruct (triangle_edges_wf n m _ a' b' Hwf Hab) as [Ha Hb].
  destruct (mesh_edges_in_two_triangles n m Hn Hm tag a' b' Htag Hab)
    as [Hne Hcount].
  split.
  - intros E. apply Hne. apply (encode_inj n m); try assumption; lia.
  - unfold edge_count. rewrite filter_map_length.
    rewrite <- Hcount. unfold mesh_edge_count. f_equal.
    apply filter_ext_in. intros tg Htg. apply In_mesh_tags in Htg.
    apply has_edge_encode; try assumption; try lia.
    now apply tri_of_tag_wf.
Qed.
(** C4.  For valid arguments the generated triangle list is a closed
    manifold: each edge of each emitted triangle joins two distinct vertex
    indices and is an edge of exactly two emitted triangles. *)
Theorem geom_closed_manifold {A : Arithmetic} {L : Lawful A}
        (radius : num) segments rings :
  valid_arguments radius segments rings ->
  exists g st,
    get_uv_sphere_geom radius segments rings geom_nothing = (Ok g, st)
    /\ forall t a b,
         In t (geom_triangles g) -> In (a, b) (triangle_edges t) ->
         a <> b /\ edge_count Z.eqb a b (geom_triangles g) = 2%nat.
Proof.
  intros Hv. pose proof Hv as (Hr & Hn & Hm).
  eexists. eexists. split; [apply get_uv_sphere_geom_run; assumption|].
  cbn [geom_triangles]. intros t a b Ht Hab.
  now apply (spec_triangles_manifold segments rings t).
Qed.

Lemma geom_closed_manifold_1_3_3 :
  exists g st,
    get_uv_sphere_geom (A := exact) 1%R 3 3 geom_nothing = (Ok g, st)
    /\ forall t a b,
         In t (geom_triangles g) -> In (a, b) (triangle_edges t) ->
         a <> b /\ edge_count Z.eqb a b (geom_triangles g) = 2%nat.
Proof.
  apply (geom_closed_manifold (A := exact) 1%R 3 3).
  apply exact_valid; [lra|lia|lia].
Defined.

(** The edge between vertices 3 and 4 of the smallest sphere lies in the
    triangles (3, 4, 6) and (4, 3, 1). *)
Example edge_3_4_of_sphere_3_3 :
  filter (has_edge Z.eqb 3 4) (spec_triangles 3 3) = [(3, 4, 6); (4, 3, 1)].
Proof. reflexivity. Qed.

(** ** The polygon form against the flat form *)

Lemma rotate_step_map {A B} (f : A -> B) (w : list A) :
  rotate_step (map f w) = map f (rotate_step w).
Proof. rewrite !rotate_step_eq. apply rotate_left_map. Qed.

Lemma front_map {A B} (f : A -> B) d (w : list A) :
  front (f d) (map f w) = f (front d w).
Proof. destruct w; reflexivity. Qed.

Lemma back_map {A B} (f : A -> B) d (w : list A) :
  back (f d) (map f w) = f (back d w).
Proof.
  unfold back. induction w as [|x w IH]; [reflexivity|].
  destruct w as [|y w]; [reflexivity|].
  change (last (map f (x :: y :: w)) (f d))
    with (last (map f (y :: w)) (f d)).
  rewrite IH. reflexivity.
Qed.

Lemma south_fan_map {A B} (f : A -> B) d pole k : forall w,
  map (map3 f) (south_fan d pole w k)
  = south_fan (f d) (f pole) (map f w) k.
Proof.
  induction k as [|k IH]; intros w; [reflexivity|].
  cbn [south_fan map map3].
  now rewrite IH, front_map, back_map, rotate_step_map.
Qed.

Lemma ring_bridge_map {A B} (f : A -> B) d k : forall p c,
  map (map3 f) (ring_bridge d p c k)
  = ring_bridge (f d) (map f p) (map f c) k.
Proof.
  induction k as [|k IH]; intros p c; [reflexivity|].
  cbn [ring_bridge map map3].
  now rewrite IH, !front_map, !back_map, !rotate_step_map.
Qed.

Lemma north_fan_map {A B} (f : A -> B) d pole k : forall w,
  map (map3 f) (north_fan d pole w k)
  = north_fan (f d) (f pole) (map f w) k.
Proof.
  induction k as [|k IH]; intros w; [reflexivity|].
  cbn [north_fan map map3].
  now rewrite IH, front_map, back_map, rotate_step_map.
Qed.

Lemma map_of_nat_seq a len :
  map Z.of_nat (seq a len)
  = map (fun j => Z.of_nat a + Z.of_nat j) (seq 0 len).
Proof.
  revert a. induction len as [|len IH]; intros a; [reflexivity|].
  cbn [seq map]. rewrite IH, <- (seq_shift len 0), map_map.
  f_equal; [lia|]. apply map_ext. intros j. lia.
Qed.

Lemma rotate_step_In {A} (x : A) w : In x (rotate_step w) <-> In x w.
Proof.
  rewrite rotate_step_eq. destruct w as [|y w]; simpl; [tauto|].
  rewrite in_app_iff. simpl. tauto.
Qed.

Lemma front_In {A} (d : A) w : w <> [] -> In (front d w) w.
Proof. destruct w; [congruence|]. intros _. now left. Qed.

Lemma back_In {A} (d : A) w : w <> [] -> In (back d w) w.
Proof.
  intros H. destruct (exists_last H) as (w' & x & ->).
  unfold back. rewrite last_last. apply in_app_iff. right. now left.
Qed.

Lemma rotate_step_nonnil {A} (w : list A) : w <> [] -> rotate_step w <> [].
Proof. rewrite rotate_step_eq. apply rotate_left_nonnil. Qed.

Lemma south_fan_vertices {A} (d : A) pole k : forall w t v,
  w <> [] -> In t (south_fan d pole w k) -> In v (triangle_vertices t) ->
  v = pole \/ In v w.
Proof.
  induction k as [|k IH]; intros w t v Hw Ht Hv; [destruct Ht|].
  destruct Ht as [<-|Ht].
  - destruct Hv as [<-|[<-|[<-|[]]]];
      [now left|right; now apply front_In|right; now apply back_In].
  - destruct (IH _ _ _ (rotate_step_nonnil w Hw) Ht Hv) as [H|H];
      [now left|right; now apply rotate_step_In].
Qed.

Lemma north_fan_vertices {A} (d : A) pole k : forall w t v,
  w <> [] -> In t (north_fan d pole w k) -> In v (triangle_vertices t) ->
  v = pole \/ In v w.
Proof.
  induction k as [|k IH]; intros w t v Hw Ht Hv; [destruct Ht|].
  destruct Ht as [<-|Ht].
  - destruct Hv as [<-|[<-|[<-|[]]]];
      [now left|right; now apply back_In|right; now apply front_In].
  - destruct (IH _ _ _ (rotate_step_nonnil w Hw) Ht Hv) as [H|H];
      [now left|right; now apply rotate_step_In].
Qed.

Lemma ring_bridge_vertices {A} (d : A) k : forall p c t v,
  p <> [] -> c <> [] ->
  In t (ring_bridge d p c k) -> In v (triangle_vertices t) ->
  In v p \/ In v c.
Proof.
  induction k as [|k IH]; intros p c t v Hp Hc Ht Hv; [destruct Ht|].
  destruct Ht as [<-|[<-|Ht]].
  - destruct Hv as [<-|[<-|[<-|[]]]];
      [left; now apply back_In|right; now apply front_In
      |right; now apply back_In].
  - destruct Hv as [<-|[<-|[<-|[]]]];
      [right; now apply front_In|left; now apply back_In
      |left; now apply front_In].
  - destruct (IH _ _ _ _ (rotate_step_nonnil p Hp) (rotate_step_nonnil c Hc)
                 Ht Hv) as [H|H];
      [left|right]; now apply rotate_step_In.
Qed.

Lemma seq_from a b : seq a b = map (Nat.add a) (seq 0 b).
Proof.
  revert a. induction b as [|b IH]; intros a; [reflexivity|].
  cbn [seq map]. rewrite (IH (S a)), <- (seq_shift b 0), map_map.
  f_equal; [lia|]. apply map_ext. intros j. lia.
Qed.

Lemma range_app lo k hi :
  lo <= k <= hi -> range lo hi = range lo k ++ range k hi.
Proof.
  intros H. unfold range.
  replace (Z.to_nat (hi - lo))
    with (Z.to_nat (k - lo) + Z.to_nat (hi - k))%nat by lia.
  rewrite seq_app, map_app. f_equal. cbn [Nat.add].
  rewrite (seq_from (Z.to_nat (k - lo))), map_map.
  apply map_ext. intros j. lia.
Qed.

Section PolygonForm.
Context {A : Arithmetic} {L : Lawful A}.

Lemma egg_window_index mp n r :
  0 <= r -> 0 <= n ->
  map ev_index (egg_window mp n r) = ring_window n r.
Proof.
  intros Hr Hn. unfold egg_window.
  rewrite pool_from_index, ring_points_length, map_of_nat_seq.
  rewrite ring_window_range. unfold range.
  replace (r * n + 1 + n - (r * n + 1)) with n by lia.
  apply map_ext. intros j. rewrite Z2Nat.id by nia. lia.
Qed.

(** The polygons' vertex numbers are the flat form's triangle indices. *)
Lemma egg_triangles_index radius n m :
  0 <= n -> 1 <= m ->
  map (map3 ev_index) (egg_triangles radius n m) = spec_triangles n m.
Proof.
  intros Hn Hm. unfold egg_triangles, spec_triangles.
  rewrite !map_app, south_fan_map, north_fan_map, map_flat_map.
  rewrite !egg_window_index by lia.
  f_equal. f_equal.
  apply flat_map_ext_in. intros r Hr. apply In_range in Hr.
  rewrite ring_bridge_map, !egg_window_index by lia. reflexivity.
Qed.

Lemma sphere_points_split radius n m r :
  0 <= r < m ->
  sphere_points radius n m
  = (mkPoint3D (of_int 0) (of_int 0) (of_int 0)
     :: flat_map (fun i => ring_points n (meridian_point radius m (i + 1)))
                 (range 0 r))
    ++ ring_points n (meridian_point radius m (r + 1))
    ++ flat_map (fun i => ring_points n (meridian_point radius m (i + 1)))
                (range (r + 1) m)
    ++ [mkPoint3D (of_int 0) (of_int 0) (mul radius (of_int 2))].
Proof.
  intros Hr. unfold sphere_points.
  rewrite (range_app 0 r m) by lia. rewrite (range_cons r m) by lia.
  rewrite flat_map_app. cbn [flat_map]. rewrite <- !app_assoc. reflexivity.
Qed.

Lemma egg_window_in_pool radius n m r v :
  0 <= n -> 0 <= r < m ->
  In v (egg_window (meridian_point radius m) n r) ->
  In v (pool_from 0 (sphere_points radius n m)).
Proof.
  intros Hn Hr Hv. rewrite (sphere_points_split radius n m r Hr).
  rewrite pool_from_app, pool_from_app. apply in_app_iff. right.
  apply in_app_iff. left.
  cbn [length Nat.add].
  rewrite (flat_map_length_const _ (Z.to_nat n))
    by (intros; apply ring_points_length).
  rewrite range_length. unfold egg_window in Hv.
  replace (S (Z.to_nat (r - 0) * Z.to_nat n)) with (Z.to_nat (1 + r * n))
    by nia.
  exact Hv.
Qed.

Lemma south_vertex_in_pool radius n m :
  In (mkEggVertex 0 (mkPoint3D (of_int 0) (of_int 0) (of_int 0))) (pool_from 0 (sphere_points radius n m)).
Proof. left. reflexivity. Qed.

Lemma north_vertex_in_pool radius n m :
  0 <= n -> 0 <= m ->
  In (mkEggVertex (1 + m * n) (mkPoint3D (of_int 0) (of_int 0) (mul radius (of_int 2))))
     (pool_from 0 (sphere_points radius n m)).
Proof.
  intros Hn Hm. unfold sphere_points.
  change (mkPoint3D (of_int 0) (of_int 0) (of_int 0)
          :: flat_map (fun r => ring_points n (meridian_point radius m (r + 1)))
                      (range 0 m) ++ [mkPoint3D (of_int 0) (of_int 0) (mul radius (of_int 2))])
    with ((mkPoint3D (of_int 0) (of_int 0) (of_int 0)
           :: flat_map (fun r => ring_points n (meridian_point radius m (r + 1)))
                       (range 0 m)) ++ [mkPoint3D (of_int 0) (of_int 0) (mul radius (of_int 2))]).
  rewrite pool_from_app. apply in_app_iff. right. left.
  cbn [length Nat.add].
  rewrite (flat_map_length_const _ (Z.to_nat n))
    by (intros; apply ring_points_length).
  rewrite range_length. f_equal. nia.
Qed.

(** Every vertex of every polygon is a vertex of the pool. *)
Lemma egg_triangles_in_pool radius n m t v :
  3 <= n -> 3 <= m ->
  In t (egg_triangles radius n m) -> In v (triangle_vertices t) ->
  In v (pool_from 0 (sphere_points radius n m)).
Proof.
  intros Hn Hm Ht Hv. unfold egg_triangles in Ht.
  apply in_app_iff in Ht. destruct Ht as [Ht|Ht];
    [|apply in_app_iff in Ht; destruct Ht as [Ht|Ht]].
  - destruct (south_fan_vertices _ _ _ _ t v
                (egg_window_nonnil _ n 0 ltac:(lia)) Ht Hv) as [->|H].
    + apply south_vertex_in_pool.
    + apply (egg_window_in_pool radius n m 0); [lia|lia|exact H].
  - apply in_flat_map in Ht. destruct Ht as (r & Hr & Ht).
    apply In_range in Hr.
    destruct (ring_bridge_vertices _ _ _ _ t v
                (egg_window_nonnil _ n (r - 1) ltac:(lia))
                (egg_window_nonnil _ n r ltac:(lia)) Ht Hv) as [H|H].
    + apply (egg_window_in_pool radius n m (r - 1)); [lia|lia|exact H].
    + apply (egg_window_in_pool radius n m r); [lia|lia|exact H].
  - destruct (north_fan_vertices _ _ _ _ t v
                (egg_window_nonnil _ n (m - 1) ltac:(lia)) Ht Hv) as [->|H].
    + apply north_vertex_in_pool; lia.
    + apply (egg_window_in_pool radius n m (m - 1)); [lia|lia|exact H].
Qed.

(** C6.  For valid arguments both generators return; the pool numbers its
    vertices 0, 1, 2, ... in the order of creation; under that numbering the
    sequence of polygon vertex triples is the sequence of flat index triples;
    row [k] of the flat table holds what the table keeps of the position of
    vertex [k] of the pool, its coordinates converted to single precision;
    and every polygon vertex is a vertex of the pool. *)
Theorem egg_and_geom_emit_the_same_triangles (radius : num) segments rings :
  valid_arguments radius segments rings ->
  exists g st e st',
    get_uv_sphere_geom radius segments rings geom_nothing = (Ok g, st)
    /\ get_uv_sphere_egg_data radius segments rings egg_nothing = (Ok e, st')
    /\ map ev_index (egg_vertex_pool e)
       = range 0 (Z.of_nat (length (egg_vertex_pool e)))
    /\ map (map ev_index) (egg_polygons e)
       = map triangle_vertices (geom_triangles g)
    /\ map (fun v => Some (stored (ev_pos v))) (egg_vertex_pool e)
       = geom_vertices g
    /\ (forall poly v, In poly (egg_polygons e) -> In v poly ->
                       In v (egg_vertex_pool e)).
Proof.
  intros Hv. pose proof Hv as (Hr & Hn & Hm).
  eexists. eexists. eexists. eexists.
  split; [apply get_uv_sphere_geom_run; assumption|].
  split; [apply get_uv_sphere_egg_data_run; assumption|].
  cbn [egg_result egg_vertex_pool egg_polygons geom_vertices geom_triangles].
  split; [|split; [|split]].
  - rewrite pool_from_index, pool_from_length. unfold range.
    rewrite Z.sub_0_r, Nat2Z.id. apply map_ext. intros k. lia.
  - rewrite <- (egg_triangles_index radius segments rings) by lia.
    rewrite !map_map. apply map_ext. intros [[a b] c]. reflexivity.
  - rewrite sphere_rows_eq.
    rewrite <- (pool_from_pos 0 (sphere_points radius segments rings)) at 2.
    now rewrite !map_map.
  - intros poly v Hpoly Hin. apply in_map_iff in Hpoly.
    destruct Hpoly as (t & <- & Ht).
    apply (egg_triangles_in_pool radius segments rings t v); assumption.
Qed.

(** ** The poles *)

Lemma pool_position_from W i d :
  0 <= i < Z.of_nat (length W) ->
  pool_position (pool_from 0 W) i = Some (nth (Z.to_nat i) W d).
Proof.
  intros H. unfold pool_position. destruct (Z.ltb_spec i 0); [lia|].
  rewrite <- (pool_from_pos 0 W) at 2.
  rewrite nth_indep with (d' := ev_pos egg_dflt)
    by (rewrite length_map, pool_from_length; lia).
  rewrite map_nth.
  rewrite (nth_error_nth' _ egg_dflt) by (rewrite pool_from_length; lia).
  reflexivity.
Qed.

(** C7.  For valid arguments the south pole (vertex 0) is exactly at
    (0, 0, 0) in the flat table and in the pool alike; the north pole (vertex
    [1 + rings * segments]) is at (0, 0, radius * 2) in the pool, and the
    flat table holds that height converted to single precision. *)
Theorem pole_positions (radius : num) segments rings :
  valid_arguments radius segments rings ->
  exists g st e st',
    get_uv_sphere_geom radius segments rings geom_nothing = (Ok g, st)
    /\ get_uv_sphere_egg_data radius segments rings egg_nothing = (Ok e, st')
    /\ vertex_at (geom_vertices g) south_pole_index
       = Some (mkPoint3D (of_int 0) (of_int 0) (of_int 0))
    /\ vertex_at (geom_vertices g) (north_pole_index segments rings)
       = Some (mkPoint3D (of_int 0) (of_int 0)
                         (float32 (mul radius (of_int 2))))
    /\ pool_position (egg_vertex_pool e) south_pole_index
       = Some (mkPoint3D (of_int 0) (of_int 0) (of_int 0))
    /\ pool_position (egg_vertex_pool e) (north_pole_index segments rings)
       = Some (mkPoint3D (of_int 0) (of_int 0) (mul radius (of_int 2))).
Proof.
  intros Hv. pose proof Hv as (Hr & Hn & Hm).
  eexists. eexists. eexists. eexists.
  split; [apply get_uv_sphere_geom_run; assumption|].
  split; [apply get_uv_sphere_egg_data_run; assumption|].
  cbn [egg_result egg_vertex_pool geom_vertices].
  assert (HL : Z.of_nat (length (sphere_points radius segments rings))
               = 2 + segments * rings)
    by (rewrite sphere_points_length; lia).
  assert (HR : Z.of_nat (length (sphere_rows radius segments rings))
               = 2 + segments * rings)
    by (rewrite sphere_rows_length; lia).
  split; [|split; [|split]].
  - unfold vertex_at, sphere_rows, stored. cbn.
    now rewrite float32_zero.
  - rewrite (vertex_at_written _ _ (stored (mkPoint3D (of_int 0) (of_int 0) (of_int 0))))
      by (unfold north_pole_index; nia).
    rewrite sphere_rows_nth, sphere_points_north by lia.
    unfold stored. cbn [px py pz]. now rewrite float32_zero.
  - reflexivity.
  - rewrite (pool_position_from _ _ (mkPoint3D (of_int 0) (of_int 0) (of_int 0)))
      by (unfold north_pole_index; nia).
    f_equal. apply sphere_points_north; lia.
Qed.
End PolygonForm.

Lemma egg_and_geom_emit_the_same_triangles_1_3_3 :
  exists g st e st',
    get_uv_sphere_geom (A := exact) 1%R 3 3 geom_nothing = (Ok g, st)
    /\ get_uv_sphere_egg_data (A := exact) 1%R 3 3 egg_nothing = (Ok e, st')
    /\ map (map ev_index) (egg_polygons e)
       = map triangle_vertices (geom_triangles g)
    /\ map (fun v => Some (stored (ev_pos v))) (egg_vertex_pool e)
       = geom_vertices g.
Proof.
  destruct (egg_and_geom_emit_the_same_triangles (A := exact) 1%R 3 3)
    as (g & st & e & st' & H1 & H2 & _ & H3 & H4 & _).
  - apply exact_valid; [lra|lia|lia].
  - exists g, st, e, st'. repeat split; assumption.
Defined.

Lemma pole_positions_5_16_8 :
  exists g st e st',
    get_uv_sphere_geom (A := exact) 5%R 16 8 geom_nothing = (Ok g, st)
    /\ get_uv_sphere_egg_data (A := exact) 5%R 16 8 egg_nothing = (Ok e, st')
    /\ vertex_at (geom_vertices g) 0 = Some (mkPoint3D (A := exact) 0%R 0%R 0%R)
    /\ vertex_at (geom_vertices g) 129 = Some (mkPoint3D (A := exact) 0%R 0%R (5 * 2)%R)
    /\ pool_position (egg_vertex_pool e) 0 = Some (mkPoint3D (A := exact) 0%R 0%R 0%R)
    /\ pool_position (egg_vertex_pool e) 129
       = Some (mkPoint3D (A := exact) 0%R 0%R (5 * 2)%R).
Proof.
  apply (pole_positions (A := exact) 5%R 16 8).
  apply exact_valid; [lra|lia|lia].
Defined.

(** ** Argument errors *)

Section ArgumentErrors.
Context {A : Arithmetic} {L : Lawful A}.

Lemma valid_or_invalid (radius : num) n m :
  valid_arguments radius n m \/ invalid_arguments radius n m.
Proof.
  unfold valid_arguments, invalid_arguments.
  destruct (leb radius (of_int 0)); [right; now left|].
  destruct (Z_lt_le_dec n 3); [right; right; now left|].
  destruct (Z_lt_le_dec m 3); [right; right; now right|].
  left. repeat split; [lia|lia].
Qed.

Lemma valid_not_invalid (radius : num) n m :
  valid_arguments radius n m -> ~ invalid_arguments radius n m.
Proof.
  unfold valid_arguments, invalid_arguments.
  intros (Hr & Hn & Hm) [H|[H|H]]; [congruence|lia|lia].
Qed.

Lemma check_error_conditions_invalid {S} (radius : num) n m (s : S) :
  invalid_arguments radius n m ->
  check_error_conditions radius n m s = (Raise ValueError, s).
Proof.
  intros H. unfold check_error_conditions.
  destruct (leb radius (of_int 0)) eqn:E; [reflexivity|].
  destruct (Z.ltb_spec n 3); [reflexivity|].
  destruct (Z.ltb_spec m 3); [reflexivity|].
  exfalso. destruct H as [H|[H|H]]; [congruence|lia|lia].
Qed.

Lemma get_uv_sphere_geom_invalid (radius : num) n m s :
  invalid_arguments radius n m ->
  get_uv_sphere_geom radius n m s = (Raise ValueError, s).
Proof.
  intros H. unfold get_uv_sphere_geom. unfold bind at 1.
  now rewrite check_error_conditions_invalid.
Qed.

Lemma get_uv_sphere_egg_data_invalid (radius : num) n m s :
  invalid_arguments radius n m ->
  get_uv_sphere_egg_data radius n m s = (Raise ValueError, s).
Proof.
  intros H. unfold get_uv_sphere_egg_data. unfold bind at 1.
  now rewrite check_error_conditions_invalid.
Qed.

(** C5.  Each generator raises [ValueError] exactly when [radius <= 0] or
    [segments < 3] or [rings < 3]; when it does, the store is left exactly
    as it was at the call, so no vertex table, pool, vertex or polygon has
    been created; otherwise it returns a result. *)
Theorem value_error_iff_invalid_arguments (radius : num) segments rings :
  (fst (get_uv_sphere_geom radius segments rings geom_nothing)
   = Raise ValueError
   <-> invalid_arguments radius segments rings)
  /\ (fst (get_uv_sphere_egg_data radius segments rings egg_nothing)
      = Raise ValueError
      <-> invalid_arguments radius segments rings)
  /\ (invalid_arguments radius segments rings ->
      (forall s, get_uv_sphere_geom radius segments rings s
                 = (Raise ValueError, s))
      /\ (forall s, get_uv_sphere_egg_data radius segments rings s
                    = (Raise ValueError, s)))
  /\ (~ invalid_arguments radius segments rings ->
      exists g st e st',
        get_uv_sphere_geom radius segments rings geom_nothing = (Ok g, st)
        /\ get_uv_sphere_egg_data radius segments rings egg_nothing
           = (Ok e, st')).
Proof.
  split; [|split; [|split]].
  - split.
    + intros H. destruct (valid_or_invalid radius segments rings) as [Hv|Hi];
        [|exact Hi].
      rewrite get_uv_sphere_geom_run in H by assumption. discriminate.
    + intros H. now rewrite get_uv_sphere_geom_invalid.
  - split.
    + intros H. destruct (valid_or_invalid radius segments rings) as [Hv|Hi];
        [|exact Hi].
      rewrite get_uv_sphere_egg_data_run in H by assumption. discriminate.
    + intros H. now rewrite get_uv_sphere_egg_data_invalid.
  - intros Hi. split; intros s.
    + now apply get_uv_sphere_geom_invalid.
    + now apply get_uv_sphere_egg_data_invalid.
  - intros H. destruct (valid_or_invalid radius segments rings) as [Hv|Hi];
      [|contradiction].
    eexists. eexists. eexists. eexists.
    split; [apply get_uv_sphere_geom_run|apply get_uv_sphere_egg_data_run];
      assumption.
Qed.

(** The cases named by the specification: radius 0, radius -1, 2 segments
    and 2 rings raise; 3 segments and 3 rings do not. *)
End ArgumentErrors.

Lemma exact_invalid (radius : R) n m :
  invalid_arguments (A := exact) radius n m
  <-> (radius <= 0)%R \/ n < 3 \/ m < 3.
Proof.
  unfold invalid_arguments. cbn.
  destruct (Rle_dec radius 0); intuition (try discriminate; try lra).
Qed.

(** The cases named by the specification: radius 0, radius -1, 2 segments
    and 2 rings raise; 3 segments and 3 rings do not. *)
Lemma value_error_examples :
  fst (get_uv_sphere_geom (A := exact) 0%R 16 8 geom_nothing)
  = Raise ValueError
  /\ fst (get_uv_sphere_geom (A := exact) (-1)%R 16 8 geom_nothing)
     = Raise ValueError
  /\ fst (get_uv_sphere_geom (A := exact) 5%R 2 8 geom_nothing)
     = Raise ValueError
  /\ fst (get_uv_sphere_geom (A := exact) 5%R 16 2 geom_nothing)
     = Raise ValueError
  /\ fst (get_uv_sphere_egg_data (A := exact) 0%R 16 8 egg_nothing)
     = Raise ValueError
  /\ fst (get_uv_sphere_egg_data (A := exact) (-1)%R 16 8 egg_nothing)
     = Raise ValueError
  /\ fst (get_uv_sphere_egg_data (A := exact) 5%R 2 8 egg_nothing)
     = Raise ValueError
  /\ fst (get_uv_sphere_egg_data (A := exact) 5%R 16 2 egg_nothing)
     = Raise ValueError
  /\ fst (get_uv_sphere_geom (A := exact) 5%R 3 3 geom_nothing)
     <> Raise ValueError
  /\ fst (get_uv_sphere_egg_data (A := exact) 5%R 3 3 egg_nothing)
     <> Raise ValueError.
Proof.
  pose proof (fun r n m =>
                proj1 (value_error_iff_invalid_arguments (A := exact) r n m))
    as G.
  pose proof (fun r n m =>
                proj1 (proj2 (value_error_iff_invalid_arguments
                                (A := exact) r n m))) as E.
  split; [apply G, exact_invalid; left; lra|].
  split; [apply G, exact_invalid; left; lra|].
  split; [apply G, exact_invalid; right; lia|].
  split; [apply G, exact_invalid; right; lia|].
  split; [apply E, exact_invalid; left; lra|].
  split; [apply E, exact_invalid; left; lra|].
  split; [apply E, exact_invalid; right; lia|].
  split; [apply E, exact_invalid; right; lia|].
  split.
  - intros H. apply G, exact_invalid in H. destruct H as [H|H]; [lra|lia].
  - intros H. apply E, exact_invalid in H. destruct H as [H|H]; [lra|lia].
Defined.

(** ** Exact arithmetic: facts about the samplers

    From here to the end of the section on winding the arithmetic is
    [exact]: real numbers, [cos] and [sin] the real functions, nothing
    rounded. *)

(** The operations of [exact] written as operations on reals. *)
Ltac exact_ops :=
  cbn [num of_int half tau mul add sub div py_mod int_quotient gtb leb
       math_cos math_sin float32 exact value_of] in *.

Section RealFacts.
Local Open Scope R_scope.


Lemma cos_sub_tau x : cos (x - 2 * PI) = cos x.
Proof. rewrite cos_minus, cos_2PI, sin_2PI. ring. Qed.

Lemma sin_sub_tau x : sin (x - 2 * PI) = sin x.
Proof. rewrite sin_minus, cos_2PI, sin_2PI. ring. Qed.

Lemma exact_arc_wrap x :
  arc_wrap (A := exact) x = if Rgt_dec x (2 * PI) then x - 2 * PI else x.
Proof. unfold arc_wrap. exact_ops. now destruct (Rgt_dec x (2 * PI)). Qed.

(** The conditional subtraction does not move the sampled point. *)
Lemma cos_arc_wrap x : cos (arc_wrap (A := exact) x) = cos x.
Proof.
  rewrite exact_arc_wrap.
  destruct (Rgt_dec x (2 * PI)); [apply cos_sub_tau|reflexivity].
Qed.

Lemma sin_arc_wrap x : sin (arc_wrap (A := exact) x) = sin x.
Proof.
  rewrite exact_arc_wrap.
  destruct (Rgt_dec x (2 * PI)); [apply sin_sub_tau|reflexivity].
Qed.

Lemma Int_part_unit x : 0 <= x < 1 -> Int_part x = 0%Z.
Proof. intros H. symmetry. apply Int_part_spec. simpl. lra. Qed.

Lemma real_mod_small x m : 0 < m -> 0 <= x < m -> real_mod x m = x.
Proof.
  intros Hm Hx. unfold real_mod. rewrite Int_part_unit.
  - simpl. ring.
  - split.
    + apply Rmult_le_pos; [lra|]. left. now apply Rinv_0_lt_compat.
    + apply (Rmult_lt_reg_r m); [assumption|].
      unfold Rdiv. rewrite Rmult_assoc, Rinv_l by lra. lra.
Qed.


Lemma exact_arc_start_angle sd :
  arc_start_angle (A := exact) sd = real_mod sd 360 / 360 * (2 * PI).
Proof. reflexivity. Qed.







End RealFacts.


(** ** Ring vertices lie on the sphere *)


Lemma ring_index_decompose n m i :
  0 < n -> 0 < i < north_pole_index n m ->
  exists r s, 0 <= r < m /\ 0 <= s < n /\ i = ring_vertex_index n r s.
Proof.
  unfold north_pole_index, ring_vertex_index. intros Hn Hi.
  exists ((i - 1) / n), ((i - 1) mod n).
  pose proof (Z.div_mod (i - 1) n ltac:(lia)) as E.
  pose proof (Z.mod_pos_bound (i - 1) n Hn) as Hs.
  assert (0 <= (i - 1) / n) by (apply Z.div_pos; lia).
  assert ((i - 1) / n < m) by (apply Z.div_lt_upper_bound; nia).
  repeat split; try lia.
Qed.



(** ** Division by zero in the arc sampler *)

Section ZeroDivision.
Context {A : Arithmetic} {L : Lawful A}.

Lemma arc_samples_all_ok (radius : num) m :
  0 <= m ->
  Forall (fun s => exists p, s = Ok p)
         (yield_2d_circle_points_plus (m + 2) radius (of_int 270) true half
                                      (of_int 0, radius)).
Proof.
  intros Hm. rewrite arc_samples_ok by assumption.
  apply Forall_forall. intros s Hs. apply in_map_iff in Hs.
  destruct Hs as (j & <- & _). eexists. reflexivity.
Qed.

(** C10.  With [include_last = True] and [quantity = 1] the divisor is zero
    and the first sample raises [ZeroDivisionError]; with [rings >= 3] the
    generators' call has [quantity = rings + 2 >= 5], a nonzero divisor and
    only successful samples, and no call of either generator raises
    [ZeroDivisionError]. *)
Theorem zero_division_unreachable_from_generators :
  (forall (radius start_degrees circle_proportion : num) center,
     arc_divisor 1 true = 0
     /\ yield_2d_circle_points_plus 1 radius start_degrees true
                                    circle_proportion center
        = [Raise ZeroDivisionError]
     /\ forall (S : Type) (body : Z -> Point2D -> M S unit) (s : S),
          for_enumerate
            (yield_2d_circle_points_plus 1 radius start_degrees true
                                         circle_proportion center) 0 body s
          = (Raise ZeroDivisionError, s))
  /\ (forall (radius : num) rings,
        3 <= rings ->
        5 <= rings + 2
        /\ arc_divisor (rings + 2) true <> 0
        /\ Forall (fun s => exists p, s = Ok p)
                  (yield_2d_circle_points_plus (rings + 2) radius (of_int 270)
                                               true half (of_int 0, radius))
        /\ Forall (fun s => exists p, s = Ok p)
                  (segment_points_xz radius rings))
  /\ (forall (radius : num) segments rings,
        fst (get_uv_sphere_geom radius segments rings geom_nothing)
        <> Raise ZeroDivisionError
        /\ fst (get_uv_sphere_egg_data radius segments rings egg_nothing)
           <> Raise ZeroDivisionError).
Proof.
  split; [|split].
  - intros radius sd prop [xc yc]. split; [reflexivity|].
    split; [reflexivity|]. intros S body s. reflexivity.
  - intros radius rings Hm. split; [lia|]. split; [unfold arc_divisor; lia|].
    split; [apply arc_samples_all_ok; lia|].
    rewrite segment_points_xz_ok by lia.
    apply Forall_forall. intros s Hs. apply in_map_iff in Hs.
    destruct Hs as (j & <- & _). eexists. reflexivity.
  - intros radius segments rings.
    destruct (valid_or_invalid radius segments rings) as [Hv|Hi].
    + rewrite get_uv_sphere_geom_run, get_uv_sphere_egg_data_run
        by assumption.
      split; discriminate.
    + rewrite get_uv_sphere_geom_invalid, get_uv_sphere_egg_data_invalid
        by assumption.
      split; discriminate.
Qed.
End ZeroDivision.

(** The instance at 3 rings: five samples, divisor 4. *)
Lemma zero_division_unreachable_3_rings :
  arc_divisor 1 true = 0
  /\ 5 <= 3 + 2
  /\ arc_divisor (3 + 2) true <> 0
  /\ Forall (fun s => exists p, s = Ok p)
            (segment_points_xz (A := exact) 1%R 3)
  /\ fst (get_uv_sphere_geom (A := exact) 1%R 3 3 geom_nothing)
     <> Raise ZeroDivisionError.
Proof.
  destruct (zero_division_unreachable_from_generators (A := exact))
    as (H1 & H2 & H3).
  destruct (H1 1%R 0%R 1%R (0%R, 0%R)) as (D & _ & _).
  destruct (H2 1%R 3 ltac:(lia)) as (Q & Dv & _ & Sg).
  destruct (H3 1%R 3 3) as (G & _).
  repeat split; assumption.
Defined.

(** ** The angles of the arc sampler *)

(** In every arithmetic the angle of sample [i] is computed as
    [(i / divisor) * (circle_proportion * tau) + start_angle], with
    [start_angle = ((start_degrees % 360) / 360) * tau], and [tau] is
    subtracted from it once if it is greater than [tau]. *)
Lemma arc_angle_in_every_arithmetic {A : Arithmetic} quantity
      (start_degrees : num) include_last (circle_proportion : num) i :
  arc_divisor quantity include_last <> 0 ->
  arc_divisor quantity include_last
  = (if include_last then quantity - 1 else quantity)
  /\ arc_angle quantity start_degrees include_last circle_proportion i
     = and_then (int_quotient i (arc_divisor quantity include_last))
         (fun fraction =>
            let start_angle :=
              mul (div (py_mod start_degrees (of_int 360)) (of_int 360)) tau in
            let angle :=
              add (mul fraction (mul circle_proportion tau)) start_angle in
            Ok (if gtb angle tau then sub angle tau else angle)).
Proof.
  intros Hd. split; [reflexivity|].
  unfold arc_angle, arc_raw_angle, py_truediv.
  destruct (Z.eqb_spec (arc_divisor quantity include_last) 0) as [|_];
    [contradiction|].
  now destruct (int_quotient i (arc_divisor quantity include_last)).
Qed.

(** *** In exact arithmetic *)

Section ArcAngles.
Local Open Scope R_scope.


Lemma arc_start_angle_0 : arc_start_angle (A := exact) 0 = 0.
Proof.
  rewrite exact_arc_start_angle, real_mod_small by lra. exact_ops. lra.
Qed.


(** The angle of a sample, written out. *)
Lemma exact_arc_angle quantity start_degrees include_last circle_proportion
      i :
  arc_divisor quantity include_last <> 0%Z ->
  arc_angle (A := exact) quantity start_degrees include_last
            circle_proportion i
  = Ok (arc_wrap (A := exact)
          (IZR i / IZR (arc_divisor quantity include_last)
           * (circle_proportion * (2 * PI))
           + arc_start_angle (A := exact) start_degrees)).
Proof.
  intros Hd. unfold arc_angle, arc_raw_angle, py_truediv.
  destruct (Z.eqb_spec (arc_divisor quantity include_last) 0) as [|_];
    [contradiction|].
  reflexivity.
Qed.




End ArcAngles.


Section ArcFormula.
Local Open Scope R_scope.


End ArcFormula.



(** ** Winding, in exact arithmetic *)

Section Winding.
Local Open Scope R_scope.








End Winding.

Section RowsByRole.
Context {A : Arithmetic} {L : Lawful A}.

(** The row of the vertex with a given role. *)
Lemma vertex_at_encode (radius : num) n m v :
  3 <= n -> 3 <= m -> wf_vertex n m v ->
  vertex_at (map Some (sphere_rows radius n m)) (encode n m v)
  = Some (stored (mesh_position radius n m v)).
Proof.
  intros Hn Hm Hwf.
  assert (HL : Z.of_nat (length (sphere_rows radius n m)) = 2 + n * m)
    by (rewrite sphere_rows_length; lia).
  destruct v as [| |r s]; cbn [encode mesh_position wf_vertex] in *.
  - reflexivity.
  - rewrite (vertex_at_written _ _
               (stored (mkPoint3D (of_int 0) (of_int 0) (of_int 0))))
      by (unfold north_pole_index; nia).
    rewrite sphere_rows_nth. do 2 f_equal. apply sphere_points_north; lia.
  - rewrite (vertex_at_written _ _
               (stored (mkPoint3D (of_int 0) (of_int 0) (of_int 0))))
      by (unfold ring_vertex_index; nia).
    rewrite sphere_rows_nth. do 2 f_equal. apply sphere_points_ring; lia.
Qed.

End RowsByRole.




(** * Further properties of the code *)

(** ** The circle sampler *)

Section CircleSampler.
Context {A : Arithmetic} {L : Lawful A}.

(** X1.  [yield_2d_circle_points] yields exactly [quantity] points (none for
    a quantity of zero or less), and no sample raises: the division, the
    cosine and the sine all return. *)
Theorem circle_points_count_and_radius quantity (radius : num) center :
  exists points,
    yield_2d_circle_points quantity radius center = map Ok points
    /\ length points = Z.to_nat quantity.
Proof.
  destruct center as [xc yc].
  exists (map (fun s =>
                 (add (mul radius (cos_of (longitude quantity s))) xc,
                  add (mul radius (sin_of (longitude quantity s))) yc))
              (range 0 quantity)).
  split.
  - unfold yield_2d_circle_points. rewrite map_map.
    apply map_ext_in. intros i Hi. apply In_range in Hi.
    unfold py_truediv. destruct (Z.eqb_spec quantity 0) as [|_]; [lia|].
    destruct (circle_angle_ok quantity i Hi) as (q & c & s & Hq & Hc & Hs).
    unfold point_at, longitude, fraction, cos_of, sin_of.
    rewrite Hq. cbn [and_then value_of]. rewrite Hc, Hs. reflexivity.
  - rewrite length_map, range_length. f_equal. lia.
Qed.
End CircleSampler.

Lemma circle_points_count_and_radius_4 :
  exists points,
    yield_2d_circle_points (A := exact) 4 1%R (0%R, 0%R) = map Ok points
    /\ length points = 4%nat.
Proof.
  apply (circle_points_count_and_radius (A := exact) 4 1%R (0%R, 0%R)).
Defined.

(** ** The arc sampler, in exact arithmetic *)

(** X3.  Called with its default values for [start_degrees], [include_last]
    and [circle_proportion], [yield_2d_circle_points_plus] yields the points
    of [yield_2d_circle_points], none of them raising. *)
Theorem arc_points_defaults_agree quantity (radius : R) center :
  exists points,
    yield_2d_circle_points (A := exact) quantity radius center
    = map Ok points
    /\ yield_2d_circle_points_plus (A := exact) quantity radius 0%R false 1%R
                                   center
       = map Ok points.
Proof.
  destruct center as [xc yc].
  exists (map (fun i =>
                 ((radius * cos (IZR i / IZR quantity * (2 * PI)) + xc)%R,
                  (radius * sin (IZR i / IZR quantity * (2 * PI)) + yc)%R))
              (range 0 quantity)).
  unfold yield_2d_circle_points_plus, yield_2d_circle_points.
  rewrite !map_map. split.
  - apply map_ext_in. intros i Hi. apply In_range in Hi.
    unfold py_truediv. destruct (Z.eqb_spec quantity 0) as [|_]; [lia|].
    reflexivity.
  - apply map_ext_in. intros i Hi. apply In_range in Hi.
    rewrite exact_arc_angle by (cbn [arc_divisor]; lia).
    cbn [arc_divisor and_then]. rewrite arc_start_angle_0.
    unfold point_at. exact_ops. cbn [and_then].
    rewrite cos_arc_wrap, sin_arc_wrap.
    replace (IZR i / IZR quantity * (1 * (2 * PI)) + 0)%R
      with (IZR i / IZR quantity * (2 * PI))%R by (unfold Rdiv; ring).
    reflexivity.
Qed.

(** ** Which indices the triangles use *)

Lemma In_spec_triangles n m t :
  In t (spec_triangles n m)
  <-> exists tag, wf_tag n m tag /\ t = map3 (encode n m) (tri_of_tag n m tag).
Proof.
  rewrite spec_triangles_closed. unfold mesh_triangles. rewrite map_map.
  rewrite in_map_iff. split.
  - intros (tag & <- & Hin). apply In_mesh_tags in Hin. now exists tag.
  - intros (tag & Hwf & ->). exists tag. split; [reflexivity|].
    now apply In_mesh_tags.
Qed.

Lemma encode_range n m v :
  0 < n -> 0 <= m -> wf_vertex n m v -> 0 <= encode n m v < n * m + 2.
Proof.
  intros Hn Hm Hv. destruct v as [| |r s]; cbn [encode wf_vertex] in *.
  - unfold south_pole_index. nia.
  - unfold north_pole_index. nia.
  - destruct Hv as [Hr Hs].
    pose proof (ring_vertex_index_range n m r s Hn Hr Hs) as H.
    unfold south_pole_index, north_pole_index in H. lia.
Qed.

Lemma encode_onto n m i :
  0 < n -> 0 <= m -> 0 <= i < n * m + 2 ->
  exists v, wf_vertex n m v /\ encode n m v = i.
Proof.
  intros Hn Hm Hi.
  destruct (Z.eq_dec i 0) as [->|H0]; [now exists SouthPole|].
  destruct (Z.eq_dec i (north_pole_index n m)) as [->|H1];
    [now exists NorthPole|].
  destruct (ring_index_decompose n m i Hn) as (r & s & Hr & Hs & ->).
  { unfold north_pole_index in *. lia. }
  exists (RingVertex r s). now split.
Qed.

Lemma map3_vertices {A B} (f : A -> B) (t : A * A * A) :
  triangle_vertices (map3 f t) = map f (triangle_vertices t).
Proof. destruct t as [[x y] z]. reflexivity. Qed.

Lemma triangle_vertices_wf n m t v :
  wf_triangle n m t -> In v (triangle_vertices t) -> wf_vertex n m v.
Proof.
  destruct t as [[x y] z]. intros (Hx & Hy & Hz) [<-|[<-|[<-|[]]]]; assumption.
Qed.

(** Every vertex is a corner of some triangle. *)
Lemma vertex_in_some_triangle n m v :
  3 <= n -> 3 <= m -> wf_vertex n m v ->
  exists tag, wf_tag n m tag /\ In v (triangle_vertices (tri_of_tag n m tag)).
Proof.
  intros Hn Hm Hv. destruct v as [| |r s]; cbn [wf_vertex] in Hv.
  - exists (TSouth 0). cbn. split; [lia|now left].
  - exists (TNorth 0). cbn. split; [lia|now left].
  - destruct Hv as [Hr Hs]. destruct (Z.eq_dec r 0) as [->|Hr0].
    + exists (TSouth s). cbn. split; [lia|right; now left].
    + exists (TUp r s). cbn. split; [lia|right; now left].
Qed.

(** X8.  For valid arguments every index of every emitted triangle is the
    index of a written row of the vertex table, between [0] and
    [segments * rings + 1], and every row of the table is a corner of at
    least one triangle: the primitive refers to no missing vertex and the
    table holds no unused one. *)
Theorem geom_indices_in_range_and_all_used {A : Arithmetic} {L : Lawful A}
        (radius : num) segments rings :
  valid_arguments radius segments rings ->
  exists g st,
    get_uv_sphere_geom radius segments rings geom_nothing = (Ok g, st)
    /\ (forall t i,
          In t (geom_triangles g) -> In i (triangle_vertices t) ->
          0 <= i < segments * rings + 2
          /\ exists p, vertex_at (geom_vertices g) i = Some p)
    /\ (forall i,
          0 <= i < segments * rings + 2 ->
          exists t, In t (geom_triangles g) /\ In i (triangle_vertices t)).
Proof.
  intros Hv. pose proof Hv as (Hr & Hn & Hm).
  eexists. eexists. split; [apply get_uv_sphere_geom_run; assumption|].
  cbn [geom_vertices geom_triangles]. split.
  - intros t i Ht Hi. apply In_spec_triangles in Ht.
    destruct Ht as (tag & Hwf & ->).
    rewrite map3_vertices in Hi. apply in_map_iff in Hi.
    destruct Hi as (v & <- & Hin).
    assert (Hwv : wf_vertex segments rings v).
    { apply (triangle_vertices_wf _ _ (tri_of_tag segments rings tag));
        [now apply tri_of_tag_wf|assumption]. }
    pose proof (encode_range segments rings v ltac:(lia) ltac:(lia) Hwv).
    split; [assumption|].
    eexists.
    apply (vertex_at_written _ _
             (stored (mkPoint3D (of_int 0) (of_int 0) (of_int 0)))).
    rewrite sphere_rows_length by lia. lia.
  - intros i Hi.
    destruct (encode_onto segments rings i ltac:(lia) ltac:(lia) Hi)
      as (v & Hwv & <-).
    destruct (vertex_in_some_triangle segments rings v Hn Hm Hwv)
      as (tag & Hwf & Hin).
    exists (map3 (encode segments rings) (tri_of_tag segments rings tag)).
    split.
    + apply In_spec_triangles. now exists tag.
    + rewrite map3_vertices. now apply in_map.
Qed.

Lemma geom_indices_in_range_and_all_used_1_3_3 :
  exists g st,
    get_uv_sphere_geom (A := exact) 1%R 3 3 geom_nothing = (Ok g, st)
    /\ (forall t i,
          In t (geom_triangles g) -> In i (triangle_vertices t) ->
          0 <= i < 3 * 3 + 2
          /\ exists p, vertex_at (geom_vertices g) i = Some p)
    /\ (forall i,
          0 <= i < 3 * 3 + 2 ->
          exists t, In t (geom_triangles g) /\ In i (triangle_vertices t)).
Proof.
  apply (geom_indices_in_range_and_all_used (A := exact) 1%R 3 3).
  apply exact_valid; [lra|lia|lia].
Defined.

(** ** Consistent orientation *)

Lemma has_edge_directed {A} (eqb : A -> A -> bool) a b t :
  has_edge eqb a b t
  = has_directed_edge eqb a b t || has_directed_edge eqb b a t.
Proof.
  destruct t as [[x y] z]. unfold has_edge, same_edge, has_directed_edge.
  destruct (eqb a x), (eqb a y), (eqb a z), (eqb b x), (eqb b y), (eqb b z);
    reflexivity.
Qed.

Lemma has_directed_edge_vertex a b x y z :
  has_directed_edge vertex_eqb a b (x, y, z) = true
  <-> (a = x /\ b = y) \/ (a = y /\ b = z) \/ (a = z /\ b = x).
Proof.
  unfold has_directed_edge.
  rewrite !orb_true_iff, !andb_true_iff, !vertex_eqb_eq. tauto.
Qed.

Lemma has_directed_edge_encode n m a b t :
  0 < n -> 0 <= m ->
  wf_vertex n m a -> wf_vertex n m b -> wf_triangle n m t ->
  has_directed_edge Z.eqb (encode n m a) (encode n m b) (map3 (encode n m) t)
  = has_directed_edge vertex_eqb a b t.
Proof.
  intros Hn Hm Ha Hb Ht. destruct t as [[x y] z].
  destruct Ht as (Hx & Hy & Hz).
  unfold has_directed_edge, map3.
  rewrite !(encode_eqb n m) by assumption. reflexivity.
Qed.

Lemma filter_orb_length {A} (p q : A -> bool) (l : list A) :
  (forall x, In x l -> p x = true -> q x = true -> False) ->
  length (filter (fun x => p x || q x) l)
  = (length (filter p l) + length (filter q l))%nat.
Proof.
  induction l as [|x l IH]; intros H; [reflexivity|].
  cbn [filter].
  assert (Hx := H x (or_introl eq_refl)).
  assert (IH' := IH (fun y Hy => H y (or_intror Hy))).
  destruct (p x) eqn:Ep, (q x) eqn:Eq; cbn [orb length];
    first [exfalso; now apply Hx | lia].
Qed.

Lemma filter_length_pos {A} (p : A -> bool) (l : list A) x :
  In x l -> p x = true -> (1 <= length (filter p l))%nat.
Proof.
  intros Hin Hp.
  assert (H : In x (filter p l)) by (apply filter_In; now split).
  destruct (filter p l); [destruct H|cbn; lia].
Qed.

(** The triangle on the other side of a side runs along it the other way. *)
Ltac directed_holds :=
  cbn [tri_of_tag wf_tag]; split; [unwrap; lia|];
  apply has_directed_edge_vertex; unwrap; try lia;
  first
    [ left; split; vertex_eq
    | right; left; split; vertex_eq
    | right; right; split; vertex_eq ].

Section Orientation.
Variables n m : Z.
Hypothesis Hn : 3 <= n.
Hypothesis Hm : 3 <= m.

Lemma opposite_triangle tag a b :
  wf_tag n m tag ->
  In (a, b) (triangle_edges (tri_of_tag n m tag)) ->
  exists tag',
    wf_tag n m tag'
    /\ has_directed_edge vertex_eqb b a (tri_of_tag n m tag') = true.
Proof.
  intros Hwf Hin. destruct tag as [k|r k|r k|k]; cbn [wf_tag] in Hwf;
    cbn [tri_of_tag triangle_edges] in Hin;
    destruct Hin as [H|[H|[H|[]]]]; injection H as <- <-.
  - exists (TSouth (wrap_succ n k)). directed_holds.
  - exists (TDown 1 k). directed_holds.
  - exists (TSouth (wrap_pred n k)). directed_holds.
  - exists (TDown r k). directed_holds.
  - destruct (Z.eq_dec r (m - 1)).
    + exists (TNorth k). directed_holds.
    + exists (TDown (r + 1) k). directed_holds.
  - exists (TDown r (wrap_pred n k)). directed_holds.
  - exists (TUp r k). directed_holds.
  - destruct (Z.eq_dec r 1).
    + exists (TSouth k). directed_holds.
    + exists (TUp (r - 1) k). directed_holds.
  - exists (TUp r (wrap_succ n k)). directed_holds.
  - exists (TNorth (wrap_pred n k)). directed_holds.
  - exists (TUp (m - 1) k). directed_holds.
  - exists (TNorth (wrap_succ n k)). directed_holds.
Qed.

Lemma own_directed_edge (t : MeshTriangle) a b :
  In (a, b) (triangle_edges t) ->
  has_directed_edge vertex_eqb a b t = true.
Proof.
  destruct t as [[x y] z]. intros Hin. apply has_directed_edge_vertex.
  destruct Hin as [H|[H|[H|[]]]]; injection H as <- <-; auto.
Qed.

(** No triangle runs along a side in both directions. *)
Lemma not_both_directions tag a b :
  wf_tag n m tag ->
  has_directed_edge vertex_eqb a b (tri_of_tag n m tag) = true ->
  has_directed_edge vertex_eqb b a (tri_of_tag n m tag) = true -> False.
Proof.
  intros Hwf Hab Hba.
  pose proof (mesh_edges_in_two_triangles n m Hn Hm tag) as Hd.
  destruct (tri_of_tag n m tag) as [[x y] z].
  apply has_directed_edge_vertex in Hab, Hba.
  destruct (Hd x y Hwf ltac:(now left)) as [Hxy _].
  destruct (Hd y z Hwf ltac:(right; now left)) as [Hyz _].
  destruct (Hd z x Hwf ltac:(right; right; now left)) as [Hzx _].
  destruct Hab as [[-> ->]|[[-> ->]|[-> ->]]];
    destruct Hba as [[E1 E2]|[[E1 E2]|[E1 E2]]]; congruence.
Qed.

Lemma mesh_consistently_oriented tag a b :
  wf_tag n m tag ->
  In (a, b) (triangle_edges (tri_of_tag n m tag)) ->
  length (filter (fun t => has_directed_edge vertex_eqb a b (tri_of_tag n m t))
                 (mesh_tags n m)) = 1%nat
  /\ length (filter (fun t => has_directed_edge vertex_eqb b a
                                                (tri_of_tag n m t))
                    (mesh_tags n m)) = 1%nat.
Proof.
  intros Hwf Hin.
  destruct (mesh_edges_in_two_triangles n m Hn Hm tag a b Hwf Hin)
    as [_ Hcount].
  unfold mesh_edge_count in Hcount.
  rewrite (filter_ext _ _ (fun t => has_edge_directed vertex_eqb a b
                                                      (tri_of_tag n m t)))
    in Hcount.
  rewrite (filter_orb_length
             (fun t => has_directed_edge vertex_eqb a b (tri_of_tag n m t))
             (fun t => has_directed_edge vertex_eqb b a (tri_of_tag n m t)))
    in Hcount.
  2:{ intros t Ht. apply In_mesh_tags in Ht. now apply not_both_directions. }
  assert (H1 := filter_length_pos
                  (fun t => has_directed_edge vertex_eqb a b
                                              (tri_of_tag n m t))
                  (mesh_tags n m) tag
                  (proj2 (In_mesh_tags n m tag) Hwf)
                  (own_directed_edge _ a b Hin)).
  destruct (opposite_triangle tag a b Hwf Hin) as (tag' & Hwf' & Hop).
  assert (H2 := filter_length_pos
                  (fun t => has_directed_edge vertex_eqb b a
                                              (tri_of_tag n m t))
                  (mesh_tags n m) tag'
                  (proj2 (In_mesh_tags n m tag') Hwf') Hop).
  lia.
Qed.
End Orientation.

Lemma spec_triangles_oriented n m t a b :
  3 <= n -> 3 <= m ->
  In t (spec_triangles n m) -> In (a, b) (triangle_edges t) ->
  directed_edge_count Z.eqb a b (spec_triangles n m) = 1%nat
  /\ directed_edge_count Z.eqb b a (spec_triangles n m) = 1%nat.
Proof.
  intros Hn Hm Ht Hab. apply In_spec_triangles in Ht.
  destruct Ht as (tag & Hwf & ->).
  rewrite triangle_edges_map3 in Hab. apply in_map_iff in Hab.
  destruct Hab as ([a' b'] & E & Hin). cbn [fst snd] in E.
  injection E as <- <-.
  pose proof (tri_of_tag_wf n m tag Hn Hm Hwf) as Hwt.
  destruct (triangle_edges_wf n m _ a' b' Hwt Hin) as [Ha Hb].
  destruct (mesh_consistently_oriented n m Hn Hm tag a' b' Hwf Hin)
    as [H1 H2].
  unfold directed_edge_count. rewrite spec_triangles_closed.
  unfold mesh_triangles. rewrite map_map, !filter_map_length.
  split; [rewrite <- H1|rewrite <- H2]; f_equal;
    apply filter_ext_in; intros tg Htg; apply In_mesh_tags in Htg;
    apply has_directed_edge_encode; try assumption; try lia;
    now apply tri_of_tag_wf.
Qed.

(** X9.  For valid arguments the triangles are consistently oriented: for
    each side of each emitted triangle, taken in the order in which the
    triangle lists its vertices, that triangle is the only one that runs
    along the side in this direction, and exactly one triangle runs along it
    in the opposite direction.  So neighbouring triangles never disagree on
    which face is the front. *)
Theorem geom_consistently_oriented {A : Arithmetic} {L : Lawful A}
        (radius : num) segments rings :
  valid_arguments radius segments rings ->
  exists g st,
    get_uv_sphere_geom radius segments rings geom_nothing = (Ok g, st)
    /\ forall t a b,
         In t (geom_triangles g) -> In (a, b) (triangle_edges t) ->
         directed_edge_count Z.eqb a b (geom_triangles g) = 1%nat
         /\ directed_edge_count Z.eqb b a (geom_triangles g) = 1%nat.
Proof.
  intros Hv. pose proof Hv as (Hr & Hn & Hm).
  eexists. eexists. split; [apply get_uv_sphere_geom_run; assumption|].
  cbn [geom_triangles]. intros t a b Ht Hab.
  now apply (spec_triangles_oriented segments rings t).
Qed.

Lemma geom_consistently_oriented_1_3_3 :
  exists g st,
    get_uv_sphere_geom (A := exact) 1%R 3 3 geom_nothing = (Ok g, st)
    /\ forall t a b,
         In t (geom_triangles g) -> In (a, b) (triangle_edges t) ->
         directed_edge_count Z.eqb a b (geom_triangles g) = 1%nat
         /\ directed_edge_count Z.eqb b a (geom_triangles g) = 1%nat.
Proof.
  apply (geom_consistently_oriented (A := exact) 1%R 3 3).
  apply exact_valid; [lra|lia|lia].
Defined.

(** ** No triangle is emitted twice *)

Lemma triple_eq_dec (x y : Z * Z * Z) : {x = y} + {x <> y}.
Proof.
  destruct x as [[a b] c], y as [[a' b'] c'].
  destruct (Z.eq_dec a a'); [|right; congruence].
  destruct (Z.eq_dec b b'); [|right; congruence].
  destruct (Z.eq_dec c c'); [left|right]; congruence.
Defined.

Lemma count_occ_le_filter {A} (dec : forall x y : A, {x = y} + {x <> y})
      (p : A -> bool) (l : list A) t :
  p t = true -> (count_occ dec l t <= length (filter p l))%nat.
Proof.
  intros Hp. induction l as [|a l IH]; cbn; [lia|].
  destruct (dec a t) as [->|_].
  - rewrite Hp. cbn. lia.
  - destruct (p a); cbn; lia.
Qed.

(** X12.  For valid arguments the emitted triangles are pairwise different:
    no triple of indices is added to the primitive twice. *)
Theorem geom_triangles_not_repeated {A : Arithmetic} {L : Lawful A}
        (radius : num) segments rings :
  valid_arguments radius segments rings ->
  exists g st,
    get_uv_sphere_geom radius segments rings geom_nothing = (Ok g, st)
    /\ NoDup (geom_triangles g).
Proof.
  intros Hv. pose proof Hv as (Hr & Hn & Hm).
  eexists. eexists. split; [apply get_uv_sphere_geom_run; assumption|].
  cbn [geom_triangles]. apply (NoDup_count_occ triple_eq_dec). intros t.
  destruct (in_dec triple_eq_dec t (spec_triangles segments rings))
    as [Hin|Hout].
  - destruct t as [[x y] z].
    destruct (spec_triangles_oriented segments rings (x, y, z) x y Hn Hm Hin)
      as [H1 _]; [now left|].
    unfold directed_edge_count in H1. rewrite <- H1.
    apply count_occ_le_filter. cbn. now rewrite !Z.eqb_refl.
  - apply (count_occ_not_In triple_eq_dec) in Hout. lia.
Qed.

Lemma geom_triangles_not_repeated_1_3_3 :
  exists g st,
    get_uv_sphere_geom (A := exact) 1%R 3 3 geom_nothing = (Ok g, st)
    /\ NoDup (geom_triangles g).
Proof.
  apply (geom_triangles_not_repeated (A := exact) 1%R 3 3).
  apply exact_valid; [lra|lia|lia].
Defined.

(** ** The loops over a ring leave the windows as they found them *)

Lemma nonempty_of_length {A} (l : list A) n :
  0 < n -> length l = Z.to_nat n -> l <> [].
Proof. intros Hn Hl ->. cbn in Hl. lia. Qed.

Lemma iter_rotate_whole {A} (l : list A) k :
  length l = k -> Nat.iter k rotate_left l = l.
Proof. intros <-. apply iter_rotate_full. Qed.

(** X13.  The three loops that emit triangles rotate the windows once per
    step and make as many steps as a window holds indices, so they leave
    both windows, the vertex table and its write position as they found
    them; the fans add [no_of_segments] triangles and the loop between two
    rings [2 * no_of_segments].  This is what allows
    [previous_ring_indices.extend(current_ring_indices)] to copy the ring
    in its original order. *)
Theorem ring_loops_restore_the_windows {A : Arithmetic}
        no_of_segments index_of_last_point (st : GeomBuild) :
  0 < no_of_segments ->
  length (dq_items (current_ring_indices st)) = Z.to_nat no_of_segments ->
  length (dq_items (previous_ring_indices st)) = Z.to_nat no_of_segments ->
  (exists tris,
      first_ring_tris no_of_segments st
      = (Ok tt,
         mkGeomBuild (vdata st) (writer_row st)
                     (triangle_primitives_holder st ++ tris)
                     (current_ring_indices st) (previous_ring_indices st))
      /\ length tris = Z.to_nat no_of_segments)
  /\ (exists tris,
         ring_pair_tris no_of_segments st
         = (Ok tt,
            mkGeomBuild (vdata st) (writer_row st)
                        (triangle_primitives_holder st ++ tris)
                        (current_ring_indices st) (previous_ring_indices st))
         /\ length tris = (2 * Z.to_nat no_of_segments)%nat)
  /\ (exists tris,
         last_ring_tris no_of_segments index_of_last_point st
         = (Ok tt,
            mkGeomBuild (vdata st) (writer_row st)
                        (triangle_primitives_holder st ++ tris)
                        (current_ring_indices st) (previous_ring_indices st))
         /\ length tris = Z.to_nat no_of_segments).
Proof.
  intros Hn Hc Hp. destruct st as [V row T [c mc] [p mp]].
  cbn [current_ring_indices previous_ring_indices dq_items vdata writer_row
       triangle_primitives_holder] in *.
  pose proof (nonempty_of_length c no_of_segments Hn Hc) as Hcne.
  pose proof (nonempty_of_length p no_of_segments Hn Hp) as Hpne.
  split; [|split].
  - eexists. split; [|apply (south_fan_length 0 0 c)].
    unfold first_ring_tris. rewrite first_ring_tris_run by assumption.
    now rewrite iter_rotate_whole by assumption.
  - eexists. split; [|apply (ring_bridge_length 0 p c)].
    unfold ring_pair_tris. rewrite ring_pair_tris_run by assumption.
    now rewrite !iter_rotate_whole by assumption.
  - eexists. split; [|apply (north_fan_length 0 index_of_last_point p)].
    unfold last_ring_tris. rewrite last_ring_tris_run by assumption.
    now rewrite iter_rotate_whole by assumption.
Qed.

Lemma ring_loops_restore_the_windows_3 :
  exists tris,
    ring_pair_tris 3 (mkGeomBuild (A := exact) [] 0 [] (mkDeque [4; 5; 6] 3)
                                  (mkDeque [1; 2; 3] 3))
    = (Ok tt,
       mkGeomBuild (A := exact) [] 0 tris (mkDeque [4; 5; 6] 3) (mkDeque [1; 2; 3] 3))
    /\ length tris = 6%nat.
Proof.
  destruct (ring_loops_restore_the_windows (A := exact)
              3 10 (mkGeomBuild (A := exact) [] 0 [] (mkDeque [4; 5; 6] 3)
                                (mkDeque [1; 2; 3] 3)))
    as (_ & H & _); [lia|reflexivity|reflexivity|].
  exact H.
Defined.

(** ** The structure of the polygon form *)

Lemma egg_triangles_length {A : Arithmetic} {L : Lawful A}
      (radius : num) n m :
  0 <= n -> 1 <= m ->
  Z.of_nat (length (egg_triangles radius n m)) = 2 * n * m.
Proof.
  intros Hn Hm. rewrite <- spec_triangles_length by assumption.
  rewrite <- (egg_triangles_index radius n m) by assumption.
  now rewrite length_map.
Qed.

(** X14.  For valid arguments the children of the returned [EggData] are
    the coordinate system (Z up, right-handed), then the vertex pool, then
    the polygons in the order of their creation, each exactly once; the pool
    holds [segments * rings + 2] vertices; and there are
    [2 * segments * rings] polygons, each with exactly three vertices. *)
Theorem egg_data_structure {A : Arithmetic} {L : Lawful A}
        (radius : num) segments rings :
  valid_arguments radius segments rings ->
  exists e st,
    get_uv_sphere_egg_data radius segments rings egg_nothing = (Ok e, st)
    /\ egg_children e
       = ChildCoordinateSystem CSZupRight :: ChildVertexPool
         :: map ChildPolygon (seq 0 (length (egg_polygons e)))
    /\ Z.of_nat (length (egg_vertex_pool e)) = segments * rings + 2
    /\ Z.of_nat (length (egg_polygons e)) = 2 * segments * rings
    /\ Forall (fun poly => length poly = 3%nat) (egg_polygons e).
Proof.
  intros Hv. pose proof Hv as (Hr & Hn & Hm).
  eexists. eexists. split; [apply get_uv_sphere_egg_data_run; assumption|].
  cbn [egg_result egg_children egg_vertex_pool egg_polygons].
  split; [|split; [|split]].
  - now rewrite length_map.
  - rewrite pool_from_length, sphere_points_length by lia. lia.
  - rewrite length_map. apply egg_triangles_length; lia.
  - apply Forall_forall. intros poly Hin. apply in_map_iff in Hin.
    destruct Hin as ([[a b] c] & <- & _). reflexivity.
Qed.

Lemma egg_data_structure_5_16_8 :
  exists e st,
    get_uv_sphere_egg_data (A := exact) 5%R 16 8 egg_nothing = (Ok e, st)
    /\ egg_children e
       = ChildCoordinateSystem CSZupRight :: ChildVertexPool
         :: map ChildPolygon (seq 0 (length (egg_polygons e)))
    /\ Z.of_nat (length (egg_vertex_pool e)) = 16 * 8 + 2
    /\ Z.of_nat (length (egg_polygons e)) = 2 * 16 * 8
    /\ Forall (fun poly => length poly = 3%nat) (egg_polygons e).
Proof.
  apply (egg_data_structure (A := exact) 5%R 16 8).
  apply exact_valid; [lra|lia|lia].
Defined.

(** ** How many triangles meet at a vertex *)

Lemma has_vertex_vertex a x y z :
  has_vertex vertex_eqb a (x, y, z) = true <-> a = x \/ a = y \/ a = z.
Proof.
  unfold has_vertex. rewrite !orb_true_iff, !vertex_eqb_eq. tauto.
Qed.

Lemma has_vertex_encode n m a t :
  0 < n -> 0 <= m -> wf_vertex n m a -> wf_triangle n m t ->
  has_vertex Z.eqb (encode n m a) (map3 (encode n m) t)
  = has_vertex vertex_eqb a t.
Proof.
  intros Hn Hm Ha Ht. destruct t as [[x y] z]. destruct Ht as (Hx & Hy & Hz).
  unfold has_vertex, map3. rewrite !(encode_eqb n m) by assumption.
  reflexivity.
Qed.

(** A predicate that holds exactly of the members of a duplicate-free list
    selects as many elements as that list has. *)
Lemma filter_exactly {A} (p : A -> bool) (l l0 : list A) :
  NoDup l -> NoDup l0 ->
  (forall t, In t l0 -> In t l /\ p t = true) ->
  (forall t, In t l -> p t = true -> In t l0) ->
  length (filter p l) = length l0.
Proof.
  intros Hl Hl0 H1 H2. apply Permutation_length. apply NoDup_Permutation.
  - now apply NoDup_filter.
  - assumption.
  - intros t. rewrite filter_In. split.
    + intros [Hin Hp]. now apply H2.
    + apply H1.
Qed.

(** The goal names the member of a list. *)
Ltac in_list :=
  cbn [In];
  repeat first [ left; solve [reflexivity | f_equal; lia] | right ].

(** The tags listed are the places, and places of triangles with the
    corner. *)
Ltac corner_listed :=
  let t := fresh "t" in
  let Hin := fresh "Hin" in
  intros t Hin; cbn [In] in Hin;
  repeat match goal with
         | H : _ \/ _ |- _ => destruct H
         | H : False |- _ => destruct H
         end;
  subst t;
  (split;
   [ apply In_mesh_tags; cbn [wf_tag]; unwrap; lia
   | cbn [tri_of_tag]; apply has_vertex_vertex; unwrap; try lia;
     first [ left; vertex_eq
           | right; left; vertex_eq
           | right; right; vertex_eq ] ]).

(** Any triangle with the corner is at one of the places listed. *)
Ltac corner_unique :=
  let t := fresh "t" in
  let Hin := fresh "Hin" in
  let Hp := fresh "Hp" in
  intros t Hin Hp; apply In_mesh_tags in Hin;
  destruct t; cbn [tri_of_tag wf_tag] in Hin, Hp;
  apply has_vertex_vertex in Hp;
  repeat match goal with
         | H : _ \/ _ |- _ => destruct H
         | H : _ /\ _ |- _ => destruct H
         end;
  try discriminate;
  repeat match goal with
         | H : RingVertex _ _ = RingVertex _ _ |- _ =>
             apply ring_vertex_inj in H; destruct H
         end;
  unwrap; try lia; in_list.

Ltac tags_differ :=
  repeat constructor; cbn [In];
  repeat match goal with
         | |- ~ _ => intros ?
         | H : _ \/ _ |- _ => destruct H
         | H : False |- _ => destruct H
         end;
  try discriminate;
  match goal with
  | H : _ = _ |- _ => injection H; unwrap; lia
  end.

Section Valence.
Variables n m : Z.
Hypothesis Hn : 3 <= n.
Hypothesis Hm : 3 <= m.

Lemma south_pole_valence :
  length (filter (fun t => has_vertex vertex_eqb SouthPole (tri_of_tag n m t))
                 (mesh_tags n m)) = Z.to_nat n.
Proof.
  rewrite (filter_exactly _ _ (map TSouth (range 0 n))).
  - rewrite length_map, range_length. f_equal. lia.
  - apply mesh_tags_NoDup.
  - apply Injective_map_NoDup; [|apply range_NoDup].
    intros a b E. now injection E.
  - intros t Hin. apply in_map_iff in Hin. destruct Hin as (k & <- & Hk).
    apply In_range in Hk. split.
    + apply In_mesh_tags. exact Hk.
    + apply has_vertex_vertex. now left.
  - intros t Hin Hp. apply In_mesh_tags in Hin.
    destruct t; cbn [tri_of_tag wf_tag] in Hin, Hp;
      apply has_vertex_vertex in Hp;
      try (destruct Hp as [Hp|[Hp|Hp]]; discriminate).
    apply in_map. now apply In_range.
Qed.

Lemma north_pole_valence :
  length (filter (fun t => has_vertex vertex_eqb NorthPole (tri_of_tag n m t))
                 (mesh_tags n m)) = Z.to_nat n.
Proof.
  rewrite (filter_exactly _ _ (map TNorth (range 0 n))).
  - rewrite length_map, range_length. f_equal. lia.
  - apply mesh_tags_NoDup.
  - apply Injective_map_NoDup; [|apply range_NoDup].
    intros a b E. now injection E.
  - intros t Hin. apply in_map_iff in Hin. destruct Hin as (k & <- & Hk).
    apply In_range in Hk. split.
    + apply In_mesh_tags. exact Hk.
    + apply has_vertex_vertex. now left.
  - intros t Hin Hp. apply In_mesh_tags in Hin.
    destruct t; cbn [tri_of_tag wf_tag] in Hin, Hp;
      apply has_vertex_vertex in Hp;
      try (destruct Hp as [Hp|[Hp|Hp]]; discriminate).
    apply in_map. now apply In_range.
Qed.

Lemma first_ring_valence s :
  0 <= s < n ->
  length (filter (fun t => has_vertex vertex_eqb (RingVertex 0 s)
                                      (tri_of_tag n m t))
                 (mesh_tags n m)) = 5%nat.
Proof.
  intros Hs.
  rewrite (filter_exactly _ _ [TSouth s; TSouth (wrap_succ n s);
                               TUp 1 (wrap_succ n s);
                               TDown 1 (wrap_succ n s); TDown 1 s]).
  - reflexivity.
  - apply mesh_tags_NoDup.
  - tags_differ.
  - corner_listed.
  - corner_unique.
Qed.

Lemma last_ring_valence s :
  0 <= s < n ->
  length (filter (fun t => has_vertex vertex_eqb (RingVertex (m - 1) s)
                                      (tri_of_tag n m t))
                 (mesh_tags n m)) = 5%nat.
Proof.
  intros Hs.
  rewrite (filter_exactly _ _ [TUp (m - 1) s; TUp (m - 1) (wrap_succ n s);
                               TDown (m - 1) s;
                               TNorth (wrap_succ n s); TNorth s]).
  - reflexivity.
  - apply mesh_tags_NoDup.
  - tags_differ.
  - corner_listed.
  - corner_unique.
Qed.

Lemma inner_ring_valence r s :
  0 < r < m - 1 -> 0 <= s < n ->
  length (filter (fun t => has_vertex vertex_eqb (RingVertex r s)
                                      (tri_of_tag n m t))
                 (mesh_tags n m)) = 6%nat.
Proof.
  intros Hr Hs.
  rewrite (filter_exactly _ _ [TUp (r + 1) (wrap_succ n s); TUp r s;
                               TUp r (wrap_succ n s); TDown r s;
                               TDown (r + 1) (wrap_succ n s);
                               TDown (r + 1) s]).
  - reflexivity.
  - apply mesh_tags_NoDup.
  - tags_differ.
  - corner_listed.
  - corner_unique.
Qed.
End Valence.

Lemma spec_triangles_at n m v :
  3 <= n -> 3 <= m -> wf_vertex n m v ->
  triangles_at Z.eqb (encode n m v) (spec_triangles n m)
  = length (filter (fun t => has_vertex vertex_eqb v (tri_of_tag n m t))
                   (mesh_tags n m)).
Proof.
  intros Hn Hm Hv. unfold triangles_at. rewrite spec_triangles_closed.
  unfold mesh_triangles. rewrite map_map, filter_map_length. f_equal.
  apply filter_ext_in. intros tg Htg. apply In_mesh_tags in Htg.
  apply has_vertex_encode; try assumption; try lia.
  now apply tri_of_tag_wf.
Qed.

(** X17.  For valid arguments [segments] triangles meet at each pole, five
    at each vertex of the first and of the last ring, and six at every
    other vertex. *)
Theorem geom_triangles_per_vertex {A : Arithmetic} {L : Lawful A}
        (radius : num) segments rings :
  valid_arguments radius segments rings ->
  exists g st,
    get_uv_sphere_geom radius segments rings geom_nothing = (Ok g, st)
    /\ triangles_at Z.eqb south_pole_index (geom_triangles g)
       = Z.to_nat segments
    /\ triangles_at Z.eqb (north_pole_index segments rings)
                    (geom_triangles g) = Z.to_nat segments
    /\ forall r s,
         0 <= r < rings -> 0 <= s < segments ->
         triangles_at Z.eqb (ring_vertex_index segments r s)
                      (geom_triangles g)
         = if (r =? 0) || (r =? rings - 1) then 5%nat else 6%nat.
Proof.
  intros Hv. pose proof Hv as (Hr & Hn & Hm).
  eexists. eexists. split; [apply get_uv_sphere_geom_run; assumption|].
  cbn [geom_triangles]. split; [|split].
  - rewrite <- (south_pole_valence segments rings).
    now apply (spec_triangles_at segments rings SouthPole).
  - rewrite <- (north_pole_valence segments rings).
    now apply (spec_triangles_at segments rings NorthPole).
  - intros r s Hrr Hs.
    change (ring_vertex_index segments r s)
      with (encode segments rings (RingVertex r s)).
    rewrite spec_triangles_at by (try assumption; now split).
    destruct (Z.eqb_spec r 0) as [->|H0]; cbn [orb].
    + now apply first_ring_valence.
    + destruct (Z.eqb_spec r (rings - 1)) as [->|H1].
      * now apply last_ring_valence.
      * apply inner_ring_valence; try assumption; lia.
Qed.

Lemma geom_triangles_per_vertex_5_16_8 :
  exists g st,
    get_uv_sphere_geom (A := exact) 5%R 16 8 geom_nothing = (Ok g, st)
    /\ triangles_at Z.eqb south_pole_index (geom_triangles g) = Z.to_nat 16
    /\ triangles_at Z.eqb (north_pole_index 16 8) (geom_triangles g)
       = Z.to_nat 16
    /\ forall r s,
         0 <= r < 8 -> 0 <= s < 16 ->
         triangles_at Z.eqb (ring_vertex_index 16 r s) (geom_triangles g)
         = if (r =? 0) || (r =? 8 - 1) then 5%nat else 6%nat.
Proof.
  apply (geom_triangles_per_vertex (A := exact) 5%R 16 8).
  apply exact_valid; [lra|lia|lia].
Defined.

(** ** Double precision: what rounding keeps of a magnitude

    The Standard Library specifies the operations of IEEE 754 numbers
    ([SpecFloat]) and proves nothing about their rounding.  What the
    generators need is that the angles they compute are finite numbers; this
    follows from bounds on the magnitude of a result, [digits m + e] for the
    number [m * 2^e]. *)

Lemma digits2_pos_size p : digits2_pos p = Pos.size p.
Proof. induction p; simpl; congruence. Qed.

Lemma Zdigits2_nonneg m : 0 <= Zdigits2 m.
Proof. destruct m; simpl; lia. Qed.

Lemma Zdigits2_abs m : Zdigits2 (Z.abs m) = Zdigits2 m.
Proof. now destruct m. Qed.

(** [digits m <= k] says [m < 2^k]. *)
Lemma Zdigits2_le m k :
  0 <= m -> 0 <= k -> (Zdigits2 m <= k <-> m < 2 ^ k).
Proof.
  intros Hm Hk. destruct m as [|p|p]; [|clear Hm|lia].
  - simpl. split; [intros _; apply Z.pow_pos_nonneg; lia|lia].
  - cbn [Zdigits2]. rewrite digits2_pos_size.
    pose proof (Pos.size_gt p) as Hgt. pose proof (Pos.size_le p) as Hle.
    apply Pos2Z.pos_lt_pos in Hgt. apply Pos2Z.pos_le_pos in Hle.
    rewrite Pos2Z.inj_pow in Hgt, Hle.
    change (Z.pos p~0) with (2 * Z.pos p) in Hle.
    split; intros H.
    + apply Z.lt_le_trans with (1 := Hgt).
      apply Z.pow_le_mono_r; lia.
    + destruct (Z_le_gt_dec (Z.pos (Pos.size p)) k) as [|Hc]; [assumption|].
      exfalso.
      assert (2 ^ (k + 1) <= 2 ^ Z.pos (Pos.size p))
        by (apply Z.pow_le_mono_r; lia).
      rewrite Z.pow_add_r in * by lia. lia.
Qed.

Lemma Zdigits2_succ m : 0 <= m -> Zdigits2 (m + 1) <= Zdigits2 m + 1.
Proof.
  intros Hm. pose proof (Zdigits2_nonneg m) as Hd.
  apply Zdigits2_le; [lia|lia|].
  assert (m < 2 ^ Zdigits2 m) by (apply Zdigits2_le; lia).
  rewrite Z.pow_add_r by lia. lia.
Qed.

Lemma Zdigits2_mul a b :
  0 <= a -> 0 <= b -> Zdigits2 (a * b) <= Zdigits2 a + Zdigits2 b.
Proof.
  intros Ha Hb.
  pose proof (Zdigits2_nonneg a) as Hda. pose proof (Zdigits2_nonneg b) as Hdb.
  apply Zdigits2_le; [nia|lia|].
  assert (a < 2 ^ Zdigits2 a) by (apply Zdigits2_le; lia).
  assert (b < 2 ^ Zdigits2 b) by (apply Zdigits2_le; lia).
  rewrite Z.pow_add_r by lia. nia.
Qed.

Lemma iter_pos_nat {T} (f : T -> T) p : forall x,
  iter_pos f p x = Nat.iter (Pos.to_nat p) f x.
Proof.
  induction p as [p IH|p IH|]; intros x; cbn [iter_pos].
  - rewrite !IH, Pos2Nat.inj_xI.
    replace (S (2 * Pos.to_nat p)) with (Pos.to_nat p + Pos.to_nat p + 1)%nat
      by lia.
    now rewrite !Nat.iter_add.
  - rewrite !IH, Pos2Nat.inj_xO.
    replace (2 * Pos.to_nat p)%nat with (Pos.to_nat p + Pos.to_nat p)%nat
      by lia.
    now rewrite Nat.iter_add.
  - reflexivity.
Qed.

(** One step to the right halves a mantissa. *)
Lemma shr_1_m mrs :
  0 <= shr_m mrs ->
  0 <= shr_m (shr_1 mrs)
  /\ Zdigits2 (shr_m (shr_1 mrs)) = Z.max (Zdigits2 (shr_m mrs) - 1) 0.
Proof.
  destruct mrs as [m r s]. cbn [shr_m]. intros Hm.
  destruct m as [|[p|p|]|p];
    cbn [shr_1 shr_m Zdigits2 digits2_pos orb]; rewrite ?Pos2Z.inj_succ; lia.
Qed.

Lemma shr_iter_m k : forall mrs,
  0 <= shr_m mrs ->
  0 <= shr_m (Nat.iter k shr_1 mrs)
  /\ Zdigits2 (shr_m (Nat.iter k shr_1 mrs))
     = Z.max (Zdigits2 (shr_m mrs) - Z.of_nat k) 0.
Proof.
  induction k as [|k IH]; intros mrs Hm.
  - simpl Nat.iter. pose proof (Zdigits2_nonneg (shr_m mrs)). lia.
  - rewrite Nat.iter_succ. destruct (IH mrs Hm) as [H1 H2].
    destruct (shr_1_m _ H1) as [H3 H4]. split; [assumption|].
    rewrite H4, H2. lia.
Qed.

Lemma shr_record_of_loc_m m l : shr_m (shr_record_of_loc m l) = m.
Proof. destruct l as [|[]]; reflexivity. Qed.

(** Bringing a number to its exponent keeps its magnitude within [K]. *)
Lemma shr_fexp_bound prec emax m e l K :
  0 < prec -> emin prec emax <= K -> 0 <= m -> Zdigits2 m + e <= K ->
  0 <= shr_m (fst (shr_fexp prec emax m e l))
  /\ Zdigits2 (shr_m (fst (shr_fexp prec emax m e l)))
     + snd (shr_fexp prec emax m e l) <= K.
Proof.
  intros Hp HK Hm Hd. unfold shr_fexp, shr.
  pose proof (Zdigits2_nonneg m) as Hdm.
  destruct (fexp prec emax (Zdigits2 m + e) - e) as [|p|p] eqn:En;
    cbn [fst snd]; rewrite ?shr_record_of_loc_m; try (split; assumption).
  rewrite iter_pos_nat.
  destruct (shr_iter_m (Pos.to_nat p) (shr_record_of_loc m l)) as [H1 H2];
    [now rewrite shr_record_of_loc_m|].
  rewrite shr_record_of_loc_m in H2. split; [assumption|].
  rewrite H2, positive_nat_Z. unfold fexp in En. lia.
Qed.

Lemma round_nearest_even_bound m l :
  0 <= m ->
  0 <= round_nearest_even m l
  /\ Zdigits2 (round_nearest_even m l) <= Zdigits2 m + 1.
Proof.
  intros Hm. pose proof (Zdigits2_succ m Hm) as Hs.
  unfold round_nearest_even.
  destruct l as [|[]]; try destruct (Z.even m); split; lia.
Qed.

(** A number below [2^K] in magnitude is rounded to zero or to a finite
    number below [2^(K + 1)], with the sign asked for. *)
Lemma binary_round_aux_bound prec emax sx mx ex lx K :
  0 < prec -> emin prec emax <= K -> K + 1 <= emax - prec ->
  0 <= mx -> Zdigits2 mx + ex <= K ->
  match binary_round_aux prec emax sx mx ex lx with
  | S754_zero s => s = sx
  | S754_finite s m e => s = sx /\ Zpos (digits2_pos m) + e <= K + 1
  | _ => False
  end.
Proof.
  intros Hp HK HKm Hm Hd. unfold binary_round_aux.
  destruct (shr_fexp_bound prec emax mx ex lx K Hp HK Hm Hd) as [H1 H2].
  destruct (shr_fexp prec emax mx ex lx) as [mrs' e'].
  cbn [fst snd] in H1, H2.
  destruct (round_nearest_even_bound (shr_m mrs') (loc_of_shr_record mrs') H1)
    as [H3 H4].
  set (m2 := round_nearest_even (shr_m mrs') (loc_of_shr_record mrs')) in *.
  destruct (shr_fexp_bound prec emax m2 e' loc_Exact (K + 1) Hp
              ltac:(lia) H3 ltac:(lia)) as [H5 H6].
  destruct (shr_fexp prec emax m2 e' loc_Exact) as [mrs'' e''].
  cbn [fst snd] in H5, H6.
  destruct (shr_m mrs'') as [|m|m]; [reflexivity| |lia].
  cbn [Zdigits2] in H6.
  destruct (Z.leb_spec e'' (emax - prec)) as [_|Hc]; [now split|].
  pose proof (Pos2Z.is_pos (digits2_pos m)). lia.
Qed.

Lemma magnitude_below_mono k k' x :
  k <= k' -> magnitude_below k x -> magnitude_below k' x.
Proof. destruct x; cbn; try tauto; lia. Qed.

Lemma magnitude_below_finite k x :
  magnitude_below k x -> sf_is_finite x = true.
Proof. destruct x; cbn; tauto. Qed.

Lemma binary_round_aux_magnitude prec emax sx mx ex lx K :
  0 < prec -> emin prec emax <= K -> K + 1 <= emax - prec ->
  0 <= mx -> Zdigits2 mx + ex <= K ->
  magnitude_below (K + 1) (binary_round_aux prec emax sx mx ex lx).
Proof.
  intros Hp HK HKm Hm Hd.
  pose proof (binary_round_aux_bound prec emax sx mx ex lx K Hp HK HKm Hm Hd)
    as H.
  destruct (binary_round_aux prec emax sx mx ex lx); cbn; tauto.
Qed.

Lemma digits2_pos_iter mx d :
  Zpos (digits2_pos (Pos.iter xO mx d)) = Zpos (digits2_pos mx) + Zpos d.
Proof.
  induction d as [|d IH] using Pos.peano_ind.
  - cbn. lia.
  - rewrite Pos.iter_succ. cbn [digits2_pos]. lia.
Qed.

(** Aligning a mantissa to a smaller exponent does not change the
    magnitude. *)
Lemma shl_align_magnitude mx ex ex' :
  Zpos (digits2_pos (fst (shl_align mx ex ex'))) + snd (shl_align mx ex ex')
  = Zpos (digits2_pos mx) + ex.
Proof.
  unfold shl_align. destruct (ex' - ex) as [|d|d] eqn:E; cbn [fst snd];
    try reflexivity.
  rewrite digits2_pos_iter. lia.
Qed.

Lemma shl_align_exponent mx ex ex' :
  ex' <= ex -> snd (shl_align mx ex ex') = ex'.
Proof.
  intros H. unfold shl_align.
  destruct (ex' - ex) as [|d|d] eqn:E; cbn [snd]; lia.
Qed.

Lemma binary_round_magnitude prec emax sx mx ex K :
  0 < prec -> emin prec emax <= K -> K + 1 <= emax - prec ->
  Zpos (digits2_pos mx) + ex <= K ->
  magnitude_below (K + 1) (binary_round prec emax sx mx ex).
Proof.
  intros Hp HK HKm Hd. unfold binary_round.
  pose proof (shl_align_magnitude mx ex
                (fexp prec emax (Zpos (digits2_pos mx) + ex))) as H.
  destruct (shl_align mx ex (fexp prec emax (Zpos (digits2_pos mx) + ex)))
    as [mz ez].
  cbn [fst snd] in H.
  apply binary_round_aux_magnitude; try assumption; [lia|].
  cbn [Zdigits2]. lia.
Qed.

Lemma binary_normalize_magnitude prec emax m e szero K :
  0 < prec -> emin prec emax <= K -> K + 1 <= emax - prec ->
  Zdigits2 m + e <= K ->
  magnitude_below (K + 1) (binary_normalize prec emax m e szero).
Proof.
  intros Hp HK HKm Hd. unfold binary_normalize.
  destruct m as [|p|p]; [exact I| |];
    apply binary_round_magnitude; assumption.
Qed.

Lemma Zdigits2_add a b :
  Zdigits2 (a + b) <= Z.max (Zdigits2 a) (Zdigits2 b) + 1.
Proof.
  pose proof (Zdigits2_nonneg a) as Ha. pose proof (Zdigits2_nonneg b) as Hb.
  rewrite <- (Zdigits2_abs (a + b)).
  apply Zdigits2_le; [lia|lia|].
  assert (Z.abs a < 2 ^ Zdigits2 a)
    by (apply Zdigits2_le; [lia|lia|rewrite Zdigits2_abs; lia]).
  assert (Z.abs b < 2 ^ Zdigits2 b)
    by (apply Zdigits2_le; [lia|lia|rewrite Zdigits2_abs; lia]).
  assert (2 ^ Zdigits2 a <= 2 ^ Z.max (Zdigits2 a) (Zdigits2 b))
    by (apply Z.pow_le_mono_r; lia).
  assert (2 ^ Zdigits2 b <= 2 ^ Z.max (Zdigits2 a) (Zdigits2 b))
    by (apply Z.pow_le_mono_r; lia).
  rewrite Z.pow_add_r by lia. lia.
Qed.

Lemma Zdigits2_cond_Zopp s m : Zdigits2 (cond_Zopp s m) = Zdigits2 m.
Proof. destruct s, m; reflexivity. Qed.

Lemma Zdigits2_opp m : Zdigits2 (- m) = Zdigits2 m.
Proof. now destruct m. Qed.

Section Bounds.
Variables prec emax : Z.
Hypothesis prec_pos : 0 < prec.

(** [x * y] of two numbers below [2^a] and [2^b]. *)
Lemma SFmul_magnitude a b x y :
  emin prec emax <= a + b -> a + b + 1 <= emax - prec ->
  magnitude_below a x -> magnitude_below b y ->
  magnitude_below (a + b + 1) (SFmul prec emax x y).
Proof.
  intros HK HKm Hx Hy.
  destruct x as [sx|sx| |sx mx ex], y as [sy|sy| |sy my ey];
    cbn [magnitude_below] in Hx, Hy; try contradiction; try exact I.
  cbn [SFmul]. apply binary_round_aux_magnitude; try assumption; [lia|].
  pose proof (Zdigits2_mul (Zpos mx) (Zpos my) ltac:(lia) ltac:(lia)) as H.
  cbn [Zdigits2 Z.mul] in H |- *. lia.
Qed.

(** [x + y] and [x - y] of two numbers below [2^K]. *)
Lemma SFadd_magnitude K x y :
  emin prec emax <= K + 1 -> K + 2 <= emax - prec ->
  magnitude_below K x -> magnitude_below K y ->
  magnitude_below (K + 2) (SFadd prec emax x y).
Proof.
  intros HK HKm Hx Hy.
  destruct x as [sx|sx| |sx mx ex], y as [sy|sy| |sy my ey];
    cbn [magnitude_below] in Hx, Hy; try contradiction.
  - cbn [SFadd]. destruct sx, sy; exact I.
  - cbn [SFadd magnitude_below]. lia.
  - cbn [SFadd magnitude_below]. lia.
  - cbn [SFadd].
    replace (K + 2) with (K + 1 + 1) by lia.
    apply binary_normalize_magnitude; try assumption; [lia|].
    pose proof (shl_align_magnitude mx ex (Z.min ex ey)) as H1.
    pose proof (shl_align_magnitude my ey (Z.min ex ey)) as H2.
    rewrite shl_align_exponent in H1, H2 by lia.
    pose proof (Zdigits2_add
                  (cond_Zopp sx (Zpos (fst (shl_align mx ex (Z.min ex ey)))))
                  (cond_Zopp sy (Zpos (fst (shl_align my ey (Z.min ex ey))))))
      as H.
    rewrite !Zdigits2_cond_Zopp in H. cbn [Zdigits2] in H.
    change (IntDef.Z.min ex ey) with (Z.min ex ey). lia.
Qed.

Lemma SFsub_magnitude K x y :
  emin prec emax <= K + 1 -> K + 2 <= emax - prec ->
  magnitude_below K x -> magnitude_below K y ->
  magnitude_below (K + 2) (SFsub prec emax x y).
Proof.
  intros HK HKm Hx Hy.
  destruct x as [sx|sx| |sx mx ex], y as [sy|sy| |sy my ey];
    cbn [magnitude_below] in Hx, Hy; try contradiction.
  - cbn [SFsub]. destruct sx, sy; exact I.
  - cbn [SFsub magnitude_below]. lia.
  - cbn [SFsub magnitude_below]. lia.
  - cbn [SFsub].
    replace (K + 2) with (K + 1 + 1) by lia.
    apply binary_normalize_magnitude; try assumption; [lia|].
    pose proof (shl_align_magnitude mx ex (Z.min ex ey)) as H1.
    pose proof (shl_align_magnitude my ey (Z.min ex ey)) as H2.
    rewrite shl_align_exponent in H1, H2 by lia.
    pose proof (Zdigits2_add
                  (cond_Zopp sx (Zpos (fst (shl_align mx ex (Z.min ex ey)))))
                  (- cond_Zopp sy (Zpos (fst (shl_align my ey (Z.min ex ey))))))
      as H.
    rewrite Zdigits2_opp, !Zdigits2_cond_Zopp in H. cbn [Zdigits2] in H.
    change (IntDef.Z.min ex ey) with (Z.min ex ey).
    change (IntDef.Z.sub ?a ?b) with (a + - b). lia.
Qed.
End Bounds.

(** [i / d] for [0 <= i <= d]: a number below 4 in magnitude, and no
    [OverflowError]. *)
Lemma b64_int_quotient_unit i d :
  0 <= i <= d -> 0 < d ->
  exists x, b64_int_quotient i d = Ok x /\ magnitude_below 2 x.
Proof.
  intros Hi Hd. unfold b64_int_quotient.
  destruct i as [|p|p]; [eexists; split; [reflexivity|exact I]| |lia].
  rewrite (Z.abs_eq d) by lia. cbn [Z.abs].
  unfold SFdiv_core_binary.
  set (e' := Z.min (fexp 53 1024 (Zdigits2 (Zpos p) + 0 - (Zdigits2 d + 0)))
                   (0 - 0)).
  assert (He : e' <= 0) by (unfold e'; lia).
  set (m' := match 0 - 0 - e' with
             | 0 => Zpos p
             | Zpos _ => Z.shiftl (Zpos p) (0 - 0 - e')
             | Zneg _ => 0
             end).
  assert (Hm : m' = Zpos p * 2 ^ (- e')).
  { unfold m'. replace (0 - 0 - e') with (- e') by lia.
    destruct (- e') as [|s|s] eqn:Es; [simpl; lia| |lia].
    rewrite Z.shiftl_mul_pow2 by lia. reflexivity. }
  pose proof (Z_div_mod m' d ltac:(lia)) as Hdiv.
  destruct (Z.div_eucl m' d) as [q r]. destruct Hdiv as [Hq Hr].
  assert (Hp2 : 0 < 2 ^ (- e')) by (apply Z.pow_pos_nonneg; lia).
  assert (Hq0 : 0 <= q) by nia.
  assert (Hqs : q <= 2 ^ (- e')) by nia.
  assert (Hdq : Zdigits2 q + e' <= 1).
  { assert (Zdigits2 q <= - e' + 1); [|lia].
    apply Zdigits2_le; [lia|lia|].
    rewrite Z.pow_add_r by lia. lia. }
  pose proof (binary_round_aux_bound 53 1024
                (xorb (Zpos p <? 0) (d <? 0)) q e'
                (new_location d r) 1 ltac:(lia) ltac:(unfold emin; lia)
                ltac:(lia) Hq0 Hdq) as H.
  destruct (binary_round_aux 53 1024 (xorb (Zpos p <? 0) (d <? 0)) q e'
                             (new_location d r)) as [s|s| |s m e];
    try contradiction; eexists; (split; [reflexivity|]).
  - exact I.
  - cbn [magnitude_below]. destruct H as [_ H]. lia.
Qed.

(** ** Double precision is lawful *)

(** The operations of [binary64] written as operations on [spec_float]. *)
Ltac b64_ops :=
  cbn [num of_int half tau mul add sub div py_mod int_quotient gtb leb
       math_cos math_sin float32 binary64] in *.

Lemma math_1_finite func x :
  magnitude_below 1 (func x) -> math_1 func x = Ok (func x).
Proof.
  intros H. unfold math_1. destruct (func x); cbn in H |- *; tauto.
Qed.

Section Binary64.
Variable libm : Libm.

Lemma b64_math_cos x :
  sf_is_finite x = true ->
  math_cos (Arithmetic := binary64 libm) x = Ok (libm_cos libm x)
  /\ magnitude_below 1 (libm_cos libm x).
Proof.
  intros H. pose proof (libm_cos_bounded libm x H) as Hb.
  split; [now apply math_1_finite|assumption].
Qed.

Lemma b64_math_sin x :
  sf_is_finite x = true ->
  math_sin (Arithmetic := binary64 libm) x = Ok (libm_sin libm x)
  /\ magnitude_below 1 (libm_sin libm x).
Proof.
  intros H. pose proof (libm_sin_bounded libm x H) as Hb.
  split; [now apply math_1_finite|assumption].
Qed.

Lemma tau_64_magnitude : magnitude_below 3 Binary64Literals.tau_64.
Proof. vm_compute. discriminate. Qed.

Lemma pi_64_magnitude :
  magnitude_below 2
    (mul (Arithmetic := binary64 libm) half tau).
Proof. vm_compute. discriminate. Qed.

Lemma start_270_magnitude :
  magnitude_below 3 (arc_start_angle (A := binary64 libm) (of_int 270)).
Proof. vm_compute. discriminate. Qed.

(** The angle of position [i] on a circle is a finite number. *)
Lemma b64_longitude_finite quantity i :
  0 <= i < quantity ->
  exists x,
    int_quotient (Arithmetic := binary64 libm) i quantity = Ok x
    /\ magnitude_below 6 (mul (Arithmetic := binary64 libm) x tau).
Proof.
  intros Hi.
  destruct (b64_int_quotient_unit i quantity) as (x & Hx & Hm); [lia|lia|].
  exists x. split; [exact Hx|]. b64_ops.
  apply (SFmul_magnitude 53 1024 ltac:(lia) 2 3);
    [unfold emin; lia|lia|assumption|apply tau_64_magnitude].
Qed.

(** The angle of sample [i] of the meridian is a finite number. *)
Lemma b64_meridian_angle_finite rings i :
  0 <= i <= rings + 1 -> 0 < rings + 1 ->
  exists x,
    int_quotient (Arithmetic := binary64 libm) i (rings + 1) = Ok x
    /\ magnitude_below 9
         (arc_wrap (A := binary64 libm)
            (add (mul x (mul half tau)) (arc_start_angle (of_int 270)))).
Proof.
  intros Hi Hm.
  destruct (b64_int_quotient_unit i (rings + 1)) as (x & Hx & Hb);
    [lia|lia|].
  exists x. split; [exact Hx|].
  pose proof pi_64_magnitude as Hpi. pose proof start_270_magnitude as Hs.
  set (P := mul (Arithmetic := binary64 libm) half tau) in *.
  set (S := arc_start_angle (A := binary64 libm) (of_int 270)) in *.
  assert (H1 : magnitude_below 5 (mul (Arithmetic := binary64 libm) x P)).
  { b64_ops.
    apply (SFmul_magnitude 53 1024 ltac:(lia) 2 2);
      [unfold emin; lia|lia|assumption|assumption]. }
  assert (H2 : magnitude_below 7
                 (add (Arithmetic := binary64 libm)
                      (mul (Arithmetic := binary64 libm) x P) S)).
  { b64_ops.
    apply (SFadd_magnitude 53 1024 ltac:(lia) 5);
      [unfold emin; lia|lia|exact H1|].
    apply (magnitude_below_mono 3); [lia|exact Hs]. }
  unfold arc_wrap.
  match goal with |- context [if ?c then _ else _] => destruct c end.
  - b64_ops.
    apply (SFsub_magnitude 53 1024 ltac:(lia) 7);
      [unfold emin; lia|lia|assumption|].
    apply (magnitude_below_mono 3); [lia|apply tau_64_magnitude].
  - apply (magnitude_below_mono 7); [lia|exact H2].
Qed.

Lemma binary64_lawful : Lawful (binary64 libm).
Proof.
  split.
  - reflexivity.
  - intros quantity i Hi.
    destruct (b64_longitude_finite quantity i Hi) as (x & Hx & Hm).
    apply magnitude_below_finite in Hm.
    destruct (b64_math_cos _ Hm) as [Hc _].
    destruct (b64_math_sin _ Hm) as [Hs _].
    exists x. eexists. eexists. split; [exact Hx|]. split; eassumption.
  - intros rings i Hi Hr.
    destruct (b64_meridian_angle_finite rings i Hi Hr) as (x & Hx & Hm).
    apply magnitude_below_finite in Hm.
    destruct (b64_math_cos _ Hm) as [Hc _].
    destruct (b64_math_sin _ Hm) as [Hs _].
    exists x. eexists. eexists. split; [exact Hx|]. split; eassumption.
Qed.
End Binary64.

#[export] Existing Instance binary64_lawful.

(** ** Underflow and zeros *)















(** ** The generators in double precision *)


Section Binary64Rows.
Variable libm : Libm.







End Binary64Rows.

(** ** What double and single precision do to the positions *)

Lemma b64_valid (libm : Libm) (radius : spec_float) n m :
  SFleb radius (S754_zero false) = false -> 3 <= n -> 3 <= m ->
  valid_arguments (A := binary64 libm) radius n m.
Proof. intros Hr Hn Hm. repeat split; assumption. Qed.

(** The row of the table that corresponds to vertex [i] of a pool. *)
Lemma vertex_at_pool {A : Arithmetic} (pool : list EggVertex) i :
  vertex_at (map (fun v => Some (ev_pos v)) pool) i = pool_position pool i.
Proof.
  unfold vertex_at, pool_position. destruct (i <? 0); [reflexivity|].
  generalize (Z.to_nat i) as k. induction pool as [|v pool IH]; intros k.
  - now destruct k.
  - destruct k as [|k]; [reflexivity|]. cbn [map nth nth_error]. apply IH.
Qed.


(** C7, refuted as stated.  The vertex table keeps single precision: for
    radius 0.1 the north pole row holds 0.20000000298023224, which is not
    the double [0.1 * 2] that the code computes. *)
Lemma north_pole_row_is_single_precision :
  exists radius : spec_float,
    radius = Binary64Literals.one_tenth
    /\ forall libm : Libm,
         valid_arguments (A := binary64 libm) radius 3 3
         /\ exists g st,
              get_uv_sphere_geom (A := binary64 libm) radius 3 3 geom_nothing
              = (Ok g, st)
              /\ vertex_at (geom_vertices g) (north_pole_index 3 3)
                 = Some (mkPoint3D (A := binary64 libm)
                           (S754_zero false) (S754_zero false)
                           (S754_finite false 13421773 (-26)))
              /\ mul (Arithmetic := binary64 libm) radius (of_int 2)
                 = S754_finite false 7205759403792794 (-55)
              /\ vertex_at (geom_vertices g) (north_pole_index 3 3)
                 <> Some (mkPoint3D (A := binary64 libm)
                            (of_int 0) (of_int 0)
                            (mul (Arithmetic := binary64 libm)
                                 radius (of_int 2))).
Proof.
  exists Binary64Literals.one_tenth. split; [reflexivity|]. intros libm.
  assert (Hv : valid_arguments (A := binary64 libm)
                               Binary64Literals.one_tenth 3 3)
    by (apply b64_valid; [reflexivity|lia|lia]).
  split; [exact Hv|].
  eexists. eexists. split; [apply get_uv_sphere_geom_run; exact Hv|].
  cbn [geom_vertices].
  assert (E : vertex_at (map Some (sphere_rows (A := binary64 libm)
                                     Binary64Literals.one_tenth 3 3))
                        (north_pole_index 3 3)
              = Some (mkPoint3D (A := binary64 libm)
                        (S754_zero false) (S754_zero false)
                        (S754_finite false 13421773 (-26)))).
  { change (north_pole_index 3 3) with (encode 3 3 NorthPole).
    rewrite vertex_at_encode by (try lia; exact I). reflexivity. }
  split; [exact E|]. split; [reflexivity|].
  rewrite E. intros H. discriminate H.
Qed.

(** C6, refuted as stated.  The positions of the two forms are not
    identical: for radius 0.1 the pool holds the north pole at the double
    0.2 and the flat table holds it at 0.20000000298023224. *)
Lemma flat_table_rounds_the_pool_positions :
  exists radius : spec_float,
    radius = Binary64Literals.one_tenth
    /\ forall libm : Libm,
         valid_arguments (A := binary64 libm) radius 3 3
         /\ exists g st e st',
              get_uv_sphere_geom (A := binary64 libm) radius 3 3 geom_nothing
              = (Ok g, st)
              /\ get_uv_sphere_egg_data (A := binary64 libm) radius 3 3
                                        egg_nothing = (Ok e, st')
              /\ vertex_at (geom_vertices g) 10
                 = Some (mkPoint3D (A := binary64 libm)
                           (S754_zero false) (S754_zero false)
                           (S754_finite false 13421773 (-26)))
              /\ pool_position (egg_vertex_pool e) 10
                 = Some (mkPoint3D (A := binary64 libm)
                           (S754_zero false) (S754_zero false)
                           (S754_finite false 7205759403792794 (-55)))
              /\ map (fun v => Some (ev_pos v)) (egg_vertex_pool e)
                 <> geom_vertices g.
Proof.
  exists Binary64Literals.one_tenth. split; [reflexivity|]. intros libm.
  assert (Hv : valid_arguments (A := binary64 libm)
                               Binary64Literals.one_tenth 3 3)
    by (apply b64_valid; [reflexivity|lia|lia]).
  split; [exact Hv|].
  eexists. eexists. eexists. eexists.
  split; [apply get_uv_sphere_geom_run; exact Hv|].
  split; [apply get_uv_sphere_egg_data_run; exact Hv|].
  cbn [geom_vertices egg_result egg_vertex_pool].
  assert (E : vertex_at (map Some (sphere_rows (A := binary64 libm)
                                     Binary64Literals.one_tenth 3 3)) 10
              = Some (mkPoint3D (A := binary64 libm)
                        (S754_zero false) (S754_zero false)
                        (S754_finite false 13421773 (-26)))).
  { change 10 with (encode 3 3 NorthPole).
    rewrite vertex_at_encode by (try lia; exact I). reflexivity. }
  assert (P : pool_position
                (pool_from 0 (sphere_points (A := binary64 libm)
                                Binary64Literals.one_tenth 3 3)) 10
              = Some (mkPoint3D (A := binary64 libm)
                        (S754_zero false) (S754_zero false)
                        (S754_finite false 7205759403792794 (-55)))).
  { rewrite (pool_position_from _ _
               (mkPoint3D (A := binary64 libm)
                          (of_int 0) (of_int 0) (of_int 0)))
      by (rewrite sphere_points_length; lia).
    change 10 with (north_pole_index 3 3).
    rewrite sphere_points_north by lia. reflexivity. }
  split; [exact E|]. split; [exact P|].
  intros H. rewrite <- H, vertex_at_pool, P in E. discriminate E.
Qed.






(** ** The scenarios of the specification in the arithmetic of the code *)

(** Radius 5.0, 16 segments and 8 rings give 130 vertices and 256
    triangles, in both forms, whatever the C library's [cos] and [sin]. *)
Lemma binary64_counts_5_16_8 (libm : Libm) :
  exists g st e st',
    get_uv_sphere_geom (A := binary64 libm) (of_int 5) 16 8 geom_nothing
    = (Ok g, st)
    /\ get_uv_sphere_egg_data (A := binary64 libm) (of_int 5) 16 8
                              egg_nothing = (Ok e, st')
    /\ length (geom_vertices g) = 130%nat
    /\ length (geom_triangles g) = 256%nat
    /\ length (egg_vertex_pool e) = 130%nat
    /\ length (egg_polygons e) = 256%nat.
Proof.
  assert (Hv : valid_arguments (A := binary64 libm) (of_int 5) 16 8)
    by (apply b64_valid; [reflexivity|lia|lia]).
  eexists. eexists. eexists. eexists.
  split; [apply get_uv_sphere_geom_run; exact Hv|].
  split; [apply get_uv_sphere_egg_data_run; exact Hv|].
  cbn [geom_vertices geom_triangles egg_result egg_vertex_pool egg_polygons].
  rewrite !length_map, pool_from_length, sphere_rows_length,
    sphere_points_length by lia.
  pose proof (spec_triangles_length 16 8 ltac:(lia) ltac:(lia)) as H1.
  pose proof (egg_triangles_length (A := binary64 libm) (of_int 5) 16 8
                ltac:(lia) ltac:(lia)) as H2.
  repeat split; lia.
Qed.

(** Radius 0.0 and radius -1.0 are refused with [ValueError], as are 2
    segments and 2 rings. *)
Lemma binary64_value_errors (libm : Libm) :
  fst (get_uv_sphere_geom (A := binary64 libm) (of_int 0) 16 8 geom_nothing)
  = Raise ValueError
  /\ fst (get_uv_sphere_geom (A := binary64 libm) (of_int (-1)) 16 8
                             geom_nothing) = Raise ValueError
  /\ fst (get_uv_sphere_geom (A := binary64 libm) (of_int 5) 2 8
                             geom_nothing) = Raise ValueError
  /\ fst (get_uv_sphere_egg_data (A := binary64 libm) (of_int 5) 16 2
                                 egg_nothing) = Raise ValueError.
Proof. repeat split; reflexivity. Qed.
